(** * Linus content pipeline: front matter, liquid tags, images, validation

    A shallow embedding of the markdown normalisation and validation code of
    the repository ([src/content/front-matter.ts], [src/content/liquid-tags.ts],
    [src/content/markdown.ts], [src/content/validator.ts]) together with the
    properties its specification states about it.

    Strings.  A JavaScript string is a sequence of UTF-16 code units.  The
    embedding represents a string as a [list ascii], one element per code
    unit, and so covers the code units U+0000 to U+00FF (Latin-1).  Every
    character class below is the restriction of the ECMAScript class to that
    range. *)

From Stdlib Require Import Ascii String DecimalString.
From Stdlib Require Import Bool Arith Lia NArith ZArith List Sorted Permutation.
Import ListNotations.

Open Scope string_scope.
Open Scope list_scope.
Open Scope nat_scope.

Abbreviation str := (list ascii) (only parsing).

(** String literals are written as Rocq strings and read as lists of code units. *)
Coercion list_ascii_of_string : string >-> list.

(* ------------------------------------------------------------------ *)
(** ** Characters and character classes *)

Definition code_unit (c : ascii) : N := N_of_ascii c.

Definition LF : ascii := ascii_of_N 10.

(** The double quote. *)
Definition DQ : ascii := ascii_of_N 34.

(** ECMAScript [WhiteSpace] and [LineTerminator] below U+0100: TAB, LF, VT,
    FF, CR, SP and NBSP.  This is the set used by [String.prototype.trim] and
    by the class escape [\s]. *)
Definition is_space (c : ascii) : bool :=
  let n := code_unit c in
  ((9 <=? n) && (n <=? 13) || (n =? 32) || (n =? 160))%N.

(** [LineTerminator] below U+0100; the dot of a regular expression matches
    everything else. *)
Definition is_line_terminator (c : ascii) : bool :=
  let n := code_unit c in ((n =? 10) || (n =? 13))%N.

Definition is_dot (c : ascii) : bool := negb (is_line_terminator c).

Definition is_any (_ : ascii) : bool := true.

Definition is_upper (c : ascii) : bool :=
  let n := code_unit c in ((65 <=? n) && (n <=? 90))%N.

Definition is_lower (c : ascii) : bool :=
  let n := code_unit c in ((97 <=? n) && (n <=? 122))%N.

Definition is_digit (c : ascii) : bool :=
  let n := code_unit c in ((48 <=? n) && (n <=? 57))%N.

(** The class escape [\w]. *)
Definition is_word (c : ascii) : bool :=
  is_upper c || is_lower c || is_digit c || (code_unit c =? 95)%N.

Definition is_char (a : ascii) (c : ascii) : bool := Ascii.eqb a c.

Definition is_not (a : ascii) (c : ascii) : bool := negb (Ascii.eqb a c).

(** [String.prototype.toLowerCase] on one Latin-1 code unit: the ASCII
    capitals and the capitals U+00C0 to U+00DE (except the sign U+00D7). *)
Definition lower_char (c : ascii) : ascii :=
  let n := code_unit c in
  if is_upper c then ascii_of_N (n + 32)
  else if ((192 <=? n) && (n <=? 222) && negb (n =? 215))%N
       then ascii_of_N (n + 32)
       else c.

(** A pattern character under the [i] flag.  For an ASCII letter the
    canonicalisation of ECMAScript identifies exactly its two cases. *)
Definition is_char_ci (a : ascii) (c : ascii) : bool :=
  Ascii.eqb (lower_char a) (if is_upper c then lower_char c else c).

(* ------------------------------------------------------------------ *)
(** ** String primitives *)

Definition toLowerCase (s : str) : str := map lower_char s.

Fixpoint trimStart (s : str) : str :=
  match s with
  | c :: t => if is_space c then trimStart t else s
  | [] => []
  end.

Definition trimEnd (s : str) : str := rev (trimStart (rev s)).

Definition trim (s : str) : str := trimEnd (trimStart s).

Fixpoint str_eqb (a b : str) : bool :=
  match a, b with
  | [], [] => true
  | x :: a', y :: b' => Ascii.eqb x y && str_eqb a' b'
  | _, _ => false
  end.

Fixpoint startsWith (p s : str) : bool :=
  match p, s with
  | [], _ => true
  | x :: p', y :: s' => Ascii.eqb x y && startsWith p' s'
  | _ :: _, [] => false
  end.

(** The length of the longest prefix of [s] whose characters satisfy [p]. *)
Fixpoint run_len (p : ascii -> bool) (s : str) : nat :=
  match s with
  | c :: t => if p c then S (run_len p t) else 0
  | [] => 0
  end.

(** [s.split(c)] for a one-character separator. *)
Fixpoint split_char (sep : ascii) (s : str) : list str :=
  match s with
  | [] => [[]]
  | c :: t =>
      if Ascii.eqb c sep then [] :: split_char sep t
      else match split_char sep t with
           | l :: ls => (c :: l) :: ls
           | [] => [[c]]
           end
  end.

(** [parts.join(sep)]. *)
Fixpoint join (sep : str) (parts : list str) : str :=
  match parts with
  | [] => []
  | [p] => p
  | p :: ps => p ++ sep ++ join sep ps
  end.

(** A document given line by line. *)
Definition doc (lines : list string) : str :=
  join [LF] (map list_ascii_of_string lines).

Definition substring (from to : nat) (s : str) : str :=
  firstn (to - from) (skipn from s).

(** Decimal rendering of a non-negative integer, as a template literal or
    [String(n)] prints it. *)
Definition nat_to_str (n : nat) : str :=
  list_ascii_of_string (NilEmpty.string_of_uint (Nat.to_uint n)).

Definition Z_to_str (z : Z) : str :=
  list_ascii_of_string (NilZero.string_of_int (Z.to_int z)).

(* ------------------------------------------------------------------ *)
(** ** Exceptions

    A computation either returns a value or throws. *)

Inductive Exc (A : Type) : Type :=
| Ok (a : A)
| Throw.
Arguments Ok {A} a.
Arguments Throw {A}.

Definition bind {A B} (m : Exc A) (f : A -> Exc B) : Exc B :=
  match m with
  | Ok a => f a
  | Throw => Throw
  end.

(** [try { m } catch { h }]. *)
Definition try_catch {A} (m : Exc A) (h : Exc A) : Exc A :=
  match m with
  | Ok a => Ok a
  | Throw => h
  end.

Notation "x <- m ;; k" := (bind m (fun x => k))
  (at level 61, m at next level, right associativity).

(* ------------------------------------------------------------------ *)
(** ** Regular expressions

    The fragment of ECMAScript regular expressions the sources use, with the
    backtracking semantics of the language standard written in
    continuation-passing style: a matcher receives the current state and a
    continuation and returns the first successful final state in priority
    order.  Quantifiers only ever apply to a single character class in the
    sources, so [Star], [Plus] and [Opt] take a class. *)

Inductive regex : Type :=
| Eps
| Chr (p : ascii -> bool)
| Seq (r1 r2 : regex)
| Star (greedy : bool) (p : ascii -> bool)
| Opt (p : ascii -> bool)
| Group (n : nat) (r : regex)
| Backref (n : nat)
| Bol
| Eol.

(** Literal text, one [Chr] per character. *)
Fixpoint Lit (mk : ascii -> ascii -> bool) (s : str) : regex :=
  match s with
  | [] => Eps
  | c :: t => Seq (Chr (mk c)) (Lit mk t)
  end.

(** The text [s] begins with the literal [w], each character compared by
    [mk]. *)
Fixpoint lit_prefix (mk : ascii -> ascii -> bool) (w s : str) : bool :=
  match w, s with
  | [], _ => true
  | a :: w', c :: s' => mk a c && lit_prefix mk w' s'
  | _ :: _, [] => false
  end.

(** [p+] and [p+?] are [p p*] and [p p*?]. *)
Definition Plus (greedy : bool) (p : ascii -> bool) : regex :=
  Seq (Chr p) (Star greedy p).

Fixpoint Seqs (rs : list regex) : regex :=
  match rs with
  | [] => Eps
  | r :: rs' => Seq r (Seqs rs')
  end.

(** A lower bound on the number of characters a match takes. *)
Fixpoint min_len (r : regex) : nat :=
  match r with
  | Chr _ => 1
  | Seq r1 r2 => min_len r1 + min_len r2
  | Group _ r1 => min_len r1
  | Eps | Star _ _ | Opt _ | Backref _ | Bol | Eol => 0
  end.

Record mstate : Type := MState {
  ms_rest : str;                    (* input from the current position on *)
  ms_pos : nat;                     (* current position *)
  ms_caps : list (nat * str)        (* captures, most recent first *)
}.

Definition cont : Type := mstate -> option mstate.

(** [s1] is reached from the input [rest] at [pos] by taking the prefix
    [w]. *)
Definition reached (rest : str) (pos : nat) (s1 : mstate) (w : str) : Prop :=
  rest = w ++ ms_rest s1 /\ ms_pos s1 = pos + length w.

Fixpoint cap_lookup (n : nat) (caps : list (nat * str)) : option str :=
  match caps with
  | [] => None
  | (m, w) :: t => if Nat.eqb n m then Some w else cap_lookup n t
  end.

Fixpoint star_greedy (p : ascii -> bool) (k : cont)
    (rest : str) (pos : nat) (caps : list (nat * str)) : option mstate :=
  match rest with
  | c :: t =>
      if p c then
        match star_greedy p k t (S pos) caps with
        | Some r => Some r
        | None => k (MState rest pos caps)
        end
      else k (MState rest pos caps)
  | [] => k (MState rest pos caps)
  end.

Fixpoint star_lazy (p : ascii -> bool) (k : cont)
    (rest : str) (pos : nat) (caps : list (nat * str)) : option mstate :=
  match k (MState rest pos caps) with
  | Some r => Some r
  | None =>
      match rest with
      | c :: t => if p c then star_lazy p k t (S pos) caps else None
      | [] => None
      end
  end.

Fixpoint rmatch (r : regex) (k : cont) (s : mstate) : option mstate :=
  match r with
  | Eps => k s
  | Chr p =>
      match ms_rest s with
      | c :: t => if p c then k (MState t (S (ms_pos s)) (ms_caps s)) else None
      | [] => None
      end
  | Seq r1 r2 => rmatch r1 (rmatch r2 k) s
  | Star true p => star_greedy p k (ms_rest s) (ms_pos s) (ms_caps s)
  | Star false p => star_lazy p k (ms_rest s) (ms_pos s) (ms_caps s)
  | Opt p =>
      match ms_rest s with
      | c :: t =>
          if p c then
            match k (MState t (S (ms_pos s)) (ms_caps s)) with
            | Some r => Some r
            | None => k s
            end
          else k s
      | [] => k s
      end
  | Group n r1 =>
      rmatch r1
        (fun s' =>
           k (MState (ms_rest s') (ms_pos s')
                ((n, firstn (ms_pos s' - ms_pos s) (ms_rest s)) :: ms_caps s')))
        s
  | Backref n =>
      match cap_lookup n (ms_caps s) with
      | None => k s
      | Some w =>
          if startsWith w (ms_rest s)
          then k (MState (skipn (length w) (ms_rest s))
                    (ms_pos s + length w) (ms_caps s))
          else None
      end
  | Bol => if Nat.eqb (ms_pos s) 0 then k s else None
  | Eol => match ms_rest s with [] => k s | _ :: _ => None end
  end.

(** One successful match: where it starts, the matched text and the
    captures. *)
Record hit : Type := Hit {
  h_index : nat;
  h_text : str;
  h_caps : list (nat * str)
}.

(** [h_group n h] is the text of capture [n] ([match[n]]).  Every group of
    the patterns below takes part in every match; for a group that did not,
    the empty string is returned. *)
Definition h_group (n : nat) (h : hit) : str :=
  match cap_lookup n (h_caps h) with
  | Some w => w
  | None => []
  end.

(** Attempt a match that starts exactly at the current position. *)
Definition match_at (r : regex) (rest : str) (pos : nat) : option hit :=
  match rmatch r Some (MState rest pos []) with
  | Some s => Some (Hit pos (firstn (ms_pos s - pos) rest) (ms_caps s))
  | None => None
  end.

(** [re.test(s)] and a single [re.exec(s)] for a pattern without the [g]
    flag: the first position, from the left, at which a match starts. *)
Fixpoint search (r : regex) (rest : str) (pos : nat) : option hit :=
  match match_at r rest pos with
  | Some h => Some h
  | None =>
      match rest with
      | [] => None
      | _ :: t => search r t (S pos)
      end
  end.

Definition test (r : regex) (s : str) : bool :=
  match search r s 0 with Some _ => true | None => false end.

(** A left-to-right scan with a [g] pattern.  The result lists, in order,
    the successful matches and the characters between them.  After a match
    the scan resumes at its end ([lastIndex]); after an empty match it
    resumes one character later, as [String.prototype.replace] does.  [skip]
    counts the characters of the current match still to be passed over. *)
Inductive piece : Type :=
| Plain (c : ascii)
| Matched (h : hit).

Fixpoint pieces (r : regex) (rest : str) (pos : nat) (skip : nat) : list piece :=
  match skip with
  | S k =>
      match rest with
      | [] => []
      | _ :: t => pieces r t (S pos) k
      end
  | O =>
      match match_at r rest pos with
      | Some h =>
          Matched h ::
          match rest with
          | [] => []
          | c :: t =>
              match length (h_text h) with
              | O => Plain c :: pieces r t (S pos) 0
              | S k => pieces r t (S pos) k
              end
          end
      | None =>
          match rest with
          | [] => []
          | c :: t => Plain c :: pieces r t (S pos) 0
          end
      end
  end.

(** The matches of a [while ((m = re.exec(s)) !== null)] loop, and of
    [String.prototype.replace] with a [g] pattern. *)
Fixpoint hits_of (ps : list piece) : list hit :=
  match ps with
  | [] => []
  | Plain _ :: t => hits_of t
  | Matched h :: t => h :: hits_of t
  end.

Definition exec_all (r : regex) (s : str) : list hit :=
  hits_of (pieces r s 0 0).

(** [s.replace(re, f)] with a [g] pattern and a replacement function, which
    may throw. *)
Fixpoint replace_pieces (f : hit -> Exc str) (ps : list piece) : Exc str :=
  match ps with
  | [] => Ok []
  | Plain c :: t => rest <- replace_pieces f t ;; Ok (c :: rest)
  | Matched h :: t =>
      out <- f h ;; rest <- replace_pieces f t ;; Ok (out ++ rest)
  end.

Definition replace_fn (r : regex) (f : hit -> Exc str) (s : str) : Exc str :=
  replace_pieces f (pieces r s 0 0).

(** [s.replace(re, template)] with a [g] pattern and a replacement that
    cannot throw. *)
Fixpoint subst_pieces (f : hit -> str) (ps : list piece) : str :=
  match ps with
  | [] => []
  | Plain c :: t => c :: subst_pieces f t
  | Matched h :: t => f h ++ subst_pieces f t
  end.

Definition replace_all (r : regex) (f : hit -> str) (s : str) : str :=
  subst_pieces f (pieces r s 0 0).

(** [s.split(re)], for a pattern without capture groups.  [cur] holds the
    characters since the end of the previous separator; a separator found at
    the current position closes the piece, except an empty one found right
    where the piece began. *)
Fixpoint split_scan (r : regex) (rest : str) (q : nat) (cur : str)
    (skip : nat) : list str :=
  match rest with
  | [] => [cur]
  | c :: t =>
      match skip with
      | S k => split_scan r t (S q) cur k
      | O =>
          match match_at r rest q with
          | Some h =>
              match length (h_text h), cur with
              | O, [] => split_scan r t (S q) [c] 0
              | O, _ :: _ => cur :: split_scan r t (S q) [c] 0
              | S k, _ => cur :: split_scan r t (S q) [] k
              end
          | None => split_scan r t (S q) (cur ++ [c]) 0
          end
      end
  end.

Definition split_regex (r : regex) (s : str) : list str :=
  match s with
  | [] => match match_at r [] 0 with Some _ => [] | None => [[]] end
  | _ :: _ => split_scan r s 0 [] 0
  end.

(* ------------------------------------------------------------------ *)
(** ** Liquid tags ([src/content/liquid-tags.ts]) *)

Module LiquidTags.

Record TagDef : Type := mkTagDef {
  def_crossPostSafe : bool;
  def_convert : str -> option str -> str
}.

(** [content ?? ''] *)
Definition or_empty (content : option str) : str :=
  match content with Some c => c | None => [] end.

Definition TAG_DEFS : list (string * TagDef) :=
  [ ("embed", mkTagDef false (fun arg _ => arg));
    ("link", mkTagDef false (fun arg _ => "[" ++ arg ++ "](" ++ arg ++ ")"));
    ("user", mkTagDef false (fun arg _ => "@" ++ arg));
    ("tag", mkTagDef false (fun arg _ => "#" ++ arg));
    ("github", mkTagDef false
       (fun arg _ => "[" ++ arg ++ "](https://github.com/" ++ arg ++ ")"));
    ("youtube", mkTagDef false
       (fun arg _ => "https://www.youtube.com/watch?v=" ++ arg));
    ("twitter", mkTagDef false
       (fun arg _ => "https://twitter.com/i/status/" ++ arg));
    ("codepen", mkTagDef false (fun arg _ => arg));
    ("codesandbox", mkTagDef false
       (fun arg _ => "https://codesandbox.io/s/" ++ arg));
    ("details", mkTagDef false
       (fun summary content =>
          "<details>" ++ [LF] ++ "<summary>" ++ summary ++ "</summary>"
          ++ [LF; LF] ++ or_empty content ++ [LF] ++ "</details>"));
    ("katex", mkTagDef false
       (fun _ content => "$$" ++ [LF] ++ or_empty content ++ [LF] ++ "$$")) ].

(** [TAG_DEFS] is an object literal, so a property read that finds no own
    property continues on [Object.prototype]. *)
Definition object_prototype_keys : list string :=
  [ "constructor"; "__proto__"; "hasOwnProperty"; "isPrototypeOf";
    "propertyIsEnumerable"; "toLocaleString"; "toString"; "valueOf";
    "__defineGetter__"; "__defineSetter__"; "__lookupGetter__";
    "__lookupSetter__" ].

(** The result of [TAG_DEFS[name]]: an entry of the table, a value inherited
    from [Object.prototype] (truthy, without [crossPostSafe] or [convert]),
    or [undefined]. *)
Inductive TagLookup : Type :=
| Found (d : TagDef)
| Inherited
| Absent.

Fixpoint own_def (name : str) (defs : list (string * TagDef)) : option TagDef :=
  match defs with
  | [] => None
  | (k, d) :: t => if str_eqb name k then Some d else own_def name t
  end.

Definition tag_def (name : str) : TagLookup :=
  match own_def name TAG_DEFS with
  | Some d => Found d
  | None =>
      if existsb (fun k : string => str_eqb name k) object_prototype_keys
      then Inherited else Absent
  end.

Record LiquidTagMatch : Type := mkTag {
  tag : str;
  argument : str;
  fullMatch : str;
  lineNumber : nat;
  crossPostSafe : bool;
  hasEndTag : bool
}.

Record LiquidTagReport : Type := mkReport {
  tags : list LiquidTagMatch;
  hasCrossPostUnsafe : bool
}.

(** [/\{%\s*(\w+)\s*(.*?)\s*%\}([\s\S]*?)\{%\s*end\1\s*%\}/g] *)
Definition blockTagPattern : regex :=
  Seqs [ Lit is_char "{%"; Star true is_space; Group 1 (Plus true is_word);
         Star true is_space; Group 2 (Star false is_dot); Star true is_space;
         Lit is_char "%}"; Group 3 (Star false is_any);
         Lit is_char "{%"; Star true is_space; Lit is_char "end"; Backref 1;
         Star true is_space; Lit is_char "%}" ].

(** [/\{%\s*(\w+)\s*(.*?)\s*%\}/g] *)
Definition inlineTagPattern : regex :=
  Seqs [ Lit is_char "{%"; Star true is_space; Group 1 (Plus true is_word);
         Star true is_space; Group 2 (Star false is_dot); Star true is_space;
         Lit is_char "%}" ].

(** [/^```/] *)
Definition fencePattern : regex := Seq Bol (Lit is_char "```").

Definition is_fence_line (line : str) : bool := test fencePattern (trim line).

Record range : Type := mkRange { r_start : nat; r_end : nat }.

(** The variables of the loop that records the fenced regions.  The source
    initialises [fenceStart] to -1; it is only read while [insideCodeFence]
    holds, after it has been assigned an offset. *)
Record fence_state : Type := mkFence {
  insideCodeFence : bool;
  fenceStart : nat;
  charOffset : nat;
  codeFenceRanges : list range
}.

Definition fence_step (st : fence_state) (line : str) : fence_state :=
  let st1 :=
    if is_fence_line line then
      if negb (insideCodeFence st) then
        mkFence true (charOffset st) (charOffset st) (codeFenceRanges st)
      else
        mkFence false (fenceStart st) (charOffset st)
          (codeFenceRanges st
             ++ [mkRange (fenceStart st) (charOffset st + length line)])
    else st in
  mkFence (insideCodeFence st1) (fenceStart st1)
    (charOffset st1 + length line + 1) (codeFenceRanges st1).

(** The fenced regions of a text: the loop over [text.split('\n')] followed
    by the closing of a fence that is still open at the end.  The scanner
    and the stripper run the same code. *)
Definition close_fence (st : fence_state) (total : nat) : list range :=
  if insideCodeFence st
  then codeFenceRanges st ++ [mkRange (fenceStart st) total]
  else codeFenceRanges st.

Definition getCodeFenceRanges (text : str) : list range :=
  close_fence
    (fold_left fence_step (split_char LF text) (mkFence false 0 0 []))
    (length text).

Definition in_range (offset : nat) (r : range) : bool :=
  (r_start r <=? offset) && (offset <? r_end r).

Definition isInsideCodeFence (ranges : list range) (offset : nat) : bool :=
  existsb (in_range offset) ranges.

(** The number of line feeds among the first [n] characters. *)
Fixpoint count_newlines (s : str) (n : nat) : nat :=
  match n, s with
  | S n', c :: t => (if Ascii.eqb c LF then 1 else 0) + count_newlines t n'
  | _, _ => 0
  end.

Definition lineNumberForOffset (markdown : str) (offset : nat) : nat :=
  1 + count_newlines markdown offset.

(** [tagDef?.crossPostSafe ?? false] *)
Definition safety_of (name : str) : bool :=
  match tag_def name with
  | Found d => def_crossPostSafe d
  | Inherited => false
  | Absent => false
  end.

Definition block_tag (markdown : str) (h : hit) : LiquidTagMatch :=
  let tagName := toLowerCase (h_group 1 h) in
  mkTag tagName (trim (h_group 2 h)) (h_text h)
    (lineNumberForOffset markdown (h_index h)) (safety_of tagName) true.

Definition inline_tag (markdown : str) (h : hit) : LiquidTagMatch :=
  let tagName := toLowerCase (h_group 1 h) in
  mkTag tagName (trim (h_group 2 h)) (h_text h)
    (lineNumberForOffset markdown (h_index h)) (safety_of tagName) false.

(** One round of the loop over the block matches.  The state is the list
    [tags] and the recorded spans [blockTagPositions] (start and length; the
    source stores them as the text [start:length] and reads the two numbers
    back). *)
Definition block_step (markdown : str) (ranges : list range)
    (st : list LiquidTagMatch * list (nat * nat)) (h : hit)
    : list LiquidTagMatch * list (nat * nat) :=
  if isInsideCodeFence ranges (h_index h) then st
  else (fst st ++ [block_tag markdown h],
        snd st ++ [(h_index h, length (h_text h))]).

Definition in_block (offset : nat) (pos : nat * nat) : bool :=
  (fst pos <=? offset) && (offset <? fst pos + snd pos).

(** One round of the loop over the inline matches. *)
Definition inline_step (markdown : str) (ranges : list range)
    (blockTagPositions : list (nat * nat))
    (acc : list LiquidTagMatch) (h : hit) : list LiquidTagMatch :=
  if isInsideCodeFence ranges (h_index h) then acc
  else if startsWith "end" (toLowerCase (h_group 1 h)) then acc
  else if existsb (in_block (h_index h)) blockTagPositions then acc
  else acc ++ [inline_tag markdown h].

(** [tags.sort((a, b) => a.lineNumber - b.lineNumber)]; the sort of an array
    is stable. *)
Fixpoint insert_by_line (t : LiquidTagMatch) (l : list LiquidTagMatch)
    : list LiquidTagMatch :=
  match l with
  | [] => [t]
  | x :: r =>
      if lineNumber t <=? lineNumber x then t :: l
      else x :: insert_by_line t r
  end.

Definition sort_by_line (l : list LiquidTagMatch) : list LiquidTagMatch :=
  fold_right insert_by_line [] l.

(** The list [tags] as it stands before the final sort. *)
Definition detected_unsorted (markdown : str) : list LiquidTagMatch :=
  let ranges := getCodeFenceRanges markdown in
  let st :=
    fold_left (block_step markdown ranges)
      (exec_all blockTagPattern markdown) ([], []) in
  fold_left (inline_step markdown ranges (snd st))
    (exec_all inlineTagPattern markdown) (fst st).

Definition detectLiquidTags (markdown : str) : LiquidTagReport :=
  match markdown with
  | [] => mkReport [] false
  | _ :: _ =>
      let sorted := sort_by_line (detected_unsorted markdown) in
      mkReport sorted (existsb (fun t => negb (crossPostSafe t)) sorted)
  end.

(** [match.argument || ''] is [match.argument] for every string. *)
Definition convertLiquidTag (m : LiquidTagMatch) (content : option str)
    : Exc str :=
  match tag_def (tag m) with
  | Absent => Ok (argument m)
  | Found d => Ok (def_convert d (argument m) content)
  | Inherited => Throw    (* [tagDef.convert] is not a function *)
  end.

(** [a || b] on strings. *)
Definition or_str (a b : str) : str :=
  match a with [] => b | _ :: _ => a end.

(** The replacement function of the block pass; [result] is the string the
    pass runs over. *)
Definition block_replacer (result : str) (h : hit) : Exc str :=
  if isInsideCodeFence (getCodeFenceRanges result) (h_index h)
  then Ok (h_text h)
  else
    match tag_def (toLowerCase (h_group 1 h)) with
    | Absent => Ok (or_str (trim (h_group 3 h)) (trim (h_group 2 h)))
    | Found d =>
        Ok (def_convert d (trim (h_group 2 h)) (Some (trim (h_group 3 h))))
    | Inherited => Throw
    end.

(** The replacement function of the inline pass. *)
Definition inline_replacer (result : str) (h : hit) : Exc str :=
  let lowerTag := toLowerCase (h_group 1 h) in
  if startsWith "end" lowerTag then Ok (h_text h)
  else if isInsideCodeFence (getCodeFenceRanges result) (h_index h)
  then Ok (h_text h)
  else
    match tag_def lowerTag with
    | Absent => Ok (trim (h_group 2 h))
    | Found d => Ok (def_convert d (trim (h_group 2 h)) None)
    | Inherited => Throw
    end.

Definition stripLiquidTags (markdown : str) : Exc str :=
  match markdown with
  | [] => Ok []
  | _ :: _ =>
      result <- replace_fn blockTagPattern (block_replacer markdown) markdown ;;
      replace_fn inlineTagPattern (inline_replacer result) result
  end.

End LiquidTags.

(* ------------------------------------------------------------------ *)
(** ** Images and prose ([src/content/markdown.ts]) *)

Module Markdown.

Record ImageUrlInfo : Type := mkImage {
  url : str;
  lineNumber : nat;
  isAbsolute : bool
}.

(** [/!\[.*?\]\((.*?)\)/g] *)
Definition markdownImagePattern : regex :=
  Seqs [ Lit is_char "!["; Star false is_dot; Lit is_char "](";
         Group 1 (Star false is_dot); Lit is_char ")" ].

Definition is_quote (c : ascii) : bool :=
  ((code_unit c =? 34) || (code_unit c =? 39))%N.

(** [/<img[^>]+src=Q(.*?)Q[^>]*>/gi], where [Q] stands for the class of the
    double and the single quote. *)
Definition htmlImagePattern : regex :=
  Seqs [ Lit is_char_ci "<img"; Plus true (is_not ">"%char);
         Lit is_char_ci "src="; Chr is_quote; Group 1 (Star false is_dot);
         Chr is_quote; Star true (is_not ">"%char); Lit is_char_ci ">" ].

(** [/^https?:\/\//i] *)
Definition absoluteUrlPattern : regex :=
  Seqs [ Bol; Lit is_char_ci "http"; Opt (is_char_ci "s"%char);
         Lit is_char_ci "://" ].

Definition isAbsoluteUrl (u : str) : bool := test absoluteUrlPattern u.

(** The body of either [while] loop: push one reference. *)
Definition push_image (lineNumber : nat) (images : list ImageUrlInfo)
    (h : hit) : list ImageUrlInfo :=
  let u := trim (h_group 1 h) in
  images ++ [mkImage u lineNumber (isAbsoluteUrl u)].

(** One round of the loop over the lines; the state is [images] and
    [lineIndex]. *)
Definition image_line_step (st : list ImageUrlInfo * nat) (line : str)
    : list ImageUrlInfo * nat :=
  let lineNumber := snd st + 1 in
  let images1 :=
    fold_left (push_image lineNumber)
      (exec_all markdownImagePattern line) (fst st) in
  let images2 :=
    fold_left (push_image lineNumber)
      (exec_all htmlImagePattern line) images1 in
  (images2, snd st + 1).

Definition extractImageUrls (markdown : str) : list ImageUrlInfo :=
  match markdown with
  | [] => []
  | _ :: _ => fst (fold_left image_line_step (split_char LF markdown) ([], 0))
  end.

(** [/```[\s\S]*?```/g] *)
Definition codeBlockPattern : regex :=
  Seqs [ Lit is_char "```"; Star false is_any; Lit is_char "```" ].

(** [/`[^`]+`/g] *)
Definition inlineCodePattern : regex :=
  Seqs [ Chr (is_char "`"%char); Plus true (is_not "`"%char);
         Chr (is_char "`"%char) ].

(** [/!\[.*?\]\(.*?\)/g] *)
Definition imageSyntaxPattern : regex :=
  Seqs [ Lit is_char "!["; Star false is_dot; Lit is_char "](";
         Star false is_dot; Lit is_char ")" ].

(** The link pattern: an opening bracket, capture 1 holding the longest run
    of characters other than the closing bracket, the two characters [](],
    a lazy run [.*?] and a closing parenthesis. *)
Definition linkPattern : regex :=
  Seqs [ Chr (is_char "["%char); Group 1 (Star true (is_not "]"%char));
         Lit is_char "]("; Star false is_dot; Lit is_char ")" ].

(** [/<[^>]+>/g] *)
Definition htmlTagPattern : regex :=
  Seqs [ Chr (is_char "<"%char); Plus true (is_not ">"%char); Chr (is_char ">"%char) ].

(** The class [[#*_~>-]]. *)
Definition is_md_punct (c : ascii) : bool :=
  existsb (Ascii.eqb c) (list_ascii_of_string "#*_~>-").

Definition formattingPattern : regex := Chr is_md_punct.

(** [/\s+/] *)
Definition whitespacePattern : regex := Plus true is_space.

Definition delete (_ : hit) : str := [].

Definition strip_code_blocks : str -> str := replace_all codeBlockPattern delete.
Definition strip_inline_code : str -> str := replace_all inlineCodePattern delete.
Definition strip_images : str -> str := replace_all imageSyntaxPattern delete.
Definition links_to_text : str -> str := replace_all linkPattern (h_group 1).
Definition strip_html_tags : str -> str := replace_all htmlTagPattern delete.
Definition strip_formatting : str -> str := replace_all formattingPattern delete.

(** The value of [stripped] when the words are counted. *)
Definition stripped_text (markdown : str) : str :=
  strip_formatting
    (strip_html_tags
       (links_to_text
          (strip_images (strip_inline_code (strip_code_blocks markdown))))).

Definition words_of (stripped : str) : list str :=
  filter (fun word => 0 <? length word)
    (split_regex whitespacePattern (trim stripped)).

Definition isSubstantialContent (markdown : str) : bool :=
  match markdown with
  | [] => false
  | _ :: _ =>
      match trim markdown with
      | [] => false
      | _ :: _ => 10 <=? length (words_of (stripped_text markdown))
      end
  end.

End Markdown.

(* ------------------------------------------------------------------ *)
(** ** JavaScript values and objects

    The values front matter and explicit parameters hold.  Numbers are the
    integers; an object is its list of own properties in insertion order,
    with pairwise distinct keys.  Property names range over the field
    vocabulary of the pipeline, none of which is an index or a name found on
    [Object.prototype]. *)

#[warnings="-register-all"]
Inductive JsValue : Type :=
| JUndefined
| JNull
| JBool (b : bool)
| JNum (n : Z)
| JStr (s : str)
| JArr (items : list JsValue)
| JObj (fields : list (str * JsValue)).

Abbreviation obj := (list (str * JsValue)) (only parsing).

(** [String(v)]. *)
Fixpoint ToString (v : JsValue) : str :=
  match v with
  | JUndefined => "undefined"
  | JNull => "null"
  | JBool true => "true"
  | JBool false => "false"
  | JNum n => Z_to_str n
  | JStr s => s
  | JArr items =>
      (* [Array.prototype.join]: [null] and [undefined] print as nothing *)
      join ","
        (map (fun x => match x with
                       | JUndefined | JNull => []
                       | _ => ToString x
                       end) items)
  | JObj _ => "[object Object]"
  end.

(** [key in o] for an own property. *)
Fixpoint has_key (o : obj) (key : str) : bool :=
  match o with
  | [] => false
  | (k, _) :: t => str_eqb key k || has_key t key
  end.

(** [o[key]]; a missing property reads as [undefined]. *)
Fixpoint get (o : obj) (key : str) : JsValue :=
  match o with
  | [] => JUndefined
  | (k, v) :: t => if str_eqb key k then v else get t key
  end.

(** [o[key] = v]: an existing property keeps its place. *)
Fixpoint set (o : obj) (key : str) (v : JsValue) : obj :=
  match o with
  | [] => [(key, v)]
  | (k, w) :: t => if str_eqb key k then (k, v) :: t else (k, w) :: set t key v
  end.

Definition is_undefined (v : JsValue) : bool :=
  match v with JUndefined => true | _ => false end.

(** [a ?? b] *)
Definition nullish_or (a b : JsValue) : JsValue :=
  match a with
  | JUndefined | JNull => b
  | _ => a
  end.

Definition is_nullish (v : JsValue) : bool :=
  match v with JUndefined | JNull => true | _ => false end.

(** [Object.keys(v).length].  [Object.keys] throws a [TypeError] on [null]
    and [undefined]; a string has one key per character, an array one per
    item, a number and a boolean none. *)
Definition keys_length (v : JsValue) : Exc nat :=
  match v with
  | JUndefined | JNull => Throw
  | JBool _ | JNum _ => Ok 0
  | JStr s => Ok (length s)
  | JArr items => Ok (length items)
  | JObj fields => Ok (length fields)
  end.

(** [key in v]: a [TypeError] unless [v] is an object.  The names of the
    field vocabulary are neither indices nor [length], so an array has
    none of them. *)
Definition has_property (v : JsValue) (key : str) : Exc bool :=
  match v with
  | JObj fields => Ok (has_key fields key)
  | JArr _ => Ok false
  | _ => Throw
  end.

(** [v[key]]: a [TypeError] on [null] and [undefined]; a string, a number,
    a boolean and an array have no property named in the field
    vocabulary. *)
Definition property (v : JsValue) (key : str) : Exc JsValue :=
  match v with
  | JObj fields => Ok (get fields key)
  | JUndefined | JNull => Throw
  | _ => Ok JUndefined
  end.

(* ------------------------------------------------------------------ *)
(** ** Front matter ([src/content/front-matter.ts]) *)

Module FrontMatter.

(** [extractedValues] is declared a [Record<string, unknown>] by a cast;
    it holds whatever the metadata reader returned. *)
Record FrontMatterResult : Type := mkFM {
  cleanBody : str;
  extractedValues : JsValue;
  hasFrontMatter : bool
}.

Record Conflict : Type := mkConflict {
  field : str;
  frontMatterValue : JsValue;
  jsonValue : JsValue
}.

Record MergeResult : Type := mkMerge {
  body : str;
  params : obj;
  conflicts : list Conflict
}.

(** The file object the [gray-matter] package returns: the text after the
    metadata block and the metadata as the block reads: a mapping for a
    block of key/value lines, but also a string, a list or another value
    when the block is such a document. *)
Record MatterFile : Type := mkMatter {
  content : str;
  data : JsValue
}.

Definition KNOWN_FIELDS : list string :=
  [ "title"; "published"; "description"; "tags"; "series"; "canonical_url";
    "cover_image"; "main_image" ].

Definition normalizeTags (v : JsValue) : str :=
  match v with
  | JArr items => join ", " (map ToString items)
  | JStr s => s
  | JUndefined | JNull => []          (* [String(tags ?? '')] *)
  | _ => ToString v
  end.

(** [!body || !body.trim()] *)
Definition is_blank (s : str) : bool :=
  match s with
  | [] => true
  | _ :: _ => match trim s with [] => true | _ :: _ => false end
  end.

Section WithMatter.

(** The [matter] function of the [gray-matter] package, an external
    dependency: it returns a file object or throws. *)
Variable matter : str -> Exc MatterFile.

Definition parseFrontMatter (body : str) : Exc FrontMatterResult :=
  if is_blank body then Ok (mkFM body (JObj []) false)
  else
    try_catch
      (parsed <- matter body ;;
       n <- keys_length (data parsed) ;;
       let hasFM := 0 <? n in
       Ok (mkFM (content parsed) (data parsed) hasFM))
      (Ok (mkFM body (JObj []) false)).

(** One round of the loop over [KNOWN_FIELDS]. *)
Definition seed_step (extracted : JsValue) (mergedParams : Exc obj)
    (f : string) : Exc obj :=
  m <- mergedParams ;;
  present <- has_property extracted f ;;
  if present then
    v <- property extracted f ;;
    if str_eqb f "tags" then Ok (set m f (JStr (normalizeTags v)))
    else if str_eqb f "cover_image" then Ok (set m "main_image" v)
    else Ok (set m f v)
  else Ok m.

(** One round of the loop over [Object.entries(jsonParams)]; the state is
    [mergedParams] and [conflicts]. *)
Definition override_step (extracted : JsValue)
    (state : Exc (obj * list Conflict)) (entry : str * JsValue)
    : Exc (obj * list Conflict) :=
  st <- state ;;
  let '(key, value) := entry in
  if is_undefined value then Ok st
  else
    let frontMatterKey : str :=
      if str_eqb key "main_image" then "cover_image" else key in
    aliased <- has_property extracted frontMatterKey ;;
    fmValue <-
      (if aliased then property extracted frontMatterKey
       else
         own <- has_property extracted key ;;
         if own then property extracted key else Ok JUndefined) ;;
    let conflicts1 :=
      if negb (is_undefined fmValue) then
        let normalizedFmValue :=
          if str_eqb key "tags" then JStr (normalizeTags fmValue) else fmValue in
        let normalizedJsonValue :=
          if str_eqb key "tags" then JStr (normalizeTags value) else value in
        if negb (str_eqb (ToString normalizedFmValue)
                   (ToString normalizedJsonValue))
        then snd st ++ [mkConflict key normalizedFmValue normalizedJsonValue]
        else snd st
      else snd st in
    Ok (set (fst st) key value, conflicts1).

Definition mergeAndNormalize (body : option str) (jsonParams : obj)
    : Exc MergeResult :=
  match body with
  | None | Some [] => Ok (mkMerge [] jsonParams [])
  | Some b =>
      fm <- parseFrontMatter b ;;
      if negb (hasFrontMatter fm)
      then Ok (mkMerge (cleanBody fm) jsonParams [])
      else
        seeded <-
          fold_left (seed_step (extractedValues fm)) KNOWN_FIELDS (Ok []) ;;
        st <-
          fold_left (override_step (extractedValues fm)) jsonParams
            (Ok (seeded, [])) ;;
        Ok (mkMerge (cleanBody fm) (fst st) (snd st))
  end.

End WithMatter.

End FrontMatter.

(* ------------------------------------------------------------------ *)
(** ** Validation ([src/content/validator.ts]) *)

Module Validator.

Import FrontMatter.

Inductive ValidationSeverity : Type := error | warning | info.

Inductive LinusErrorCode : Type :=
| auth_failed | rate_limited | not_found | validation_failed
| invalid_request | forbidden | front_matter_conflict | liquid_tag_detected
| image_not_absolute | unpublish_only | api_error.

Record ValidationIssue : Type := mkIssue {
  severity : ValidationSeverity;
  code : LinusErrorCode;
  message : str;
  line : option nat
}.

Record ValidationResult : Type := mkResult {
  valid : bool;
  issues : list ValidationIssue
}.

(** [string | string[]] *)
Inductive TagsParam : Type :=
| TagsString (s : str)
| TagsArray (l : list str).

(** [ValidateArticleParams]; [None] is an absent ([undefined]) property. *)
Record ValidateArticleParams : Type := mkParams {
  title : option str;
  body_markdown : option str;
  tags : option TagsParam;
  main_image : option str;
  canonical_url : option str;
  description : option str;
  published : option bool
}.

(** Truthiness of an optional string: present and not empty. *)
Definition truthy (s : option str) : bool :=
  match s with
  | Some (_ :: _) => true
  | _ => false
  end.

(** Truthiness of [params.tags]: an array is always truthy. *)
Definition truthy_tags (t : option TagsParam) : bool :=
  match t with
  | Some (TagsString (_ :: _)) => true
  | Some (TagsArray _) => true
  | _ => false
  end.

Definition normalizeTagList (t : TagsParam) : list str :=
  match t with
  | TagsArray l => map (fun x => toLowerCase (trim x)) l
  | TagsString s =>
      filter (fun x => 0 <? length x)
        (map (fun x => toLowerCase (trim x)) (split_char "," s))
  end.

Definition is_tag_char (c : ascii) : bool :=
  is_lower c || is_digit c || (code_unit c =? 95)%N.

(** [/^[a-z0-9_]+$/] *)
Definition tagPattern : regex := Seqs [ Bol; Plus true is_tag_char; Eol ].

Definition is_error (i : ValidationIssue) : bool :=
  match severity i with error => true | _ => false end.

(** Title validation. *)
Definition check_presence (p : ValidateArticleParams)
    (acc : list ValidationIssue) : list ValidationIssue :=
  if negb (truthy (title p)) && negb (truthy (body_markdown p))
  then acc ++ [mkIssue error validation_failed
                 "Article must have a title or body_markdown." None]
  else acc.

Definition push_invalid_tag (acc : list ValidationIssue) (t : str)
    : list ValidationIssue :=
  if negb (test tagPattern t)
  then acc ++ [mkIssue error validation_failed
                 ("Invalid tag " ++ [DQ] ++ t ++ [DQ] ++
                  ". Tags must be lowercase alphanumeric with underscores only.")
                 None]
  else acc.

(** Tag validation. *)
Definition check_tags (p : ValidateArticleParams)
    (acc : list ValidationIssue) : list ValidationIssue :=
  match tags p with
  | Some t =>
      if truthy_tags (tags p) then
        let tagList := normalizeTagList t in
        let acc1 :=
          if 4 <? length tagList
          then acc ++ [mkIssue error validation_failed
                         ("Too many tags (" ++ nat_to_str (length tagList)
                          ++ "). Maximum is 4.") None]
          else acc in
        fold_left push_invalid_tag tagList acc1
      else acc
  | None => acc
  end.

(** Image validation, the cover image. *)
Definition check_main_image (p : ValidateArticleParams)
    (acc : list ValidationIssue) : list ValidationIssue :=
  match main_image p with
  | Some u =>
      if truthy (main_image p) && negb (Markdown.isAbsoluteUrl u)
      then acc ++ [mkIssue error image_not_absolute
                     ("Cover image URL must be absolute: " ++ [DQ] ++ u ++ [DQ])
                     None]
      else acc
  | None => acc
  end.

Definition push_relative_image (acc : list ValidationIssue)
    (image : Markdown.ImageUrlInfo) : list ValidationIssue :=
  if negb (Markdown.isAbsolute image)
  then acc ++ [mkIssue error image_not_absolute
                 ("Image on line " ++ nat_to_str (Markdown.lineNumber image)
                  ++ " uses non-absolute URL: " ++ [DQ] ++ Markdown.url image
                  ++ [DQ])
                 (Some (Markdown.lineNumber image))]
  else acc.

(** Image validation, the images of the body. *)
Definition check_body_images (p : ValidateArticleParams)
    (acc : list ValidationIssue) : list ValidationIssue :=
  match body_markdown p with
  | Some b =>
      if truthy (body_markdown p)
      then fold_left push_relative_image (Markdown.extractImageUrls b) acc
      else acc
  | None => acc
  end.

Definition tags_value (t : TagsParam) : JsValue :=
  match t with
  | TagsString s => JStr s
  | TagsArray l => JArr (map JStr l)
  end.

(** The object [jsonFields], in the order its properties are assigned. *)
Definition jsonFields (p : ValidateArticleParams) : list (str * JsValue) :=
  (match title p with Some t => [("title" : str, JStr t)] | None => [] end)
  ++ (match tags p with Some t => [("tags" : str, tags_value t)] | None => [] end)
  ++ (match description p with
      | Some d => [("description" : str, JStr d)] | None => [] end)
  ++ (match main_image p with
      | Some m => [("main_image" : str, JStr m)] | None => [] end).

(** One round of the loop over [Object.entries(jsonFields)]. *)
Definition push_conflict (extracted : JsValue)
    (issues : Exc (list ValidationIssue)) (entry : str * JsValue)
    : Exc (list ValidationIssue) :=
  acc <- issues ;;
  let '(fld, jsonV) := entry in
  let frontMatterKey : str :=
    if str_eqb fld "main_image" then "cover_image" else fld in
  aliased <- property extracted frontMatterKey ;;
  fmValue <-
    (if is_nullish aliased then property extracted fld else Ok aliased) ;;
  if negb (is_undefined fmValue)
     && negb (str_eqb (ToString fmValue) (ToString jsonV))
  then Ok (acc ++ [mkIssue warning front_matter_conflict
                     ("Front matter " ++ [DQ] ++ frontMatterKey ++ [DQ]
                      ++ " value " ++ [DQ] ++ ToString fmValue ++ [DQ]
                      ++ " conflicts with parameter " ++ [DQ]
                      ++ ToString jsonV ++ [DQ]
                      ++ ". Parameter value will be used.")
                     None])
  else Ok acc.

Definition push_liquid_tag (acc : list ValidationIssue)
    (t : LiquidTags.LiquidTagMatch) : list ValidationIssue :=
  acc ++ [mkIssue info liquid_tag_detected
            ("Liquid tag {% " ++ LiquidTags.tag t ++ " "
             ++ LiquidTags.argument t ++ " %} on line "
             ++ nat_to_str (LiquidTags.lineNumber t)
             ++ (if LiquidTags.crossPostSafe t then []
                 else list_ascii_of_string " (not cross-post safe)"))
            (Some (LiquidTags.lineNumber t))].

(** Liquid tag detection. *)
Definition check_liquid_tags (p : ValidateArticleParams)
    (acc : list ValidationIssue) : list ValidationIssue :=
  match body_markdown p with
  | Some b =>
      if truthy (body_markdown p)
      then fold_left push_liquid_tag
             (LiquidTags.tags (LiquidTags.detectLiquidTags b)) acc
      else acc
  | None => acc
  end.

(** Content quality. *)
Definition check_content_quality (p : ValidateArticleParams)
    (acc : list ValidationIssue) : list ValidationIssue :=
  match body_markdown p with
  | Some b =>
      if truthy (body_markdown p) && negb (Markdown.isSubstantialContent b)
      then acc ++ [mkIssue warning validation_failed
                     "Article body appears to lack substantial content." None]
      else acc
  | None => acc
  end.

Section WithMatter.

Variable matter : str -> Exc MatterFile.

(** Front matter conflict detection. *)
Definition check_front_matter (p : ValidateArticleParams)
    (acc : list ValidationIssue) : Exc (list ValidationIssue) :=
  match body_markdown p with
  | Some b =>
      if truthy (body_markdown p) then
        fm <- parseFrontMatter matter b ;;
        if hasFrontMatter fm
        then fold_left (push_conflict (extractedValues fm))
               (jsonFields p) (Ok acc)
        else Ok acc
      else Ok acc
  | None => Ok acc
  end.

Definition validateArticle (p : ValidateArticleParams)
    : Exc ValidationResult :=
  let issues0 := check_presence p [] in
  let issues1 := check_tags p issues0 in
  let issues2 := check_main_image p issues1 in
  let issues3 := check_body_images p issues2 in
  issues4 <- check_front_matter p issues3 ;;
  let issues5 := check_liquid_tags p issues4 in
  let issues6 := check_content_quality p issues5 in
  let hasErrors := existsb is_error issues6 in
  Ok (mkResult (negb hasErrors) issues6).

End WithMatter.

(** The issues that report a front-matter conflict. *)
Definition is_conflict (i : ValidationIssue) : bool :=
  match code i with front_matter_conflict => true | _ => false end.

(** The parameters [p] with another body. *)
Definition with_body (p : ValidateArticleParams) (b : option str)
    : ValidateArticleParams :=
  mkParams (title p) b (tags p) (main_image p) (canonical_url p)
    (description p) (published p).

(** The issue of the title check. *)
Definition presence_error : ValidationIssue :=
  mkIssue error validation_failed
    "Article must have a title or body_markdown." None.

(** The issues of the checks that do not read the body. *)
Definition base_issues (p : ValidateArticleParams) : list ValidationIssue :=
  check_main_image p (check_tags p (check_presence p [])).

End Validator.

(* ------------------------------------------------------------------ *)
(** ** A reference reading of the metadata block *)

Module GrayMatter.

Import FrontMatter.

(** The lines up to the closing delimiter line, and the lines after it. *)
Fixpoint take_block (lines : list str) : option (list str * list str) :=
  match lines with
  | [] => None
  | l :: t =>
      if str_eqb l "---" then Some ([], t)
      else match take_block t with
           | Some (b, a) => Some (l :: b, a)
           | None => None
           end
  end.

(** The text before and after the first colon of a line. *)
Fixpoint cut_colon (l : str) : option (str * str) :=
  match l with
  | [] => None
  | c :: t =>
      if Ascii.eqb c ":" then Some ([], t)
      else match cut_colon t with
           | Some (k, v) => Some (c :: k, v)
           | None => None
           end
  end.

(** The text of a list item line, [- item] after its indentation. *)
Definition list_item (l : str) : option str :=
  match trimStart l with
  | d :: sp :: t =>
      if Ascii.eqb d "-" && Ascii.eqb sp " " then Some (trim t) else None
  | _ => None
  end.

(** A plain scalar: [true] and [false] are the booleans, other text is a
    string. *)
Definition scalar (w : str) : JsValue :=
  if str_eqb w "true" then JBool true
  else if str_eqb w "false" then JBool false
  else JStr w.

(** The state while the block is read: the mapping so far and the key whose
    list is being filled. *)
Definition block_step (st : option (list (str * JsValue) * option str))
    (l : str) : option (list (str * JsValue) * option str) :=
  match st with
  | None => None
  | Some (o, cur) =>
      match list_item l, cur with
      | Some item, Some k =>
          match get o k with
          | JArr items => Some (set o k (JArr (items ++ [JStr item])), cur)
          | _ => Some (set o k (JArr [JStr item]), cur)
          end
      | Some _, None => None
      | None, _ =>
          match cut_colon l with
          | Some (k, v) =>
              if forallb is_word k && (0 <? length k) then
                match trim v with
                | [] => Some (set o k JNull, Some k)
                | w => Some (set o k (scalar w), None)
                end
              else None
          | None => None
          end
      end
  end.

(** A block of key/value lines is a mapping; a block that is one line of
    plain text, neither a key/value line nor a list item, is that
    scalar. *)
Definition parse_block (block : list str) : option JsValue :=
  match block with
  | [l] =>
      match list_item l, cut_colon l, trim l with
      | None, None, c :: w => Some (scalar (c :: w))
      | _, _, _ =>
          match fold_left block_step block (Some ([], None)) with
          | Some (o, _) => Some (JObj o)
          | None => None
          end
      end
  | _ =>
      match fold_left block_step block (Some ([], None)) with
      | Some (o, _) => Some (JObj o)
      | None => None
      end
  end.

(** Modelled from the spec: the [gray-matter] package, whose [matter]
    function the parser calls, is an external dependency and not part of
    the sources.  Section 4.1 of the specification describes the block it
    reads: the document opens with a line consisting solely of [---], a run
    of key/value lines follows, and another [---] line ends it; a key maps
    to a scalar or to an indented list of strings; the clean body is
    everything after the closing delimiter.  A document of another shape
    has no metadata.  The package reads the block as a YAML document, for
    which one line of plain text is a scalar and not a mapping; a block
    that is neither is unparseable here, and the function throws.  The
    theorems below hold for every [matter]; this reading only instantiates
    them. *)
Definition matter (text : str) : Exc MatterFile :=
  match split_char LF text with
  | first :: rest =>
      if str_eqb first "---" then
        match take_block rest with
        | Some (block, after) =>
            match parse_block block with
            | Some v => Ok (mkMatter (join [LF] after) v)
            | None => Throw
            end
        | None => Ok (mkMatter text (JObj []))
        end
      else Ok (mkMatter text (JObj []))
  | [] => Ok (mkMatter text (JObj []))
  end.

End GrayMatter.

(* ------------------------------------------------------------------ *)
(** ** Reference definitions

    Direct characterisations, written from the specification's wording, that
    the theorems compare the code with. *)

Module Spec.

(** The trimmed content of the line begins with three backticks. *)
Definition toggles_fence (l : str) : bool := startsWith "```" (trim l).

(** The fenced regions, line by line.  A line whose trimmed content begins
    with three backticks toggles the state [inside].  A region runs from the
    first character of the line that opens it through the last character of
    the line that closes it, or to the end of the document.  [o] is an
    offset into the text made of [lines]. *)
Fixpoint fenced (lines : list str) (inside : bool) (o : nat) : bool :=
  match lines with
  | [] => false
  | l :: rest =>
      let toggles := toggles_fence l in
      if o <? length l then inside || toggles
      else if o =? length l then
        (* the line feed that ends the line *)
        match rest with
        | [] => false
        | _ :: _ => xorb inside toggles
        end
      else fenced rest (xorb inside toggles) (o - length l - 1)
  end.

(** The length of the text made of [lines], with a line feed counted after
    every line. *)
Definition span (lines : list str) : nat :=
  fold_right (fun l n => length l + 1 + n) 0 lines.

Definition in_fenced_region (markdown : str) (offset : nat) : bool :=
  fenced (split_char LF markdown) false offset.

(** The reference recorded for one occurrence on line [n]. *)
Definition reference (n : nat) (h : hit) : Markdown.ImageUrlInfo :=
  Markdown.mkImage (trim (h_group 1 h)) n
    (Markdown.isAbsoluteUrl (trim (h_group 1 h))).

(** The references of a document, line by line from line [n] on: on each
    line the markdown occurrences in the order found, then the HTML
    occurrences in the order found. *)
Fixpoint references_from (n : nat) (lines : list str)
    : list Markdown.ImageUrlInfo :=
  match lines with
  | [] => []
  | l :: rest =>
      map (reference n) (exec_all Markdown.markdownImagePattern l)
      ++ map (reference n) (exec_all Markdown.htmlImagePattern l)
      ++ references_from (S n) rest
  end.

(** An ASCII capital as its small letter. *)
Definition fold_case (c : ascii) : ascii :=
  if is_upper c then ascii_of_N (code_unit c + 32) else c.

(** The URL begins with [http://] or [https://], whatever the case of the
    letters. *)
Definition has_http_scheme (u : str) : bool :=
  startsWith "http://" (map fold_case u)
  || startsWith "https://" (map fold_case u).

(** The number of maximal runs of non-whitespace characters; [in_word] tells
    whether the previous character belongs to a run. *)
Fixpoint count_words_from (in_word : bool) (s : str) : nat :=
  match s with
  | [] => 0
  | c :: t =>
      if is_space c then count_words_from false t
      else (if in_word then 0 else 1) + count_words_from true t
  end.

Definition count_words (s : str) : nat := count_words_from false s.

(** The text without the characters [# * _ ~ > -]. *)
Definition without_punctuation (s : str) : str :=
  filter (fun c => negb (Markdown.is_md_punct c)) s.

End Spec.

(* ------------------------------------------------------------------ *)
(** ** The markdown constructs, read from the text

    What the specification calls a fenced code block, an inline code span,
    a markdown image, a markdown link, an HTML tag and an HTML image
    element, each written as a reading of the characters at the head of a
    text, and the scan that collects the occurrences of one construct from
    left to right.  Nothing here is a pattern or runs the matcher. *)

Module Reference.

(** What a construct finds at the head of a text: nothing, or one
    occurrence, given as the number of characters it takes and what is kept
    of it. *)
Definition finder (A : Type) : Type := str -> option (nat * A).

(** The occurrences of a construct in a text, each with the offset at which
    it starts: the text is read from left to right, and the reading goes on
    after the last character of an occurrence.  [skip] counts the
    characters of the current occurrence still to be passed. *)
Fixpoint occurrences_from {A : Type} (find : finder A) (s : str)
    (offset skip : nat) : list (nat * A) :=
  match s with
  | [] => []
  | _ :: t =>
      match skip with
      | S k => occurrences_from find t (S offset) k
      | O =>
          match find s with
          | Some (n, a) => (offset, a) :: occurrences_from find t (S offset) (n - 1)
          | None => occurrences_from find t (S offset) 0
          end
      end
  end.

Definition located {A : Type} (find : finder A) (s : str) : list (nat * A) :=
  occurrences_from find s 0 0.

Definition occurrences {A : Type} (find : finder A) (s : str) : list A :=
  map snd (located find s).

(** The text with every occurrence of a construct replaced by [f] of what
    is kept of it; the other characters stay. *)
Fixpoint rewritten_from {A : Type} (find : finder A) (f : A -> str)
    (s : str) (skip : nat) : str :=
  match s with
  | [] => []
  | c :: t =>
      match skip with
      | S k => rewritten_from find f t k
      | O =>
          match find s with
          | Some (n, a) => f a ++ rewritten_from find f t (n - 1)
          | None => c :: rewritten_from find f t 0
          end
      end
  end.

Definition rewritten {A : Type} (find : finder A) (f : A -> str) (s : str)
    : str :=
  rewritten_from find f s 0.

Definition removed {A : Type} (find : finder A) (s : str) : str :=
  rewritten find (fun _ => []) s.

(** The offset of the first character of [s] that satisfies [p]. *)
Fixpoint index_where (p : ascii -> bool) (s : str) : option nat :=
  match s with
  | [] => None
  | c :: t => if p c then Some 0 else option_map S (index_where p t)
  end.

(** The offset of the first occurrence of the text [w] in [s]. *)
Fixpoint index_of (w s : str) : option nat :=
  if startsWith w s then Some 0
  else
    match s with
    | [] => None
    | _ :: t => option_map S (index_of w t)
    end.

(** The number of characters of [s] before the first [a], all of them if
    there is none. *)
Definition before (a : ascii) (s : str) : nat :=
  run_len (fun c => negb (Ascii.eqb a c)) s.

(** The text up to its first line terminator. *)
Fixpoint line_of (s : str) : str :=
  match s with
  | [] => []
  | c :: t => if is_line_terminator c then [] else c :: line_of t
  end.

(** A fenced code block: three backticks, and everything up to and
    including the next three backticks. *)
Definition code_block : finder unit := fun s =>
  if startsWith "```" s then
    match index_of "```" (skipn 3 s) with
    | Some k => Some (k + 6, tt)
    | None => None
    end
  else None.

(** A span from the character [opener] to the next character [closer],
    with at least one character between the two. *)
Definition enclosed (opener closer : ascii) : finder unit := fun s =>
  match s with
  | [] => None
  | c :: t =>
      if Ascii.eqb c opener then
        match index_where (Ascii.eqb closer) t with
        | Some (S n) => Some (n + 3, tt)
        | _ => None
        end
      else None
  end.

(** An inline code span: from a backtick to the next one. *)
Definition code_span : finder unit := enclosed "`" "`".

(** An HTML tag: from [<] to the next [>]. *)
Definition html_tag : finder unit := enclosed "<" ">".

(** A markdown image [![alt](url)] on one line: the alternative text ends
    at the first [](] of the line, the URL at the first closing parenthesis
    after it.  What is kept is the URL. *)
Definition markdown_image : finder str := fun s =>
  if startsWith "![" s then
    let line := line_of (skipn 2 s) in
    match index_of "](" line with
    | Some i =>
        let target := skipn (i + 2) line in
        match index_where (Ascii.eqb ")") target with
        | Some j => Some (i + j + 5, firstn j target)
        | None => None
        end
    | None => None
    end
  else None.

(** A markdown link [[label](url)]: the label runs to the first closing
    bracket, over line ends if need be, and [(] follows the bracket; the
    URL ends at the first closing parenthesis of its line.  What is kept is
    the label. *)
Definition markdown_link : finder str := fun s =>
  match s with
  | [] => None
  | c :: t =>
      if Ascii.eqb c "[" then
        match index_where (Ascii.eqb "]") t with
        | Some n =>
            if startsWith "](" (skipn n t) then
              match
                index_where (Ascii.eqb ")") (line_of (skipn (n + 2) t))
              with
              | Some j => Some (n + j + 4, firstn n t)
              | None => None
              end
            else None
        | None => None
        end
      else None
  end.

(** The double or the single quote. *)
Definition is_quote_mark (c : ascii) : bool :=
  Ascii.eqb c DQ || Ascii.eqb c "'".

(** A [src] attribute at the head of [s]: the letters [src] in either
    case, the equals sign, a quote mark, the value up to the first quote
    mark of the line, of either kind, and then whatever comes up to and
    including the next [>].  The number of characters and the value. *)
Definition src_attribute (s : str) : option (nat * str) :=
  if startsWith "src=" (map Spec.fold_case s) then
    match skipn 4 s with
    | [] => None
    | q :: v =>
        if is_quote_mark q then
          match index_where is_quote_mark (line_of v) with
          | Some j =>
              match index_where (Ascii.eqb ">") (skipn (j + 1) v) with
              | Some m => Some (j + m + 7, firstn j v)
              | None => None
              end
          | None => None
          end
        else None
    end
  else None.

(** The last of the offsets 0 to [n] of [s] at which a [src] attribute is
    read; the number of characters counts from the head of [s]. *)
Fixpoint last_src (s : str) (n : nat) : option (nat * str) :=
  match
    match n, s with
    | S n', _ :: t =>
        match last_src t n' with
        | Some (len, u) => Some (S len, u)
        | None => None
        end
    | _, _ => None
    end
  with
  | Some found => Some found
  | None => src_attribute s
  end.

(** An HTML image element: [<img] in either case of the letters, at least
    one further character, and the last [src] attribute that begins before
    the first [>] after [<img].  What is kept is the value of the
    attribute. *)
Definition html_image : finder str := fun s =>
  if startsWith "<img" (map Spec.fold_case s) then
    match skipn 4 s with
    | [] => None
    | c :: t =>
        if Ascii.eqb c ">" then None
        else
          match last_src t (before ">" t) with
          | Some (len, u) => Some (len + 5, u)
          | None => None
          end
    end
  else None.

(** The reference recorded for the URL [u] found on line [n]. *)
Definition image_reference (n : nat) (u : str) : Markdown.ImageUrlInfo :=
  Markdown.mkImage (trim u) n (Spec.has_http_scheme (trim u)).

(** The references of a document, line by line from line [n] on: on each
    line the markdown images from left to right, then the HTML images from
    left to right. *)
Fixpoint image_references (n : nat) (lines : list str)
    : list Markdown.ImageUrlInfo :=
  match lines with
  | [] => []
  | l :: rest =>
      map (image_reference n) (occurrences markdown_image l)
      ++ map (image_reference n) (occurrences html_image l)
      ++ image_references (S n) rest
  end.

(** Occurrences in the order of their offsets; of two at one offset the
    earlier in the list stays first. *)
Fixpoint insert_by_offset {A : Type} (x : nat * A) (l : list (nat * A))
    : list (nat * A) :=
  match l with
  | [] => [x]
  | y :: r =>
      if fst x <=? fst y then x :: l else y :: insert_by_offset x r
  end.

Definition by_offset {A : Type} (l : list (nat * A)) : list (nat * A) :=
  fold_right insert_by_offset [] l.

(** The references of a document when the images of a line, of both kinds,
    are taken in the order in which they stand on the line. *)
Fixpoint image_references_as_read (n : nat) (lines : list str)
    : list Markdown.ImageUrlInfo :=
  match lines with
  | [] => []
  | l :: rest =>
      map (fun found => image_reference n (snd found))
        (by_offset (located markdown_image l ++ located html_image l))
      ++ image_references_as_read (S n) rest
  end.

(** One of the characters [# * _ ~ > -]. *)
Definition is_punctuation (c : ascii) : bool :=
  existsb (Ascii.eqb c) ["#"; "*"; "_"; "~"; ">"; "-"]%char.

(** The prose of a document: the fenced code blocks, then the inline code
    spans, then the markdown images are removed, then every markdown link
    is replaced by its label, then the HTML tags and then the punctuation
    characters are removed. *)
Definition prose (markdown : str) : str :=
  filter (fun c => negb (is_punctuation c))
    (removed html_tag
       (rewritten markdown_link (fun label => label)
          (removed markdown_image
             (removed code_span (removed code_block markdown))))).

(** A document is substantial when it is not blank and its prose has at
    least ten words. *)
Definition substantial (markdown : str) : bool :=
  if forallb is_space markdown then false
  else 10 <=? Spec.count_words (prose markdown).

End Reference.

(** The pattern [r] matches at the head of a text exactly where [find]
    reads an occurrence, over the same number of characters, and [keep] of
    the match is what [find] keeps. *)
Definition reads {A : Type} (r : regex) (find : Reference.finder A)
    (keep : hit -> A) : Prop :=
  forall rest pos,
    match find rest with
    | Some (n, a) =>
        1 <= n
        /\ exists h,
             match_at r rest pos = Some h
             /\ length (h_text h) = n /\ keep h = a
    | None => match_at r rest pos = None
    end.


(** The part of [htmlImagePattern] that follows the greedy run
    [[^>]+]. *)
Definition attributePattern : regex :=
  Seqs [ Lit is_char_ci "src="; Chr Markdown.is_quote;
         Group 1 (Star false is_dot); Chr Markdown.is_quote;
         Star true (is_not ">"%char); Lit is_char_ci ">" ].


(* ------------------------------------------------------------------ *)
(** ** Vocabulary of the further properties *)

(** The text [w] occurs somewhere in [s]. *)
Fixpoint occurs (w s : str) : bool :=
  startsWith w s
  || match s with
     | [] => false
     | _ :: t => occurs w t
     end.

(** The character [a] does not occur in [s]. *)
Definition char_free (a : ascii) (s : str) : bool :=
  forallb (fun c => negb (Ascii.eqb a c)) s.

(** A pattern that can only match where the text [w] starts. *)
Definition needs_prefix (r : regex) (w : str) : Prop :=
  forall rest pos, startsWith w rest = false -> match_at r rest pos = None.

(** What the loop that records the fenced regions keeps true of its
    variables: the recorded regions are ordered, apart and not empty, they
    end before the line about to be read, and an open fence starts after
    all of them. *)
Definition fence_inv (st : LiquidTags.fence_state) : Prop :=
  StronglySorted (fun a b => LiquidTags.r_end a < LiquidTags.r_start b)
    (LiquidTags.codeFenceRanges st)
  /\ Forall (fun r => LiquidTags.r_start r < LiquidTags.r_end r)
       (LiquidTags.codeFenceRanges st)
  /\ Forall (fun r => LiquidTags.r_end r < LiquidTags.charOffset st)
       (LiquidTags.codeFenceRanges st)
  /\ (LiquidTags.insideCodeFence st = true ->
      LiquidTags.fenceStart st + 2 <= LiquidTags.charOffset st
      /\ Forall (fun r => LiquidTags.r_end r < LiquidTags.fenceStart st)
           (LiquidTags.codeFenceRanges st)).

(** The names, in lower case, that [TAG_DEFS] inherits from
    [Object.prototype]. *)
Definition inherited_lower_names : list str :=
  [ list_ascii_of_string "constructor"; list_ascii_of_string "__proto__" ].

(** The indices of the capture groups of a pattern. *)
Fixpoint group_ids (r : regex) : list nat :=
  match r with
  | Seq r1 r2 => group_ids r1 ++ group_ids r2
  | Group n r1 => n :: group_ids r1
  | Eps | Chr _ | Star _ _ | Opt _ | Backref _ | Bol | Eol => []
  end.

(** A pattern without groups or back references whose character classes
    all lie within the class [p]. *)
Fixpoint class_only (p : ascii -> bool) (r : regex) : Prop :=
  match r with
  | Chr q | Star _ q | Opt q => forall c, q c = true -> p c = true
  | Seq r1 r2 => class_only p r1 /\ class_only p r2
  | Group _ _ | Backref _ => False
  | Eps | Bol | Eol => True
  end.

(** A small letter, a digit or the underscore. *)
Definition is_lower_word (c : ascii) : bool :=
  is_lower c || is_digit c || (code_unit c =? 95)%N.

(* ------------------------------------------------------------------ *)
(** ** The parts of a validation report *)

Module Report.

Import Validator.



















End Report.

(* ------------------------------------------------------------------ *)
(** ** The parts of a merge *)

Module Merge.

Import FrontMatter.

(** The own fields of a value that is a mapping; another value has none
    of the field vocabulary. *)
Definition mapping_of (v : JsValue) : list (str * JsValue) :=
  match v with JObj fields => fields | _ => [] end.

(** A value on which [in] does not throw: an object or an array. *)
Definition is_object (v : JsValue) : bool :=
  match v with JObj _ | JArr _ => true | _ => false end.

(** One round of the loop over the known fields when the front matter is
    the mapping [extracted]. *)
Definition seed_round (extracted : list (str * JsValue))
    (mergedParams : list (str * JsValue)) (f : string)
    : list (str * JsValue) :=
  if has_key extracted f then
    if str_eqb f "tags"
    then set mergedParams f (JStr (normalizeTags (get extracted f)))
    else if str_eqb f "cover_image"
    then set mergedParams "main_image" (get extracted f)
    else set mergedParams f (get extracted f)
  else mergedParams.

(** One round of the loop over the explicit parameters when the front
    matter is the mapping [extracted]. *)
Definition override_round (extracted : list (str * JsValue))
    (st : list (str * JsValue) * list Conflict) (entry : str * JsValue)
    : list (str * JsValue) * list Conflict :=
  let '(key, value) := entry in
  if is_undefined value then st
  else
    let frontMatterKey : str :=
      if str_eqb key "main_image" then "cover_image" else key in
    let fmValue :=
      if has_key extracted frontMatterKey then get extracted frontMatterKey
      else if has_key extracted key then get extracted key
      else JUndefined in
    let conflicts1 :=
      if negb (is_undefined fmValue) then
        let normalizedFmValue :=
          if str_eqb key "tags" then JStr (normalizeTags fmValue) else fmValue in
        let normalizedJsonValue :=
          if str_eqb key "tags" then JStr (normalizeTags value) else value in
        if negb (str_eqb (ToString normalizedFmValue)
                   (ToString normalizedJsonValue))
        then snd st ++ [mkConflict key normalizedFmValue normalizedJsonValue]
        else snd st
      else snd st in
    (set (fst st) key value, conflicts1).

(** One round of the conflict check of the validator when the front matter
    is the mapping [extracted]. *)
Definition conflict_round (extracted : list (str * JsValue))
    (acc : list Validator.ValidationIssue) (entry : str * JsValue)
    : list Validator.ValidationIssue :=
  let '(fld, jsonV) := entry in
  let frontMatterKey : str :=
    if str_eqb fld "main_image" then "cover_image" else fld in
  let fmValue := nullish_or (get extracted frontMatterKey) (get extracted fld) in
  if negb (is_undefined fmValue)
     && negb (str_eqb (ToString fmValue) (ToString jsonV))
  then acc ++ [Validator.mkIssue Validator.warning
                 Validator.front_matter_conflict
                 ("Front matter " ++ [DQ] ++ frontMatterKey ++ [DQ]
                  ++ " value " ++ [DQ] ++ ToString fmValue ++ [DQ]
                  ++ " conflicts with parameter " ++ [DQ]
                  ++ ToString jsonV ++ [DQ]
                  ++ ". Parameter value will be used.")
                 None]
  else acc.



End Merge.

(* ------------------------------------------------------------------ *)
(** ** The rate limiter ([src/client/rate-limiter.ts])

    Times are milliseconds, the integers [Date.now()] returns.  A call of
    [acquire] reads the clock at its start, once more after the wait when
    the bucket is full, and when it pushes the new timestamp; the three
    readings are an argument of the model, and the wait it asks the timer
    for is part of its result. *)

Module RateLimiter.

Record Bucket : Type := mkBucket {
  maxTokens : nat;
  windowMs : Z;
  timestamps : list Z
}.

Record RateLimiter : Type := mkLimiter {
  create : Bucket;
  update : Bucket;
  backoffMs : Z
}.

Definition maxBackoffMs : Z := 30000.

(** The constructor. *)
Definition new : RateLimiter :=
  mkLimiter (mkBucket 10 30000 []) (mkBucket 30 30000 []) 3000.

(** Record a 429 and return the backoff delay to wait. *)
Definition recordRateLimitHit (l : RateLimiter) : Z * RateLimiter :=
  let delay := backoffMs l in
  (delay,
   mkLimiter (create l) (update l) (Z.min (backoffMs l * 2) maxBackoffMs)).

(** Reset backoff after a successful request. *)
Definition resetBackoff (l : RateLimiter) : RateLimiter :=
  mkLimiter (create l) (update l) 3000.

(** The readings of [Date.now()] during one call of [acquire]. *)
Record Clock : Type := mkClock {
  now : Z;
  afterWait : Z;
  pushedAt : Z
}.

(** [timestamps.filter((timestamp) => t - timestamp < windowMs)] *)
Definition prune (windowMs t : Z) (timestamps : list Z) : list Z :=
  filter (fun timestamp => (t - timestamp <? windowMs)%Z) timestamps.

(** How far a call of [acquire] has come when it first gives up control:
    it has pushed its timestamp, or it is suspended on the timer, which it
    asked for [waitTime]. *)
Inductive Progress : Type :=
| Done (bucket : Bucket)
| Waiting (waitTime : Z) (bucket : Bucket).

(** [acquire] from the call to its [await], or to its end when it does not
    wait.  The bucket it leaves is the one other calls find. *)
Definition acquire_begin (bucket : Bucket) (clock : Clock) : Progress :=
  let pruned := prune (windowMs bucket) (now clock) (timestamps bucket) in
  if maxTokens bucket <=? length pruned then
    match pruned with
    | oldestTimestamp :: _ =>
        let waitTime :=
          (oldestTimestamp + windowMs bucket - now clock + 1)%Z in
        if (0 <? waitTime)%Z
        then Waiting waitTime
               (mkBucket (maxTokens bucket) (windowMs bucket) pruned)
        else
          Done (mkBucket (maxTokens bucket) (windowMs bucket)
                  (prune (windowMs bucket) (afterWait clock) pruned
                   ++ [pushedAt clock]))
    | [] =>
        (* [timestamps[0]] is [undefined] and [waitTime] is not a number:
           no wait *)
        Done (mkBucket (maxTokens bucket) (windowMs bucket) [pushedAt clock])
    end
  else
    Done (mkBucket (maxTokens bucket) (windowMs bucket)
            (pruned ++ [pushedAt clock])).

(** [acquire] from its [await] to its end, on the bucket as it is when the
    timer fires: the length is not tested again. *)
Definition acquire_resume (bucket : Bucket) (afterWait pushedAt : Z)
    : Bucket :=
  mkBucket (maxTokens bucket) (windowMs bucket)
    (prune (windowMs bucket) afterWait (timestamps bucket) ++ [pushedAt]).

(** A call of [acquire] during whose wait no other call touches the
    bucket: the wait asked of the timer, if any, and the bucket
    afterwards. *)
Definition acquire (bucket : Bucket) (clock : Clock) : option Z * Bucket :=
  match acquire_begin bucket clock with
  | Done done => (None, done)
  | Waiting waitTime suspended =>
      (Some waitTime,
       acquire_resume suspended (afterWait clock) (pushedAt clock))
  end.

Definition acquireCreate (l : RateLimiter) (clock : Clock)
    : option Z * RateLimiter :=
  let '(wait, bucket) := acquire (create l) clock in
  (wait, mkLimiter bucket (update l) (backoffMs l)).

Definition acquireUpdate (l : RateLimiter) (clock : Clock)
    : option Z * RateLimiter :=
  let '(wait, bucket) := acquire (update l) clock in
  (wait, mkLimiter (create l) bucket (backoffMs l)).

(** [n] calls of [recordRateLimitHit] in a row: the delays returned. *)
Fixpoint hits (n : nat) (l : RateLimiter) : list Z * RateLimiter :=
  match n with
  | 0 => ([], l)
  | S n' =>
      let '(delay, l1) := recordRateLimitHit l in
      let '(delays, l2) := hits n' l1 in
      (delay :: delays, l2)
  end.

(** Calls of [acquire] on one bucket that follow one another: each has
    ended when the next begins. *)
Definition acquire_all (bucket : Bucket) (clocks : list Clock) : Bucket :=
  fold_left (fun b clock => snd (acquire b clock)) clocks bucket.

(** For calls that follow one another: the clock never runs backwards,
    from [last] on, each call begins when the one before it has pushed its
    timestamp, and the timer fires no more than one millisecond before the
    wait it was asked for is over. *)
Fixpoint timely (last : Z) (bucket : Bucket) (clocks : list Clock) : Prop :=
  match clocks with
  | [] => True
  | clock :: rest =>
      (last <= now clock)%Z
      /\ (now clock <= afterWait clock)%Z
      /\ (afterWait clock <= pushedAt clock)%Z
      /\ (forall waitTime,
            fst (acquire bucket clock) = Some waitTime ->
            (now clock + waitTime - 1 <= afterWait clock)%Z)
      /\ timely (pushedAt clock) (snd (acquire bucket clock)) rest
  end.

End RateLimiter.

(* ------------------------------------------------------------------ *)
(** ** Errors ([src/utils/errors.ts]) *)

Module Errors.

Record LinusError : Type := mkError {
  code : Validator.LinusErrorCode;
  message : str;
  details : option (list (str * JsValue))
}.

(** The text of the [error] property of a response body that is an
    object; arrays and the other values have no such property. *)
Definition bodyMessage (body : JsValue) : str :=
  match body with
  | JObj fields =>
      if has_key fields "error" then ToString (get fields "error")
      else "Unknown error"
  | _ => "Unknown error"
  end.

Definition mapHttpStatusToError (status : Z) (body : JsValue) : LinusError :=
  if (status =? 401)%Z then
    mkError Validator.auth_failed "Authentication failed. Check your API key."
      (Some [("httpStatus" : str, JNum status)])
  else if (status =? 403)%Z then
    mkError Validator.forbidden ("Forbidden: " ++ bodyMessage body)
      (Some [("httpStatus" : str, JNum status)])
  else if (status =? 404)%Z then
    mkError Validator.not_found ("Resource not found: " ++ bodyMessage body)
      (Some [("httpStatus" : str, JNum status)])
  else if (status =? 422)%Z then
    mkError Validator.invalid_request ("Invalid request: " ++ bodyMessage body)
      (Some [("httpStatus" : str, JNum status); ("body" : str, body)])
  else if (status =? 429)%Z then
    mkError Validator.rate_limited "Rate limit exceeded. Try again shortly."
      (Some [("httpStatus" : str, JNum status); ("retryAfter" : str, JNum 3)])
  else if (400 <=? status)%Z && (status <? 500)%Z then
    mkError Validator.invalid_request
      ("Client error (" ++ Z_to_str status ++ "): " ++ bodyMessage body)
      (Some [("httpStatus" : str, JNum status); ("body" : str, body)])
  else
    mkError Validator.api_error
      ("Forem API error (" ++ Z_to_str status ++ "): " ++ bodyMessage body)
      (Some [("httpStatus" : str, JNum status); ("body" : str, body)]).

End Errors.

(* ------------------------------------------------------------------ *)
(** ** The request helper of the client ([src/client/forem.ts])

    The network is the environment: [fetch i] is what the call number [i]
    of [fetch] (from 0) comes back with.  The result of a request is its
    outcome together with what it did on the way: the limiter it leaves,
    the delays it slept, and the number of calls of [fetch]. *)

Module Client.

Import Errors.

Definition MAX_RETRIES : nat := 3.

(** ['create' | 'update'] *)
Inductive RateLimitBucket : Type := bucket_create | bucket_update.

Inductive FetchResult : Type :=
| NetworkFailure (fetchError : str)   (* [fetch] rejects; [String(fetchError)] *)
| Response (status : Z) (json : option JsValue).
                                      (* [None]: [response.json()] rejects *)

(** [response.ok] *)
Definition ok (status : Z) : bool := ((200 <=? status) && (status <=? 299))%Z.

Inductive Outcome : Type :=
| Returned (value : JsValue)
| Thrown (e : LinusError).

Record Trace : Type := mkTrace {
  outcome : Outcome;
  limiter : RateLimiter.RateLimiter;
  waits : list Z;
  fetches : nat
}.

(** The loop of [request], entered with [attempt] and with
    [remaining = MAX_RETRIES - attempt] rounds to go.  The delay of a
    limiter that only [recordRateLimitHit] and [resetBackoff] have touched
    is a whole number of seconds, so that [delay / 1000] is exact. *)
Fixpoint attempts (fetch : nat -> FetchResult) (method path : str)
    (remaining attempt : nat) (l : RateLimiter.RateLimiter)
    (lastError : option LinusError) (slept : list Z) : Trace :=
  match remaining with
  | 0 =>
      mkTrace
        (Thrown (match lastError with
                 | Some e => e
                 | None => mkError Validator.api_error
                             "Request failed after retries" None
                 end))
        l slept attempt
  | S remaining' =>
      match fetch attempt with
      | NetworkFailure fetchError =>
          mkTrace
            (Thrown (mkError Validator.api_error
                       ("Network error: " ++ fetchError)
                       (Some [("path" : str, JStr path);
                              ("method" : str, JStr method)])))
            l slept (S attempt)
      | Response status json =>
          if (status =? 429)%Z then
            let '(delay, l1) := RateLimiter.recordRateLimitHit l in
            let lastError1 :=
              mkError Validator.rate_limited "Rate limit exceeded"
                (Some [("httpStatus" : str, JNum 429);
                       ("retryAfter" : str, JNum (delay / 1000))]) in
            if attempt <? MAX_RETRIES - 1
            then attempts fetch method path remaining' (S attempt) l1
                   (Some lastError1) (slept ++ [delay])
            else mkTrace (Thrown lastError1) l1 slept (S attempt)
          else
            let l1 := RateLimiter.resetBackoff l in
            if (status =? 204)%Z
            then mkTrace (Returned JUndefined) l1 slept (S attempt)
            else
              let responseBody :=
                match json with
                | Some v => v
                | None =>
                    JObj [("error" : str,
                           JStr ("Non-JSON response (" ++ Z_to_str status
                                 ++ ")"))]
                end in
              if negb (ok status)
              then mkTrace (Thrown (mapHttpStatusToError status responseBody))
                     l1 slept (S attempt)
              else mkTrace (Returned responseBody) l1 slept (S attempt)
      end
  end.

(** [request]: the bucket is acquired first, then the loop runs.  The wait
    of the bucket comes first among the delays slept. *)
Definition request (fetch : nat -> FetchResult) (method path : str)
    (rateLimitBucket : option RateLimitBucket) (clock : RateLimiter.Clock)
    (l : RateLimiter.RateLimiter) : Trace :=
  let '(wait, l0) :=
    match rateLimitBucket with
    | Some bucket_create => RateLimiter.acquireCreate l clock
    | Some bucket_update => RateLimiter.acquireUpdate l clock
    | None => (None, l)
    end in
  attempts fetch method path MAX_RETRIES 0 l0 None
    (match wait with Some w => [w] | None => [] end).

End Client.

(* ------------------------------------------------------------------ *)
(** ** Pagination ([src/client/pagination.ts])

    [fetchPage] is the caller's: it returns a batch or throws.  The loop
    has no bound of its own; [fuel] bounds the number of pages the model
    asks for, and [None] says that the bound was reached. *)

Module Pagination.

Section WithFetchPage.

Context {T : Type}.
Variable fetchPage : nat -> Z -> Exc (list T).

Fixpoint paginate (fuel : nat) (perPage : Z) (page : nat) (results : list T)
    : option (Exc (list T)) :=
  match fuel with
  | 0 => None
  | S fuel' =>
      match fetchPage page perPage with
      | Throw => Some Throw
      | Ok batch =>
          let results1 := results ++ batch in
          if (Z.of_nat (length batch) <? perPage)%Z then Some (Ok results1)
          else paginate fuel' perPage (S page) results1
      end
  end.

(** [perPage] is 30 when the caller gives none. *)
Definition paginateAll (fuel : nat) (perPage : option Z)
    : option (Exc (list T)) :=
  paginate fuel (match perPage with Some n => n | None => 30%Z end) 1 [].

End WithFetchPage.

End Pagination.

(* ------------------------------------------------------------------ *)
(** ** The tool handlers ([src/tools/utilities.ts], [src/tools/articles.ts])

    A handler answers with [jsonResponse(data)] or, from its [catch], with
    [errorResponse(error)]; the model keeps the data and the error code,
    not their JSON text.  An exception that is not a [LinusError] is
    answered with the code [api_error]. *)

Module Tools.

Inductive ToolResponse (A : Type) : Type :=
| JsonResponse (data : A)
| ErrorResponse (error : Validator.LinusErrorCode).

Arguments JsonResponse {A} data.
Arguments ErrorResponse {A} error.

Module Utilities.

Record args : Type := mkArgs {
  body_markdown : str;
  canonical_url : str;
  strip_liquid_tags : option bool
}.

Record detail : Type := mkDetail {
  d_tag : str;
  d_argument : str;
  d_line : nat;
  d_cross_post_safe : bool
}.

Record liquid_tag_report : Type := mkTagReport {
  tags_found : nat;
  has_cross_post_unsafe : bool;
  details : list detail
}.

Record data : Type := mkData {
  body : str;
  r_canonical_url : str;
  r_liquid_tag_report : liquid_tag_report
}.

Definition handlePrepareCrosspost (a : args) : ToolResponse data :=
  let liquidReport := LiquidTags.detectLiquidTags (body_markdown a) in
  let processed :=
    match strip_liquid_tags a with
    | Some false => Ok (body_markdown a)
    | _ => LiquidTags.stripLiquidTags (body_markdown a)
    end in
  match processed with
  | Ok processedBody =>
      JsonResponse
        (mkData processedBody (canonical_url a)
           (mkTagReport
              (length (LiquidTags.tags liquidReport))
              (LiquidTags.hasCrossPostUnsafe liquidReport)
              (map (fun t =>
                      mkDetail (LiquidTags.tag t) (LiquidTags.argument t)
                        (LiquidTags.lineNumber t) (LiquidTags.crossPostSafe t))
                 (LiquidTags.tags liquidReport))))
  | Throw => ErrorResponse Validator.api_error
  end.

End Utilities.

(** An optional property of the arguments as a value. *)
Definition opt_str (v : option str) : JsValue :=
  match v with Some s => JStr s | None => JUndefined end.

Definition opt_num (v : option Z) : JsValue :=
  match v with Some n => JNum n | None => JUndefined end.

(** A property that may also be [null]. *)
Definition nullable_str (v : option str) : JsValue :=
  match v with Some s => JStr s | None => JNull end.

Definition nullable_num (v : option Z) : JsValue :=
  match v with Some n => JNum n | None => JNull end.

(** What the article handlers answer with: the article of the API and the
    conflicts, when there are some. *)
Record article_data : Type := mkArticleData {
  article : JsValue;
  front_matter_conflicts : option (list FrontMatter.Conflict)
}.

Module CreateArticle.

Record args : Type := mkArgs {
  title : str;
  body_markdown : option str;
  tags : option str;
  series : option str;
  main_image : option str;
  canonical_url : option str;
  description : option str;
  organization_id : option Z;
  published : option bool
}.

Definition jsonParams (a : args) : list (str * JsValue) :=
  [ ("title" : str, JStr (title a));
    ("tags" : str, opt_str (tags a));
    ("series" : str, opt_str (series a));
    ("main_image" : str, opt_str (main_image a));
    ("canonical_url" : str, opt_str (canonical_url a));
    ("description" : str, opt_str (description a));
    ("organization_id" : str, opt_num (organization_id a)) ].

Section WithClient.

Variable matter : str -> Exc FrontMatter.MatterFile.

(** [client.createArticle]: what the API answers to the parameters. *)
Variable createArticle : list (str * JsValue) -> Client.Outcome.

(** The object [articleParams], with the conflicts of the merge. *)
Definition articleParams (a : args) (defaultPublished : bool)
    : Exc (list (str * JsValue) * list FrontMatter.Conflict) :=
  r <- FrontMatter.mergeAndNormalize matter (body_markdown a) (jsonParams a) ;;
  let published1 :=
    match published a with Some p => p | None => defaultPublished end in
  let articleParams0 := set (FrontMatter.params r) "published" (JBool published1) in
  let articleParams1 :=
    match body_markdown a with
    | Some _ => set articleParams0 "body_markdown" (JStr (FrontMatter.body r))
    | None => articleParams0
    end in
  Ok (articleParams1, FrontMatter.conflicts r).


End WithClient.

End CreateArticle.

Module UpdateArticle.

Record args : Type := mkArgs {
  article_id : Z;
  title : option str;
  body_markdown : option str;
  tags : option str;
  series : option (option str);
  main_image : option (option str);
  canonical_url : option (option str);
  description : option str;
  organization_id : option (option Z);
  published : option bool
}.

(** One [if (args.x !== undefined) jsonParams.x = args.x]. *)
Definition given {A} (key : string) (value : option A) (f : A -> JsValue)
    : list (str * JsValue) :=
  match value with
  | Some v => [(list_ascii_of_string key, f v)]
  | None => []
  end.

Definition jsonParams (a : args) : list (str * JsValue) :=
  given "title" (title a) JStr
  ++ given "tags" (tags a) JStr
  ++ given "series" (series a) nullable_str
  ++ given "main_image" (main_image a) nullable_str
  ++ given "canonical_url" (canonical_url a) nullable_str
  ++ given "description" (description a) JStr
  ++ given "organization_id" (organization_id a) nullable_num.

Section WithClient.

Variable matter : str -> Exc FrontMatter.MatterFile.

(** [client.updateArticle]: what the API answers to the parameters. *)
Variable updateArticle : Z -> list (str * JsValue) -> Client.Outcome.

Definition articleParams (a : args)
    : Exc (list (str * JsValue) * list FrontMatter.Conflict) :=
  r <- FrontMatter.mergeAndNormalize matter (body_markdown a) (jsonParams a) ;;
  let articleParams0 := FrontMatter.params r in
  let articleParams1 :=
    match body_markdown a with
    | Some _ => set articleParams0 "body_markdown" (JStr (FrontMatter.body r))
    | None => articleParams0
    end in
  let articleParams2 :=
    match published a with
    | Some p => set articleParams1 "published" (JBool p)
    | None => articleParams1
    end in
  Ok (articleParams2, FrontMatter.conflicts r).

Definition handleUpdateArticle (a : args) : ToolResponse article_data :=
  match articleParams a with
  | Throw => ErrorResponse Validator.api_error
  | Ok (articleParams2, conflicts) =>
      match updateArticle (article_id a) articleParams2 with
      | Client.Thrown e => ErrorResponse (Errors.code e)
      | Client.Returned article1 =>
          JsonResponse
            (mkArticleData article1
               (if 0 <? length conflicts then Some conflicts else None))
      end
  end.

End WithClient.

End UpdateArticle.

End Tools.

(* ------------------------------------------------------------------ *)
(** ** The base URL of the client ([src/client/forem.ts], the constructor) *)

Module BaseUrl.

(** [/\/$/] *)
Definition trailingSlash : regex := Seqs [ Lit is_char "/"; Eol ].

(** [s.replace(re, replacement)] for a pattern without the [g] flag and a
    replacement without [$]: the first match only. *)
Definition replace_first (r : regex) (replacement s : str) : str :=
  match search r s 0 with
  | Some h =>
      firstn (h_index h) s ++ replacement
      ++ skipn (h_index h + length (h_text h)) s
  | None => s
  end.

(** [(config.baseUrl ?? 'https://dev.to/api').replace(/\/$/, '')] *)
Definition baseUrl (configured : option str) : str :=
  replace_first trailingSlash []
    (match configured with
     | Some u => u
     | None => list_ascii_of_string "https://dev.to/api"
     end).

End BaseUrl.

(* ------------------------------------------------------------------ *)
(** ** The authentication state ([src/auth/api-key.ts],
       [src/tools/auth.ts])

    The module variable [cachedAuthState] is the state, passed in and
    out; [None] is [null]. *)

Module Auth.

Record AuthState : Type := mkAuthState {
  authenticated : bool;
  user : option JsValue;      (* [None] is [null] *)
  validatedAt : Z
}.

(** What [client.getMe()] settles with: a value, a [LinusError], or
    another thrown value, of which [String(error)] is kept. *)
Inductive GetMe : Type :=
| MeUser (user : JsValue)
| MeLinusError (e : Errors.LinusError)
| MeOther (text : str).

Inductive Result (A : Type) : Type :=
| Returned (value : A)
| Thrown (e : Errors.LinusError).

Arguments Returned {A} value.
Arguments Thrown {A} e.

(** [String(error)] for a [LinusError]: its name and its message. *)
Definition error_text (e : Errors.LinusError) : str :=
  match Errors.message e with
  | [] => list_ascii_of_string "LinusError"
  | m => "LinusError: " ++ m
  end.

Definition failed (cause : str) : Errors.LinusError :=
  Errors.mkError Validator.auth_failed "Failed to validate API key"
    (Some [("cause" : str, JStr cause)]).

(** [now] is the reading of [Date.now()]. *)
Definition validateApiKey (getMe : GetMe) (now : Z)
    (cachedAuthState : option AuthState)
    : Result AuthState * option AuthState :=
  match getMe with
  | MeUser u =>
      let state := mkAuthState true (Some u) now in
      (Returned state, Some state)
  | MeLinusError e =>
      let state := mkAuthState false None now in
      (Thrown (match Errors.code e with
               | Validator.auth_failed => e
               | _ => failed (error_text e)
               end),
       Some state)
  | MeOther text =>
      let state := mkAuthState false None now in
      (Thrown (failed text), Some state)
  end.

Definition getAuthState (cachedAuthState : option AuthState)
    : Result AuthState :=
  match cachedAuthState with
  | Some state => Returned state
  | None =>
      Thrown (Errors.mkError Validator.auth_failed
                "Not authenticated. Call validateApiKey first." None)
  end.

Definition resetAuthState (cachedAuthState : option AuthState)
    : option AuthState := None.

(** Truthiness of a value. *)
Definition ToBoolean (v : JsValue) : bool :=
  match v with
  | JUndefined | JNull => false
  | JBool b => b
  | JNum n => negb (n =? 0)%Z
  | JStr s => match s with [] => false | _ :: _ => true end
  | JArr _ | JObj _ => true
  end.

(** The time values of which [new Date(t).toISOString()] does not
    throw. *)
Definition is_date (t : Z) : bool := (Z.abs t <=? 8640000000000000)%Z.

(** [handleAuthStatus]: the user and the time of validation it answers
    with, or the code of the error; [None] when it throws itself, which it
    does with what is not a [LinusError]. *)
Definition handleAuthStatus (cachedAuthState : option AuthState)
    : option (Tools.ToolResponse (JsValue * Z)) :=
  match getAuthState cachedAuthState with
  | Thrown e => Some (Tools.ErrorResponse (Errors.code e))
  | Returned authState =>
      match user authState with
      | Some u =>
          if negb (authenticated authState) || negb (ToBoolean u)
          then Some (Tools.ErrorResponse Validator.auth_failed)
          else if is_date (validatedAt authState)
               then Some (Tools.JsonResponse (u, validatedAt authState))
               else None
      | None => Some (Tools.ErrorResponse Validator.auth_failed)
      end
  end.

(** The calls that change the state. *)
Inductive call : Type :=
| Validate (getMe : GetMe) (now : Z)
| Reset.

Definition step (cachedAuthState : option AuthState) (c : call)
    : option AuthState :=
  match c with
  | Validate getMe now => snd (validateApiKey getMe now cachedAuthState)
  | Reset => resetAuthState cachedAuthState
  end.

End Auth.

(* ================================================================== *)
(** * Properties *)

Import FrontMatter Validator Merge.

(* ------------------------------------------------------------------ *)
(** ** Strings and objects *)

Lemma str_eqb_eq (a b : str) : str_eqb a b = true <-> a = b.
Proof.
  revert b; induction a as [|x a IH]; intros [|y b]; simpl;
    try (split; (discriminate || reflexivity)).
  rewrite andb_true_iff, Ascii.eqb_eq, IH.
  split; [intros [-> ->]; reflexivity | intros [= -> ->]; auto].
Qed.

Lemma str_eqb_refl (a : str) : str_eqb a a = true.
Proof. apply str_eqb_eq; reflexivity. Qed.





(* ------------------------------------------------------------------ *)
(** ** The matcher

    A successful match takes a prefix of the remaining input, at least
    [min_len] characters long, and every match a scan reports sits at its
    index in the scanned string. *)

Lemma startsWith_split (w s : str) :
  startsWith w s = true -> s = w ++ skipn (length w) s.
Proof.
  revert s; induction w as [|x w IH]; intros [|y s]; simpl;
    try discriminate; auto.
  rewrite andb_true_iff, Ascii.eqb_eq. intros [-> H]. f_equal. auto.
Qed.

Lemma reached_here rest pos caps : reached rest pos (MState rest pos caps) [].
Proof. split; simpl; auto. Qed.

Lemma reached_step c t pos s1 w :
  reached t (S pos) s1 w -> reached (c :: t) pos s1 (c :: w).
Proof.
  unfold reached. intros [E1 E2]. split; simpl.
  - now rewrite E1.
  - rewrite E2. lia.
Qed.

Lemma reached_trans rest pos s1 w1 s2 w2 :
  reached rest pos s1 w1 -> reached (ms_rest s1) (ms_pos s1) s2 w2 ->
  reached rest pos s2 (w1 ++ w2).
Proof.
  unfold reached. intros [E1 E2] [E3 E4]. split.
  - rewrite E1, E3. apply app_assoc.
  - rewrite E4, E2, length_app. lia.
Qed.

Lemma star_greedy_reached p k rest pos caps res :
  star_greedy p k rest pos caps = Some res ->
  exists s1 w, k s1 = Some res /\ reached rest pos s1 w.
Proof.
  revert pos; induction rest as [|c t IH]; intros pos; simpl.
  - intros H. eexists _, []. split; [exact H|apply reached_here].
  - destruct (p c).
    + destruct (star_greedy p k t (S pos) caps) as [r|] eqn:E.
      * intros [= ->]. destruct (IH _ E) as (s1 & w & Hk & Hr).
        exists s1, (c :: w). split; [exact Hk|now apply reached_step].
      * intros H. eexists _, []. split; [exact H|apply reached_here].
    + intros H. eexists _, []. split; [exact H|apply reached_here].
Qed.

Lemma star_lazy_reached p k rest pos caps res :
  star_lazy p k rest pos caps = Some res ->
  exists s1 w, k s1 = Some res /\ reached rest pos s1 w.
Proof.
  revert pos; induction rest as [|c t IH]; intros pos; simpl.
  - destruct (k (MState [] pos caps)) as [r|] eqn:E; [|discriminate].
    intros [= ->]. eexists _, []. split; [exact E|apply reached_here].
  - destruct (k (MState (c :: t) pos caps)) as [r|] eqn:E.
    + intros [= ->]. eexists _, []. split; [exact E|apply reached_here].
    + destruct (p c); [|discriminate].
      intros H. destruct (IH _ H) as (s1 & w & Hk & Hr).
      exists s1, (c :: w). split; [exact Hk|now apply reached_step].
Qed.

Lemma rmatch_reached r : forall k s res,
  rmatch r k s = Some res ->
  exists s1 w,
    k s1 = Some res /\ reached (ms_rest s) (ms_pos s) s1 w
    /\ min_len r <= length w.
Proof.
  induction r as [ | p | r1 IH1 r2 IH2 | g p | p | n r1 IH1 | n | | ];
    intros k [rest pos caps] res; simpl.
  - intros H. eexists _, []. repeat split; [exact H|..]; simpl; auto.
  - destruct rest as [|c t]; [discriminate|].
    destruct (p c); [|discriminate].
    intros H. eexists _, [c]. split; [exact H|].
    split; [apply reached_step, reached_here|simpl; lia].
  - intros H.
    destruct (IH1 _ _ _ H) as (s1 & w1 & H1 & Hr1 & Hm1).
    destruct (IH2 _ _ _ H1) as (s2 & w2 & H2 & Hr2 & Hm2).
    exists s2, (w1 ++ w2). split; [exact H2|].
    split; [eapply reached_trans; eauto|].
    rewrite length_app. lia.
  - destruct g; intros H;
      [apply star_greedy_reached in H | apply star_lazy_reached in H];
      destruct H as (s1 & w & Hk & Hr); exists s1, w;
      repeat split; try apply Hr; auto; lia.
  - assert (Hstay : forall r0, k (MState rest pos caps) = Some r0 ->
        exists s1 w, k s1 = Some r0
          /\ reached rest pos s1 w /\ 0 <= length w).
    { intros r0 H. eexists _, []. split; [exact H|].
      split; [apply reached_here|lia]. }
    destruct rest as [|c t]; [apply Hstay|].
    destruct (p c); [|apply Hstay].
    destruct (k (MState t (S pos) caps)) as [r0|] eqn:E; [|apply Hstay].
    intros [= ->]. eexists _, [c]. split; [exact E|].
    split; [apply reached_step, reached_here|simpl; lia].
  - intros H. destruct (IH1 _ _ _ H) as (s1 & w & Hk & Hr & Hm).
    simpl in *. eexists _, w. split; [exact Hk|].
    split; [|exact Hm]. destruct Hr as [Hr1 Hr2]. split; simpl; auto.
  - destruct (cap_lookup n caps) as [w|].
    + destruct (startsWith w rest) eqn:E; [|discriminate].
      intros H. eexists _, w. split; [exact H|].
      split; [|lia]. split; simpl; auto. now apply startsWith_split.
    + intros H. eexists _, []. split; [exact H|].
      split; [apply reached_here|simpl; lia].
  - destruct (Nat.eqb pos 0); [|discriminate].
    intros H. eexists _, []. split; [exact H|].
    split; [apply reached_here|simpl; lia].
  - destruct rest; [|discriminate].
    intros H. eexists _, []. split; [exact H|].
    split; [apply reached_here|simpl; lia].
Qed.

Lemma match_at_prefix r rest pos h :
  match_at r rest pos = Some h ->
  h_index h = pos
  /\ (exists tail, rest = h_text h ++ tail)
  /\ min_len r <= length (h_text h).
Proof.
  unfold match_at.
  destruct (rmatch r Some (MState rest pos [])) as [sF|] eqn:E; [|discriminate].
  intros [= <-]. simpl.
  destruct (rmatch_reached _ _ _ _ E) as (s1 & w & [= ->] & [Hr1 Hr2] & Hm).
  simpl in *.
  assert (Hw : firstn (ms_pos sF - pos) rest = w).
  { rewrite Hr2, Hr1.
    replace (pos + length w - pos) with (length w + 0) by lia.
    rewrite firstn_app_2. simpl. apply app_nil_r. }
  rewrite Hw. split; [reflexivity|]. split; [eauto|exact Hm].
Qed.

(** Every match of a scan lies in the scanned text at its index. *)
Lemma pieces_located r rest : forall pos skip h,
  In h (hits_of (pieces r rest pos skip)) ->
  exists pre tail,
    rest = pre ++ h_text h ++ tail
    /\ h_index h = pos + length pre
    /\ min_len r <= length (h_text h).
Proof.
  induction rest as [|c t IH]; intros pos skip h.
  - destruct skip; simpl; [|contradiction].
    destruct (match_at r [] pos) as [h0|] eqn:E; simpl; [|contradiction].
    intros [<-|[]].
    destruct (match_at_prefix _ _ _ _ E) as (Hi & [tail Ht] & Hm).
    exists [], tail. simpl. repeat split; auto; lia.
  - assert (Hlater : forall skip', In h (hits_of (pieces r t (S pos) skip')) ->
       exists pre tail,
         c :: t = pre ++ h_text h ++ tail
         /\ h_index h = pos + length pre
         /\ min_len r <= length (h_text h)).
    { intros skip' H. destruct (IH _ _ _ H) as (pre & tail & -> & Hi & Hm).
      exists (c :: pre), tail. simpl. repeat split; auto; lia. }
    destruct skip as [|k]; simpl; [|apply Hlater].
    destruct (match_at r (c :: t) pos) as [h0|] eqn:E; simpl.
    + intros [<-|H].
      * destruct (match_at_prefix _ _ _ _ E) as (Hi & [tail Ht] & Hm).
        exists [], tail. simpl. repeat split; auto; lia.
      * destruct (length (h_text h0)); simpl in H; eapply Hlater; eauto.
    + apply Hlater.
Qed.

Lemma exec_all_located r s h :
  In h (exec_all r s) ->
  exists pre tail,
    s = pre ++ h_text h ++ tail
    /\ h_index h = length pre
    /\ min_len r <= length (h_text h).
Proof.
  intros H. destruct (pieces_located _ _ _ _ _ H) as (pre & tail & ? & ? & ?).
  exists pre, tail. auto.
Qed.

Lemma rmatch_Lit mk w k rest pos caps :
  rmatch (Lit mk w) k (MState rest pos caps)
  = if lit_prefix mk w rest
    then k (MState (skipn (length w) rest) (pos + length w) caps)
    else None.
Proof.
  revert rest pos; induction w as [|a w IH]; intros rest pos; simpl.
  - now rewrite Nat.add_0_r.
  - destruct rest as [|c t]; [reflexivity|]. simpl.
    destruct (mk a c); [|reflexivity]. simpl.
    rewrite IH. now rewrite Nat.add_succ_r.
Qed.

Lemma lit_prefix_exact (w s : str) :
  lit_prefix is_char w s = startsWith w s.
Proof.
  revert s; induction w as [|a w IH]; intros [|c s]; simpl; try reflexivity.
  now rewrite IH.
Qed.

Lemma search_anchored_later r t pos :
  0 < pos -> search (Seq Bol r) t pos = None.
Proof.
  revert pos; induction t as [|c t IH]; intros pos Hpos;
    unfold search; fold search; unfold match_at; simpl;
    destruct (Nat.eqb_spec pos 0); try lia; auto.
Qed.

Lemma test_anchored r (u : str) :
  test (Seq Bol r) u
  = match rmatch r Some (MState u 0 []) with Some _ => true | None => false end.
Proof.
  unfold test. destruct u as [|c t]; unfold search; fold search;
    unfold match_at; simpl.
  - destruct (rmatch r Some _); reflexivity.
  - destruct (rmatch r Some _); [reflexivity|].
    now rewrite search_anchored_later by lia.
Qed.

(* ------------------------------------------------------------------ *)
(** ** The front-matter parser *)

Lemma parseFrontMatter_total matter (b : str) :
  exists fm, parseFrontMatter matter b = Ok fm.
Proof.
  unfold parseFrontMatter.
  destruct (is_blank b); [eauto|].
  destruct (matter b) as [f|]; cbn [bind try_catch]; [|eauto].
  destruct (keys_length (data f)); cbn [bind try_catch]; eauto.
Qed.

Lemma parseFrontMatter_found matter (b : str) f n :
  is_blank b = false -> matter b = Ok f -> keys_length (data f) = Ok n ->
  parseFrontMatter matter b = Ok (mkFM (content f) (data f) (0 <? n)).
Proof.
  intros Hb Hm Hn. unfold parseFrontMatter. rewrite Hb, Hm.
  cbn [bind]. rewrite Hn. reflexivity.
Qed.

(** A result with [hasFrontMatter] holds what the reader returned, and
    that is an object, an array or a string, none of them empty. *)
Lemma parseFrontMatter_flagged matter (b : str) fm :
  parseFrontMatter matter b = Ok fm -> hasFrontMatter fm = true ->
  is_blank b = false
  /\ exists f,
       matter b = Ok f
       /\ fm = mkFM (content f) (data f) true
       /\ match data f with
          | JStr (_ :: _) | JArr (_ :: _) | JObj (_ :: _) => True
          | _ => False
          end.
Proof.
  unfold parseFrontMatter.
  destruct (is_blank b); [intros [= <-]; discriminate|].
  destruct (matter b) as [f|]; cbn [bind try_catch];
    [|intros [= <-]; discriminate].
  destruct (data f) as [| |x|n|[|c w]|[|x l]|[|x l]] eqn:Ed;
    cbn [keys_length bind try_catch length Nat.ltb Nat.leb];
    intros [= <-]; cbn [hasFrontMatter]; try discriminate; intros _;
    (split; [reflexivity|]); exists f; rewrite Ed; auto.
Qed.

Lemma property_object (v : JsValue) key :
  is_nullish v = false -> property v key = Ok (get (mapping_of v) key).
Proof. destruct v; cbn; intros; (discriminate || reflexivity). Qed.

Lemma has_property_object (v : JsValue) key :
  is_object v = true -> has_property v key = Ok (has_key (mapping_of v) key).
Proof. destruct v; cbn; intros; (discriminate || reflexivity). Qed.

Lemma has_property_primitive (v : JsValue) key :
  is_object v = false -> has_property v key = Throw.
Proof. destruct v; cbn; intros; (discriminate || reflexivity). Qed.

Lemma flagged_not_nullish matter (b : str) fm :
  parseFrontMatter matter b = Ok fm -> hasFrontMatter fm = true ->
  is_nullish (extractedValues fm) = false.
Proof.
  intros Hp Hf.
  destruct (parseFrontMatter_flagged matter b fm Hp Hf)
    as (_ & f & _ & -> & Hd).
  cbn [extractedValues]. destruct (data f); (reflexivity || contradiction).
Qed.

(** The seeding loop on a value that is not an object throws in its first
    round. *)
Lemma seed_loop_throws (v : JsValue) fields st :
  st = Throw \/ (is_object v = false /\ fields <> []) ->
  fold_left (seed_step v) fields st = Throw.
Proof.
  revert st; induction fields as [|f fields IH]; intros st H.
  - destruct H as [->|[_ H]]; [reflexivity|now elim H].
  - cbn [fold_left]. apply IH. left.
    destruct H as [->|[Hv _]]; [reflexivity|].
    unfold seed_step. destruct st; [|reflexivity]. cbn [bind].
    now rewrite has_property_primitive.
Qed.

Lemma seed_loop_object (v : JsValue) fields m :
  is_object v = true ->
  fold_left (seed_step v) fields (Ok m)
  = Ok (fold_left (seed_round (mapping_of v)) fields m).
Proof.
  intros Hv. revert m; induction fields as [|f fields IH]; intros m;
    [reflexivity|].
  cbn [fold_left]. rewrite <- IH. f_equal.
  unfold seed_step, seed_round. cbn [bind].
  rewrite has_property_object by exact Hv. cbn [bind].
  destruct (has_key (mapping_of v) f); [|reflexivity].
  rewrite property_object by (now destruct v). cbn [bind].
  destruct (str_eqb f "tags"); [reflexivity|].
  destruct (str_eqb f "cover_image"); reflexivity.
Qed.

Lemma override_loop_object (v : JsValue) entries st :
  is_object v = true ->
  fold_left (override_step v) entries (Ok st)
  = Ok (fold_left (override_round (mapping_of v)) entries st).
Proof.
  intros Hv. revert st; induction entries as [|[k x] entries IH]; intros st;
    [reflexivity|].
  cbn [fold_left]. rewrite <- IH. f_equal.
  unfold override_step, override_round. cbn [bind].
  destruct (is_undefined x); [reflexivity|].
  rewrite !has_property_object by exact Hv. cbn [bind].
  rewrite !property_object by (now destruct v).
  destruct (has_key (mapping_of v) _); cbn [bind]; [reflexivity|].
  destruct (has_key (mapping_of v) k); cbn [bind]; reflexivity.
Qed.

(** When the merger throws: exactly when the parser passes on a front
    matter that is a string. *)
Lemma mergeAndNormalize_throws matter (b : option str) jsonParams :
  mergeAndNormalize matter b jsonParams = Throw
  <-> exists body fm w,
        b = Some body
        /\ parseFrontMatter matter body = Ok fm
        /\ hasFrontMatter fm = true
        /\ extractedValues fm = JStr w.
Proof.
  unfold mergeAndNormalize. split.
  - destruct b as [[|c t]|]; try discriminate.
    destruct (parseFrontMatter matter (c :: t)) as [fm|] eqn:Hp;
      [|destruct (parseFrontMatter_total matter (c :: t)); congruence].
    cbn [bind]. destruct (hasFrontMatter fm) eqn:Hf; cbn [negb];
      [|discriminate].
    pose proof (flagged_not_nullish matter _ fm Hp Hf) as Hn.
    destruct (parseFrontMatter_flagged matter _ fm Hp Hf)
      as (_ & f & _ & Efm & Hd).
    destruct (is_object (extractedValues fm)) eqn:Ho.
    + rewrite seed_loop_object by exact Ho. cbn [bind].
      rewrite override_loop_object by exact Ho. discriminate.
    + intros _. exists (c :: t), fm. subst fm. cbn [extractedValues] in *.
      destruct (data f) as [| |x|n|w|l|o]; try discriminate;
        try contradiction.
      exists w. auto.
  - intros (body & fm & w & -> & Hp & Hf & Hw).
    destruct body as [|c t].
    + unfold parseFrontMatter in Hp. cbn in Hp. injection Hp as <-.
      discriminate.
    + rewrite Hp. cbn [bind]. rewrite Hf. cbn [negb].
      rewrite seed_loop_throws; [reflexivity|].
      right. rewrite Hw. split; [reflexivity|discriminate].
Qed.

(** C7.  The parser itself never throws, and a block on which the reader
    throws, or that reads as [null], yields the result without front
    matter.  But a block that reads as a text is passed on with
    [hasFrontMatter = true], although it is not a mapping.  The reader
    returns the one-line block of [---, title, ---, # Content] as the text
    [title]: the parser then reports front matter, with the extracted
    value [title], and the merger throws on it. *)
Theorem parseFrontMatter_passes_text_block matter :
  (forall b : str, exists fm, parseFrontMatter matter b = Ok fm)
  /\ (forall b : str,
        matter b = Ok (mkMatter b (JObj [])) \/ matter b = Throw ->
        parseFrontMatter matter b = Ok (mkFM b (JObj []) false))
  /\ (forall (b : str) f,
        is_blank b = false -> matter b = Ok f ->
        is_nullish (data f) = true ->
        parseFrontMatter matter b = Ok (mkFM b (JObj []) false))
  /\ (forall (b : str) f c w,
        is_blank b = false -> matter b = Ok f -> data f = JStr (c :: w) ->
        parseFrontMatter matter b
        = Ok (mkFM (content f) (JStr (c :: w)) true))
  /\ (let b : str := doc ["---"; "title"; "---"; "# Content"] in
      matter b = Ok (mkMatter "# Content" (JStr "title")) ->
      parseFrontMatter matter b = Ok (mkFM "# Content" (JStr "title") true)
      /\ forall jsonParams,
           mergeAndNormalize matter (Some b) jsonParams = Throw).
Proof.
  split; [apply parseFrontMatter_total|].
  split; [|split; [|split]].
  - intros b H. unfold parseFrontMatter.
    destruct (is_blank b); [reflexivity|].
    destruct H as [-> | ->]; reflexivity.
  - intros b f Hb Hm Hn. unfold parseFrontMatter. rewrite Hb, Hm.
    cbn [bind]. destruct (data f); try discriminate; reflexivity.
  - intros b f c w Hb Hm Hd.
    rewrite (parseFrontMatter_found matter b f (length (c :: w)) Hb Hm)
      by (rewrite Hd; reflexivity).
    rewrite Hd. reflexivity.
  - intros b Hm.
    assert (Hp : parseFrontMatter matter b
                 = Ok (mkFM "# Content" (JStr "title") true)).
    { rewrite (parseFrontMatter_found matter b _ 5 eq_refl Hm eq_refl).
      reflexivity. }
    split; [exact Hp|]. intros jsonParams.
    apply mergeAndNormalize_throws.
    exists b, (mkFM "# Content" (JStr "title") true), "title".
    repeat split. exact Hp.
Qed.

Lemma parseFrontMatter_passes_text_block_witness :
  let b : str := doc ["---"; "title"; "---"; "# Content"] in
  parseFrontMatter GrayMatter.matter b
  = Ok (mkFM "# Content" (JStr "title") true)
  /\ mergeAndNormalize GrayMatter.matter (Some b)
       [("title" : str, JStr "JSON Title")] = Throw.
Proof.
  intros b.
  destruct (proj2 (proj2 (proj2 (proj2
              (parseFrontMatter_passes_text_block GrayMatter.matter))))
              ltac:(vm_compute; reflexivity)) as [Hp Hm].
  split; [exact Hp|apply Hm].
Defined.

(* ------------------------------------------------------------------ *)
(** ** The validation report *)

(** The conflict check reads properties only, which a value other than
    [null] and [undefined] allows. *)
Lemma conflict_loop_object (v : JsValue) fields acc :
  is_nullish v = false ->
  fold_left (push_conflict v) fields (Ok acc)
  = Ok (fold_left (conflict_round (mapping_of v)) fields acc).
Proof.
  intros Hv. revert acc; induction fields as [|[f x] fields IH]; intros acc;
    [reflexivity|].
  cbn [fold_left]. rewrite <- IH. f_equal.
  unfold push_conflict, conflict_round. cbn [bind].
  rewrite !property_object by exact Hv. cbn [bind].
  set (fk := if str_eqb f "main_image"
             then list_ascii_of_string "cover_image" else f).
  assert (E : (if is_nullish (get (mapping_of v) fk)
               then Ok (get (mapping_of v) f)
               else Ok (get (mapping_of v) fk))
              = Ok (nullish_or (get (mapping_of v) fk)
                      (get (mapping_of v) f))).
  { now destruct (get (mapping_of v) fk). }
  rewrite E. cbn [bind].
  destruct (negb _ && negb _); reflexivity.
Qed.

Lemma check_front_matter_found matter p (b : str) fm acc :
  body_markdown p = Some b ->
  truthy (Some b) = true ->
  parseFrontMatter matter b = Ok fm ->
  hasFrontMatter fm = true ->
  check_front_matter matter p acc
  = Ok (fold_left (conflict_round (mapping_of (extractedValues fm)))
          (jsonFields p) acc).
Proof.
  intros Hb Ht Hp Hf. unfold check_front_matter. rewrite Hb, Ht, Hp.
  cbn [bind]. rewrite Hf.
  apply conflict_loop_object. exact (flagged_not_nullish matter b fm Hp Hf).
Qed.







Lemma push_invalid_tag_extends tl acc :
  exists more, fold_left push_invalid_tag tl acc = acc ++ more.
Proof.
  revert acc; induction tl as [|t tl IH]; intros acc; simpl.
  - exists []. now rewrite app_nil_r.
  - unfold push_invalid_tag at 2.
    destruct (negb (test tagPattern t)); [|apply IH].
    match goal with |- context [fold_left _ tl (acc ++ ?x)] =>
      destruct (IH (acc ++ x)) as [more ->]; exists (x ++ more) end.
    symmetry; apply app_assoc.
Qed.

Lemma check_tags_extends p acc :
  exists more, check_tags p acc = acc ++ more.
Proof.
  unfold check_tags.
  destruct (tags p) as [t|]; [|exists []; now rewrite app_nil_r].
  destruct (truthy_tags (Some t)); [|exists []; now rewrite app_nil_r].
  destruct (4 <? length (normalizeTagList t)).
  - match goal with |- context [fold_left _ _ (acc ++ ?x)] =>
      destruct (push_invalid_tag_extends (normalizeTagList t) (acc ++ x))
        as [more ->]; exists (x ++ more) end.
    symmetry; apply app_assoc.
  - apply push_invalid_tag_extends.
Qed.

Lemma check_main_image_extends p acc :
  exists more, check_main_image p acc = acc ++ more.
Proof.
  unfold check_main_image.
  destruct (main_image p) as [u|]; [|exists []; now rewrite app_nil_r].
  destruct (truthy (Some u) && negb (Markdown.isAbsoluteUrl u)); eauto.
  exists []; now rewrite app_nil_r.
Qed.

Lemma body_checks_skip matter p acc :
  body_markdown p = None \/ body_markdown p = Some [] ->
  check_body_images p acc = acc
  /\ check_front_matter matter p acc = Ok acc
  /\ check_liquid_tags p acc = acc
  /\ check_content_quality p acc = acc.
Proof.
  unfold check_body_images, check_front_matter, check_liquid_tags,
    check_content_quality.
  intros [-> | ->]; simpl; auto.
Qed.

Lemma validateArticle_no_body matter p :
  body_markdown p = None \/ body_markdown p = Some [] ->
  validateArticle matter p
  = Ok (mkResult (negb (existsb is_error (base_issues p))) (base_issues p)).
Proof.
  intros Hb. unfold validateArticle. fold (base_issues p).
  destruct (body_checks_skip matter p (base_issues p) Hb) as (H1 & H2 & H3 & H4).
  rewrite H1, H2. cbn [bind]. rewrite H3, H4.
  reflexivity.
Qed.

(** C10.  An empty title and an empty body count as absent.  With the title
    empty and the body absent or empty, the report is invalid and starts with
    the presence error.  With the body empty, none of the checks that depend
    on the body (body images, front-matter conflicts, liquid tags, content
    quality) adds an issue, so that the report is the one for an absent
    body: the presence, tag and cover-image issues only. *)
Theorem validateArticle_empty_is_absent matter p :
  (title p = Some [] ->
   body_markdown p = None \/ body_markdown p = Some [] ->
   exists r rest,
     validateArticle matter p = Ok r
     /\ issues r = presence_error :: rest /\ valid r = false)
  /\ (body_markdown p = Some [] ->
      (forall acc,
         check_body_images p acc = acc
         /\ check_front_matter matter p acc = Ok acc
         /\ check_liquid_tags p acc = acc
         /\ check_content_quality p acc = acc)
      /\ validateArticle matter p = validateArticle matter (with_body p None)
      /\ exists r,
           validateArticle matter p = Ok r
           /\ issues r = check_main_image p (check_tags p (check_presence p []))).
Proof.
  split.
  - intros Ht Hb.
    assert (Hp : check_presence p [] = [presence_error]).
    { unfold check_presence. rewrite Ht. destruct Hb as [-> | ->]; reflexivity. }
    assert (Hbase : exists rest, base_issues p = presence_error :: rest).
    { unfold base_issues. rewrite Hp.
      destruct (check_tags_extends p [presence_error]) as [m1 ->].
      destruct (check_main_image_extends p ([presence_error] ++ m1)) as [m2 ->].
      simpl. eauto. }
    destruct Hbase as [rest Hrest].
    exists (mkResult (negb (existsb is_error (base_issues p))) (base_issues p)), rest.
    split; [now apply validateArticle_no_body|].
    split; [exact Hrest|].
    simpl. rewrite Hrest. reflexivity.
  - intros Hb.
    split; [intros acc; apply body_checks_skip; auto|].
    split.
    + rewrite (validateArticle_no_body matter p) by auto.
      rewrite (validateArticle_no_body matter (with_body p None))
        by (left; reflexivity).
      unfold base_issues, check_main_image, check_tags, check_presence, with_body.
      simpl. rewrite Hb. reflexivity.
    + eexists; split; [apply validateArticle_no_body; auto|reflexivity].
Qed.

Lemma validateArticle_empty_is_absent_witness :
  let p := mkParams (Some []) (Some []) None None None None None in
  (exists r rest,
     validateArticle GrayMatter.matter p = Ok r
     /\ issues r = presence_error :: rest /\ valid r = false)
  /\ validateArticle GrayMatter.matter p
     = validateArticle GrayMatter.matter (with_body p None).
Proof.
  intros p. split.
  - apply (proj1 (validateArticle_empty_is_absent GrayMatter.matter p)).
    + reflexivity.
    + right; reflexivity.
  - apply (proj2 (validateArticle_empty_is_absent GrayMatter.matter p)).
    reflexivity.
Defined.

(* ------------------------------------------------------------------ *)
(** ** The liquid tag scanner: cross-post safety *)

Import LiquidTags.

Lemma own_def_Forall (P : TagDef -> Prop) name defs d :
  Forall (fun e => P (snd e)) defs -> own_def name defs = Some d -> P d.
Proof.
  induction 1 as [|[k d0] defs Hd _ IH]; simpl; [discriminate|].
  destruct (str_eqb name k); [intros [= <-]; exact Hd | exact IH].
Qed.

Lemma TAG_DEFS_unsafe :
  Forall (fun e => def_crossPostSafe (snd e) = false) TAG_DEFS.
Proof. unfold TAG_DEFS. repeat constructor. Qed.

Lemma safety_of_false name : safety_of name = false.
Proof.
  unfold safety_of, tag_def.
  destruct (own_def name TAG_DEFS) as [d|] eqn:E.
  - exact (own_def_Forall (fun d => def_crossPostSafe d = false)
             name TAG_DEFS d TAG_DEFS_unsafe E).
  - destruct (existsb _ object_prototype_keys); reflexivity.
Qed.

Section ScanInvariant.

(** A property of reported tags that holds of every tag a matching round
    builds is kept by both loops and by the sort. *)
Variable P : LiquidTagMatch -> Prop.
Variable markdown : str.
Variable ranges : list range.

Lemma block_loop_Forall hs st :
  (forall h, In h hs ->
     isInsideCodeFence ranges (h_index h) = false -> P (block_tag markdown h)) ->
  Forall P (fst st) ->
  Forall P (fst (fold_left (block_step markdown ranges) hs st)).
Proof.
  revert st; induction hs as [|h hs IH]; intros st Hh Hst; simpl; [exact Hst|].
  apply IH; [intros; apply Hh; simpl; auto|].
  unfold block_step.
  destruct (isInsideCodeFence ranges (h_index h)) eqn:E; [exact Hst|].
  simpl. apply Forall_app; split; [exact Hst|].
  constructor; [apply Hh; simpl; auto | constructor].
Qed.

Lemma inline_loop_Forall positions hs acc :
  (forall h, In h hs ->
     isInsideCodeFence ranges (h_index h) = false -> P (inline_tag markdown h)) ->
  Forall P acc ->
  Forall P (fold_left (inline_step markdown ranges positions) hs acc).
Proof.
  revert acc; induction hs as [|h hs IH]; intros acc Hh Hacc; simpl; [exact Hacc|].
  apply IH; [intros; apply Hh; simpl; auto|].
  unfold inline_step.
  destruct (isInsideCodeFence ranges (h_index h)) eqn:E; [exact Hacc|].
  destruct (startsWith _ _); [exact Hacc|].
  destruct (existsb _ positions); [exact Hacc|].
  apply Forall_app; split; [exact Hacc|].
  constructor; [apply Hh; simpl; auto | constructor].
Qed.

Lemma insert_by_line_Forall t l :
  P t -> Forall P l -> Forall P (insert_by_line t l).
Proof.
  intros Ht; induction 1 as [|x l Hx Hl IH]; simpl.
  - constructor; auto.
  - destruct (lineNumber t <=? lineNumber x); repeat constructor; auto.
Qed.

Lemma sort_by_line_Forall l : Forall P l -> Forall P (sort_by_line l).
Proof.
  induction 1 as [|x l Hx Hl IH]; simpl; [constructor|].
  now apply insert_by_line_Forall.
Qed.

End ScanInvariant.

Lemma detected_Forall (P : LiquidTagMatch -> Prop) markdown :
  (forall h, In h (exec_all blockTagPattern markdown) ->
     isInsideCodeFence (getCodeFenceRanges markdown) (h_index h) = false ->
     P (block_tag markdown h)) ->
  (forall h, In h (exec_all inlineTagPattern markdown) ->
     isInsideCodeFence (getCodeFenceRanges markdown) (h_index h) = false ->
     P (inline_tag markdown h)) ->
  Forall P (tags (detectLiquidTags markdown)).
Proof.
  intros Hb Hi. unfold detectLiquidTags.
  destruct markdown as [|c m]; [constructor|].
  cbn [tags]. apply sort_by_line_Forall. unfold detected_unsorted.
  apply inline_loop_Forall; [exact Hi|].
  apply block_loop_Forall; [exact Hb|constructor].
Qed.

Lemma all_unsafe_flag (l : list LiquidTagMatch) :
  Forall (fun t => crossPostSafe t = false) l ->
  existsb (fun t => negb (crossPostSafe t)) l
  = match l with [] => false | _ :: _ => true end.
Proof.
  intros H; destruct H as [|t l Ht _]; simpl; [reflexivity|].
  now rewrite Ht.
Qed.

(** C9.  Every entry of the tag table is marked unsafe and a name without an
    entry reads as unsafe, so every reported match has
    [crossPostSafe = false], and [hasCrossPostUnsafe] is true exactly when
    the list of tags is not empty. *)
Theorem detectLiquidTags_all_unsafe (markdown : str) :
  Forall (fun e => def_crossPostSafe (snd e) = false) TAG_DEFS
  /\ (forall name, safety_of name = false)
  /\ Forall (fun t => crossPostSafe t = false) (tags (detectLiquidTags markdown))
  /\ (hasCrossPostUnsafe (detectLiquidTags markdown) = true
      <-> tags (detectLiquidTags markdown) <> []).
Proof.
  split; [exact TAG_DEFS_unsafe|].
  split; [exact safety_of_false|].
  assert (HF : Forall (fun t => crossPostSafe t = false)
                 (tags (detectLiquidTags markdown))).
  { apply detected_Forall; intros h _ _; simpl; apply safety_of_false. }
  split; [exact HF|].
  revert HF. unfold detectLiquidTags.
  destruct markdown as [|c m]; cbn [tags hasCrossPostUnsafe].
  - intros _. split; [discriminate | intros H; now elim H].
  - intros HF. rewrite (all_unsafe_flag _ HF).
    destruct (sort_by_line _); split; try discriminate; auto.
Qed.

Lemma detectLiquidTags_all_unsafe_witness :
  hasCrossPostUnsafe (detectLiquidTags "{% youtube abc %}") = true.
Proof.
  apply (proj2 (proj2 (proj2 (detectLiquidTags_all_unsafe "{% youtube abc %}")))).
  vm_compute. discriminate.
Defined.

(* ------------------------------------------------------------------ *)
(** ** The liquid tag scanner: fenced regions *)

Ltac split_cmp :=
  repeat match goal with
    | |- context [?a <=? ?b] => destruct (Nat.leb_spec a b)
    | |- context [?a <? ?b] => destruct (Nat.ltb_spec a b)
    | |- context [?a =? ?b] => destruct (Nat.eqb_spec a b)
    end.

Ltac cmp_cases :=
  split_cmp; simpl;
  rewrite ?andb_false_r, ?orb_false_r, ?orb_true_r, ?andb_true_r;
  try reflexivity; try lia.

Lemma split_char_span (s : str) : Spec.span (split_char LF s) = length s + 1.
Proof.
  induction s as [|c t IH]; simpl; [reflexivity|].
  destruct (Ascii.eqb c LF); simpl; [now rewrite IH|].
  destruct (split_char LF t) as [|l ls]; simpl in *; lia.
Qed.

Lemma is_fence_line_spec (l : str) : is_fence_line l = Spec.toggles_fence l.
Proof.
  unfold is_fence_line, fencePattern, Spec.toggles_fence.
  rewrite test_anchored, rmatch_Lit, lit_prefix_exact.
  destruct (startsWith "```" (trim l)); reflexivity.
Qed.

Lemma in_close_fence st total x :
  isInsideCodeFence (close_fence st total) x
  = isInsideCodeFence (codeFenceRanges st) x
    || (insideCodeFence st && (fenceStart st <=? x) && (x <? total)).
Proof.
  unfold close_fence, isInsideCodeFence.
  destruct (insideCodeFence st); simpl; [|now rewrite orb_false_r].
  rewrite existsb_app. simpl. unfold in_range. simpl.
  now rewrite orb_false_r.
Qed.

(** Offsets before the line the loop is about to read: only the fence that
    is open at that point can still cover them. *)
Lemma fence_loop_before lines st total x :
  total + 1 = charOffset st + Spec.span lines ->
  x < charOffset st ->
  isInsideCodeFence (close_fence (fold_left fence_step lines st) total) x
  = isInsideCodeFence (codeFenceRanges st) x
    || (insideCodeFence st && (fenceStart st <=? x) && (x <? total)).
Proof.
  revert st; induction lines as [|l rest IH]; intros st Htot Hx; simpl.
  - apply in_close_fence.
  - simpl in Htot. rewrite IH; clear IH.
    + destruct st as [ins fs c rs]. unfold fence_step. simpl in *.
      destruct (is_fence_line l), ins; simpl; try reflexivity.
      * unfold isInsideCodeFence. rewrite existsb_app. simpl.
        unfold in_range. simpl.
        destruct (existsb _ rs); simpl; [reflexivity|].
        cmp_cases.
      * cmp_cases.
    + destruct st as [ins fs c rs]. unfold fence_step. simpl in *.
      destruct (is_fence_line l), ins; simpl; lia.
    + destruct st as [ins fs c rs]. unfold fence_step. simpl in *.
      destruct (is_fence_line l), ins; simpl; lia.
Qed.

(** The regions the loop records are the regions of the line-by-line
    reading. *)
Lemma fence_loop_spec lines st total o :
  total + 1 = charOffset st + Spec.span lines ->
  (insideCodeFence st = true -> fenceStart st <= charOffset st) ->
  isInsideCodeFence (close_fence (fold_left fence_step lines st) total)
    (charOffset st + o)
  = isInsideCodeFence (codeFenceRanges st) (charOffset st + o)
    || Spec.fenced lines (insideCodeFence st) o.
Proof.
  revert st o; induction lines as [|l rest IH]; intros st o Htot Hfs.
  - simpl in *. rewrite in_close_fence.
    destruct (insideCodeFence st); simpl; [|reflexivity].
    cmp_cases.
  - cbn [fold_left Spec.fenced]. rewrite <- is_fence_line_spec. simpl in Htot.
    destruct (Nat.ltb_spec o (length l)) as [Hlt|Hge].
    + (* an offset within the line *)
      rewrite fence_loop_before.
      * destruct st as [ins fs c rs]. unfold fence_step. simpl in *.
        destruct (is_fence_line l), ins; simpl.
        -- unfold isInsideCodeFence. rewrite existsb_app. simpl.
           unfold in_range. simpl. specialize (Hfs eq_refl).
           destruct (existsb _ rs); simpl; [reflexivity|].
           cmp_cases.
        -- cmp_cases.
        -- specialize (Hfs eq_refl).
           cmp_cases.
        -- now rewrite orb_false_r.
      * destruct st as [ins fs c rs]. unfold fence_step. simpl in *.
        destruct (is_fence_line l), ins; simpl; lia.
      * destruct st as [ins fs c rs]. unfold fence_step. simpl in *.
        destruct (is_fence_line l), ins; simpl; lia.
    + destruct (Nat.eqb_spec o (length l)) as [Heq|Hne].
      * (* the line feed that ends the line *)
        subst o. rewrite fence_loop_before.
        -- destruct st as [ins fs c rs]. unfold fence_step. simpl in *.
           destruct rest as [|l2 rest]; simpl in *;
             destruct (is_fence_line l), ins; simpl;
             try specialize (Hfs eq_refl);
             unfold isInsideCodeFence; rewrite ?existsb_app; simpl;
             unfold in_range; simpl;
             destruct (existsb _ rs); simpl; try reflexivity;
             cmp_cases.
        -- destruct st as [ins fs c rs]. unfold fence_step. simpl in *.
           destruct (is_fence_line l), ins; simpl; lia.
        -- destruct st as [ins fs c rs]. unfold fence_step. simpl in *.
           destruct (is_fence_line l), ins; simpl; lia.
      * (* an offset on a later line *)
        replace (charOffset st + o)
          with (charOffset (fence_step st l) + (o - length l - 1))
          by (destruct st as [ins fs c rs]; unfold fence_step; simpl;
              destruct (is_fence_line l), ins; simpl; lia).
        rewrite IH.
        -- destruct st as [ins fs c rs]. unfold fence_step. simpl in *.
           destruct (is_fence_line l), ins; simpl; try reflexivity.
           unfold isInsideCodeFence. rewrite existsb_app. simpl.
           unfold in_range. simpl.
           destruct (existsb _ rs); simpl; [reflexivity|].
           cmp_cases.
        -- destruct st as [ins fs c rs]. unfold fence_step. simpl in *.
           destruct (is_fence_line l), ins; simpl; lia.
        -- destruct st as [ins fs c rs]. unfold fence_step. simpl in *.
           destruct (is_fence_line l), ins; simpl; intros; lia.
Qed.

Lemma fence_ranges_spec (markdown : str) (offset : nat) :
  isInsideCodeFence (getCodeFenceRanges markdown) offset
  = Spec.in_fenced_region markdown offset.
Proof.
  unfold getCodeFenceRanges, Spec.in_fenced_region.
  change offset with (charOffset (mkFence false 0 0 []) + offset) at 1.
  rewrite fence_loop_spec.
  - reflexivity.
  - rewrite split_char_span. simpl. lia.
  - discriminate.
Qed.

(** C4.  Every tag the scanner reports comes from a block or an inline match
    of the document, the match sits at its index in the document, and that
    index lies outside every fenced region, where the regions are those of
    the line-by-line reading: a line whose trimmed content begins with three
    backticks toggles the state, and a fence still open at the end extends
    to the end of the document. *)
Theorem detectLiquidTags_skips_fences (markdown : str) (t : LiquidTagMatch) :
  In t (tags (detectLiquidTags markdown)) ->
  exists h pre tail,
    (In h (exec_all blockTagPattern markdown) /\ t = block_tag markdown h
     \/ In h (exec_all inlineTagPattern markdown) /\ t = inline_tag markdown h)
    /\ markdown = pre ++ fullMatch t ++ tail
    /\ h_index h = length pre
    /\ Spec.in_fenced_region markdown (h_index h) = false.
Proof.
  revert t. apply Forall_forall. apply detected_Forall.
  - intros h Hin Hout.
    destruct (exec_all_located _ _ _ Hin) as (pre & tail & Hs & Hi & _).
    exists h, pre, tail. rewrite <- fence_ranges_spec. auto.
  - intros h Hin Hout.
    destruct (exec_all_located _ _ _ Hin) as (pre & tail & Hs & Hi & _).
    exists h, pre, tail. rewrite <- fence_ranges_spec. auto.
Qed.

Lemma detectLiquidTags_skips_fences_witness :
  let markdown : str :=
    doc ["Real tag: {% youtube abc %}"; "```"; "{% youtube xyz %}"; "```"] in
  let t := mkTag "youtube" "abc" "{% youtube abc %}" 1 false false in
  exists h pre tail,
    (In h (exec_all blockTagPattern markdown) /\ t = block_tag markdown h
     \/ In h (exec_all inlineTagPattern markdown) /\ t = inline_tag markdown h)
    /\ markdown = pre ++ fullMatch t ++ tail
    /\ h_index h = length pre
    /\ Spec.in_fenced_region markdown (h_index h) = false.
Proof.
  intros markdown t.
  apply (detectLiquidTags_skips_fences markdown t).
  vm_compute. left. reflexivity.
Defined.

(** A well-formed tag inside a fence is not reported, also when the fence is
    never closed. *)
Example detectLiquidTags_fenced :
  tags (detectLiquidTags (doc ["```"; "{% youtube x %}"; "```"])) = []
  /\ tags (detectLiquidTags (doc ["intro"; "```"; "{% youtube x %}"])) = [].
Proof. split; vm_compute; reflexivity. Qed.

(* ------------------------------------------------------------------ *)
(** ** The front-matter merger *)






(** What a merge that goes through the two loops returns. *)
Lemma mergeAndNormalize_object matter (b : str) jsonParams fm :
  b <> [] ->
  parseFrontMatter matter b = Ok fm ->
  hasFrontMatter fm = true ->
  is_object (extractedValues fm) = true ->
  mergeAndNormalize matter (Some b) jsonParams
  = Ok (mkMerge (cleanBody fm)
          (fst (fold_left (override_round (mapping_of (extractedValues fm)))
                  jsonParams
                  (fold_left (seed_round (mapping_of (extractedValues fm)))
                     KNOWN_FIELDS [], [])))
          (snd (fold_left (override_round (mapping_of (extractedValues fm)))
                  jsonParams
                  (fold_left (seed_round (mapping_of (extractedValues fm)))
                     KNOWN_FIELDS [], [])))).
Proof.
  intros Hb Hp Hf Ho. unfold mergeAndNormalize.
  destruct b as [|c t]; [congruence|].
  rewrite Hp. cbn [bind]. rewrite Hf. cbn [negb].
  rewrite seed_loop_object by exact Ho. cbn [bind].
  rewrite override_loop_object by exact Ho. reflexivity.
Qed.




(* ------------------------------------------------------------------ *)
(** ** Conflict detection in the validation report *)

(** C2, on the code.  The body carries the tags [javascript] and
    [typescript] as a list; the explicit tags are the text
    [javascript, typescript], which is what tag normalisation makes of the
    list.  The merger, which normalises both sides, records no conflict.
    The validation report compares [String(list)], which joins with a bare
    comma, and carries a conflict warning for [tags]. *)
Theorem validateArticle_tags_compared_raw matter :
  let b : str :=
    doc ["---"; "tags:"; "  - javascript"; "  - typescript"; "---";
         "Body text"] in
  let p :=
    mkParams (Some ("T" : str)) (Some b)
      (Some (TagsString "javascript, typescript")) None None None None in
  matter b
  = Ok (mkMatter "Body text"
          (JObj
             [("tags" : str, JArr [JStr "javascript"; JStr "typescript"])])) ->
  (exists r,
     validateArticle matter p = Ok r
     /\ filter is_conflict (issues r)
        = [mkIssue warning front_matter_conflict
             ("Front matter " ++ [DQ] ++ "tags" ++ [DQ] ++ " value " ++ [DQ]
              ++ "javascript,typescript" ++ [DQ]
              ++ " conflicts with parameter " ++ [DQ]
              ++ "javascript, typescript" ++ [DQ]
              ++ ". Parameter value will be used.") None])
  /\ (exists m,
        mergeAndNormalize matter (Some b)
          [("title" : str, JStr "T");
           ("tags" : str, JStr "javascript, typescript")] = Ok m
        /\ conflicts m = []
        /\ get (params m) "tags" = JStr "javascript, typescript").
Proof.
  intros b p Hm.
  assert (Hp : parseFrontMatter matter b
               = Ok (mkFM "Body text"
                       (JObj
                          [("tags" : str,
                            JArr [JStr "javascript"; JStr "typescript"])])
                       true)).
  { rewrite (parseFrontMatter_found matter b _ 1 eq_refl Hm eq_refl).
    reflexivity. }
  split.
  - unfold validateArticle.
    rewrite (check_front_matter_found matter p b _ _ eq_refl eq_refl Hp eq_refl).
    cbn [bind]. eexists. split; [reflexivity|].
    vm_compute. reflexivity.
  - assert (Hne : b <> []) by (vm_compute; discriminate).
    rewrite (mergeAndNormalize_object matter b _ _ Hne Hp eq_refl eq_refl).
    eexists. split; [reflexivity|].
    vm_compute. auto.
Qed.

Lemma validateArticle_tags_compared_raw_witness :
  exists r,
    validateArticle GrayMatter.matter
      (mkParams (Some ("T" : str))
         (Some (doc ["---"; "tags:"; "  - javascript"; "  - typescript";
                     "---"; "Body text"]))
         (Some (TagsString "javascript, typescript")) None None None None)
    = Ok r
    /\ length (filter is_conflict (issues r)) = 1.
Proof.
  destruct (validateArticle_tags_compared_raw GrayMatter.matter)
    as [[r [Hr Hc]] _].
  - vm_compute. reflexivity.
  - exists r. split; [exact Hr|]. rewrite Hc. reflexivity.
Defined.

(* ------------------------------------------------------------------ *)
(** ** The liquid tag stripper *)

(** Each pass hands back unchanged a match that starts inside a fenced
    region of the string it runs over. *)
Lemma block_replacer_fenced (result : str) h :
  Spec.in_fenced_region result (h_index h) = true ->
  block_replacer result h = Ok (h_text h).
Proof.
  intros H. unfold block_replacer. now rewrite fence_ranges_spec, H.
Qed.

Lemma inline_replacer_fenced (result : str) h :
  Spec.in_fenced_region result (h_index h) = true ->
  inline_replacer result h = Ok (h_text h).
Proof.
  intros H. unfold inline_replacer. rewrite fence_ranges_spec, H.
  destruct (startsWith _ _); reflexivity.
Qed.

(** The tag inside a fence is kept when nothing else surrounds the fence. *)
Example stripLiquidTags_keeps_fenced_tag :
  stripLiquidTags (doc ["```"; "{% youtube abc %}"; "```"])
  = Ok (doc ["```"; "{% youtube abc %}"; "```"]).
Proof. vm_compute. reflexivity. Qed.

(** A block match that ends inside a fence takes the opening of the fence
    with it; the tag that stood inside the fence is then converted. *)
Example stripLiquidTags_converts_fenced_tag :
  let markdown : str :=
    doc ["{% youtube a %}"; "```"; "{% endyoutube %}"; "{% twitter 1 %}";
         "```"] in
  Spec.in_fenced_region markdown 37 = true
  /\ substring 37 52 markdown = "{% twitter 1 %}"
  /\ stripLiquidTags markdown
     = Ok (doc ["https://www.youtube.com/watch?v=a";
                "https://twitter.com/i/status/1"; "```"]).
Proof. vm_compute. auto. Qed.

(** C5, on the code.  The tag [{% youtube abc %}] starts at offset 17,
    inside the fence of lines 2 to 4.  The block match that starts at
    offset 0, outside the fence, runs through the fence to [{% endlink %}];
    its replacement drops the content, and the fenced tag with it. *)
Theorem stripLiquidTags_drops_fenced_tag :
  let markdown : str :=
    doc ["{% link a %}"; "```"; "{% youtube abc %}"; "```"; "{% endlink %}"] in
  substring 17 34 markdown = "{% youtube abc %}"
  /\ Spec.in_fenced_region markdown 17 = true
  /\ isInsideCodeFence (getCodeFenceRanges markdown) 17 = true
  /\ stripLiquidTags markdown = Ok (list_ascii_of_string "[a](a)").
Proof. vm_compute. auto. Qed.

(* ------------------------------------------------------------------ *)
(** ** Image references *)

Import Markdown.

Lemma fold_case_lower c :
  (if is_upper c then lower_char c else c) = Spec.fold_case c.
Proof.
  unfold Spec.fold_case, lower_char. destruct (is_upper c); reflexivity.
Qed.

Lemma lit_prefix_ci (w s : str) :
  lit_prefix is_char_ci w s
  = startsWith (map lower_char w) (map Spec.fold_case s).
Proof.
  revert s; induction w as [|a w IH]; intros [|c s]; simpl; try reflexivity.
  unfold is_char_ci at 1. rewrite fold_case_lower, IH. reflexivity.
Qed.

Lemma startsWith_app (a b s : str) :
  startsWith (a ++ b) s = startsWith a s && startsWith b (skipn (length a) s).
Proof.
  revert s; induction a as [|x a IH]; intros s; simpl; [reflexivity|].
  destruct s as [|y s]; simpl.
  - destruct b; reflexivity.
  - rewrite IH. now rewrite andb_assoc.
Qed.

(** The anchored pattern accepts the URLs that begin with one of the two
    schemes, in either case of the letters. *)
Lemma isAbsoluteUrl_scheme (u : str) :
  isAbsoluteUrl u = Spec.has_http_scheme u.
Proof.
  unfold isAbsoluteUrl, absoluteUrlPattern, Spec.has_http_scheme.
  cbn [Seqs]. rewrite test_anchored.
  cbn [rmatch]. rewrite rmatch_Lit, lit_prefix_ci.
  change (startsWith "http://" (map Spec.fold_case u))
    with (startsWith ("http" ++ "://") (map Spec.fold_case u)).
  change (startsWith "https://" (map Spec.fold_case u))
    with (startsWith ("http" ++ "s://") (map Spec.fold_case u)).
  rewrite !startsWith_app.
  change (map lower_char "http") with (list_ascii_of_string "http").
  destruct (startsWith "http" (map Spec.fold_case u)); [|reflexivity].
  rewrite skipn_map. cbn [andb ms_rest ms_pos ms_caps].
  change (length (list_ascii_of_string "http")) with 4.
  destruct (skipn 4 u) as [|c v]; [reflexivity|].
  rewrite !rmatch_Lit, !lit_prefix_ci.
  change (map lower_char "://") with (list_ascii_of_string "://").
  unfold is_char_ci. rewrite fold_case_lower.
  change (lower_char "s") with "s"%char.
  cbn [map].
  change (startsWith "s://" (Spec.fold_case c :: map Spec.fold_case v))
    with (Ascii.eqb "s" (Spec.fold_case c)
          && startsWith "://" (map Spec.fold_case v)).
  destruct (Ascii.eqb "s" (Spec.fold_case c)); cbn [andb].
  - destruct (startsWith "://" (map Spec.fold_case v)); cbn [rmatch].
    + now rewrite orb_true_r.
    + rewrite orb_false_r.
      destruct (startsWith "://" (Spec.fold_case c :: map Spec.fold_case v));
        reflexivity.
  - rewrite orb_false_r.
    destruct (startsWith "://" (Spec.fold_case c :: map Spec.fold_case v));
      reflexivity.
Qed.

Lemma push_image_loop n hs acc :
  fold_left (push_image n) hs acc = acc ++ map (Spec.reference n) hs.
Proof.
  revert acc; induction hs as [|h hs IH]; intros acc; simpl.
  - now rewrite app_nil_r.
  - rewrite IH. unfold push_image. now rewrite <- app_assoc.
Qed.

Lemma image_line_loop lines acc i :
  fold_left image_line_step lines (acc, i)
  = (acc ++ Spec.references_from (S i) lines, i + length lines).
Proof.
  revert acc i; induction lines as [|l lines IH]; intros acc i; simpl.
  - now rewrite app_nil_r, Nat.add_0_r.
  - unfold image_line_step at 2. cbn [fst snd].
    rewrite !push_image_loop, IH.
    replace (i + 1) with (S i) by lia.
    f_equal; [|lia]. now rewrite <- !app_assoc.
Qed.

Lemma references_from_lines lines : forall n,
  Forall (fun r => n <= lineNumber r < n + length lines)
    (Spec.references_from n lines)
  /\ StronglySorted (fun a b => lineNumber a <= lineNumber b)
       (Spec.references_from n lines).
Proof.
  induction lines as [|l lines IH]; intros n; simpl.
  - split; constructor.
  - destruct (IH (S n)) as [Hr Hs].
    assert (Hhere : forall hs,
              Forall (fun r => lineNumber r = n) (map (Spec.reference n) hs)).
    { intros hs. apply Forall_forall. intros r Hin.
      apply in_map_iff in Hin. destruct Hin as (h & <- & _). reflexivity. }
    assert (Hline : Forall (fun r => lineNumber r = n)
              (map (Spec.reference n) (exec_all markdownImagePattern l)
               ++ map (Spec.reference n) (exec_all htmlImagePattern l))).
    { apply Forall_app; split; apply Hhere. }
    rewrite app_assoc. revert Hline.
    generalize (map (Spec.reference n) (exec_all markdownImagePattern l)
                ++ map (Spec.reference n) (exec_all htmlImagePattern l)).
    intros here Hline. split.
    + apply Forall_app; split.
      * eapply Forall_impl; [|exact Hline]. simpl; intros; lia.
      * eapply Forall_impl; [|exact Hr]. simpl; intros; lia.
    + induction Hline as [|r here Hrn Hrest IHh]; simpl; [exact Hs|].
      constructor; [exact IHh|].
      apply Forall_app; split.
      * eapply Forall_impl; [|exact Hrest]. simpl; intros; lia.
      * eapply Forall_impl; [|exact Hr]. simpl; intros; lia.
Qed.

(** *** The constructs as the patterns read them *)
Lemma match_at_hit r rest pos h :
  match_at r rest pos = Some h ->
  h_index h = pos /\ length (h_text h) <= length rest.
Proof.
  unfold match_at. destruct (rmatch r Some _); [|discriminate].
  intros [= <-]. cbn. split; [reflexivity|]. rewrite length_firstn. lia.
Qed.

Lemma pieces_occurrences {A} r (find : Reference.finder A) keep :
  reads r find keep ->
  forall s pos skip,
    map (fun h => (h_index h, keep h)) (hits_of (pieces r s pos skip))
    = Reference.occurrences_from find s pos skip.
Proof.
  intros Hr. induction s as [|c t IH]; intros pos skip.
  - destruct skip; [|reflexivity]. cbn [pieces Reference.occurrences_from].
    specialize (Hr [] pos). destruct (find []) as [[n a]|].
    + destruct Hr as (Hn & h & Hm & Hl & _).
      apply match_at_hit in Hm. simpl in Hm. lia.
    + rewrite Hr. reflexivity.
  - destruct skip as [|k]; cbn [pieces Reference.occurrences_from];
      [|apply IH].
    specialize (Hr (c :: t) pos). destruct (find (c :: t)) as [[n a]|].
    + destruct Hr as (Hn & h & Hm & Hl & Hk). rewrite Hm.
      destruct (match_at_hit _ _ _ _ Hm) as [Hi _].
      rewrite Hl. destruct n as [|k]; [lia|].
      cbn [hits_of map]. rewrite Hi, Hk, IH.
      now replace (S k - 1) with k by lia.
    + rewrite Hr. cbn [hits_of]. apply IH.
Qed.


Lemma rmatch_Seq r1 r2 k s :
  rmatch (Seq r1 r2) k s = rmatch r1 (rmatch r2 k) s.
Proof. reflexivity. Qed.

Lemma rmatch_Chr p k rest pos caps :
  rmatch (Chr p) k (MState rest pos caps)
  = match rest with
    | c :: t => if p c then k (MState t (S pos) caps) else None
    | [] => None
    end.
Proof. reflexivity. Qed.

(** A pattern whose final state is known reads what the finder reads. *)
Lemma reads_final {A} r (find : Reference.finder A) keep
    (caps : str -> A -> list (nat * str)) :
  (forall rest pos,
     rmatch r Some (MState rest pos [])
     = match find rest with
       | Some (n, a) => Some (MState (skipn n rest) (pos + n) (caps rest a))
       | None => None
       end) ->
  (forall rest n a, find rest = Some (n, a) -> 1 <= n) ->
  (forall rest pos n a,
     find rest = Some (n, a) ->
     keep (Hit pos (firstn n rest) (caps rest a)) = a) ->
  reads r find keep.
Proof.
  intros Hfinal Hpos Hkeep rest pos. unfold match_at.
  pose proof (Hfinal rest pos) as E.
  destruct (find rest) as [[n a]|] eqn:Ef; [|now rewrite E].
  split; [eapply Hpos; eauto|].
  destruct (rmatch_reached _ _ _ _ E) as (s1 & w & [= ->] & [Hr1 Hr2] & _).
  cbn [ms_pos ms_rest] in *. rewrite E. cbn [ms_pos ms_caps].
  replace (pos + n - pos) with n by lia.
  eexists; split; [reflexivity|]. cbn [h_text]. split.
  - rewrite length_firstn. assert (n = length w) by lia. subst n.
    rewrite Hr1 at 1. rewrite length_app. lia.
  - eapply Hkeep; eauto.
Qed.

Lemma star_lazy_step p (k : cont) rest pos caps :
  star_lazy p k rest pos caps
  = match k (MState rest pos caps) with
    | Some r => Some r
    | None =>
        match rest with
        | c :: t => if p c then star_lazy p k t (S pos) caps else None
        | [] => None
        end
    end.
Proof. destruct rest; reflexivity. Qed.




(** *** Runs *)

Lemma before_run a (s : str) : Reference.before a s = run_len (is_not a) s.
Proof. reflexivity. Qed.

(** Where a run of characters other than [a] stops, the text ends or [a]
    stands. *)
Lemma index_where_before a (s : str) :
  Reference.index_where (Ascii.eqb a) s
  = match skipn (Reference.before a s) s with
    | c :: _ => Some (Reference.before a s)
    | [] => None
    end
  /\ (forall c t, skipn (Reference.before a s) s = c :: t -> c = a).
Proof.
  induction s as [|x s [IH1 IH2]]; [split; [reflexivity|discriminate]|].
  unfold Reference.before in *. cbn [Reference.index_where run_len].
  destruct (Ascii.eqb_spec a x) as [->|Hne]; cbn [negb skipn].
  - split; [reflexivity|]. now intros c t [= <- _].
  - rewrite IH1. split; [|exact IH2].
    destruct (skipn _ s); reflexivity.
Qed.

Lemma run_len_skipn p (s : str) i :
  i < run_len p s ->
  exists c t, skipn i s = c :: t /\ p c = true.
Proof.
  revert i; induction s as [|x s IH]; intros i; simpl; [lia|].
  destruct (p x) eqn:E; [|lia].
  destruct i as [|i]; intros H.
  - now exists x, s.
  - apply IH. lia.
Qed.

(** A greedy run after which the continuation fails everywhere but at the
    end of the run stops at the end of the run. *)
Lemma star_greedy_stop p (k : cont) : forall (rest : str) pos caps,
  (forall i, i < run_len p rest ->
             k (MState (skipn i rest) (pos + i) caps) = None) ->
  star_greedy p k rest pos caps
  = k (MState (skipn (run_len p rest) rest) (pos + run_len p rest) caps).
Proof.
  induction rest as [|c t IH]; intros pos caps H; cbn [star_greedy run_len].
  - cbn [skipn]. now rewrite Nat.add_0_r.
  - destruct (p c) eqn:E.
    + rewrite IH.
      * cbn [skipn]. replace (S pos + run_len p t) with (pos + S (run_len p t)) by lia.
        destruct (k _); [reflexivity|].
        specialize (H 0). cbn [run_len skipn] in H. rewrite E in H.
        rewrite Nat.add_0_r in H. apply H. lia.
      * intros i Hi. specialize (H (S i)). cbn [run_len skipn] in H.
        rewrite E in H. replace (S pos + i) with (pos + S i) by lia.
        apply H. lia.
    + cbn [skipn]. now rewrite Nat.add_0_r.
Qed.




(** *** Lines *)

Lemma line_of_prefix (s : str) : exists tail, s = Reference.line_of s ++ tail.
Proof.
  induction s as [|c t [tail IH]]; [now exists []|].
  cbn [Reference.line_of]. destruct (is_line_terminator c).
  - now exists (c :: t).
  - exists tail. cbn [app]. now rewrite <- IH.
Qed.

Lemma line_of_dot c (t : str) :
  is_dot c = true -> Reference.line_of (c :: t) = c :: Reference.line_of t.
Proof.
  unfold is_dot. cbn [Reference.line_of].
  now destruct (is_line_terminator c).
Qed.

Lemma line_of_end c (t : str) :
  is_dot c = false -> Reference.line_of (c :: t) = [].
Proof.
  unfold is_dot. cbn [Reference.line_of].
  now destruct (is_line_terminator c).
Qed.

Lemma index_where_lt p (s : str) j :
  Reference.index_where p s = Some j -> j < length s.
Proof.
  revert j; induction s as [|c t IH]; intros j; cbn; [discriminate|].
  destruct (p c); [intros [= <-]; lia|].
  destruct (Reference.index_where p t) as [i|]; [|discriminate].
  intros [= <-]. specialize (IH i eq_refl). lia.
Qed.

Lemma index_where_skipn p (s : str) k :
  Reference.index_where p s = None ->
  Reference.index_where p (skipn k s) = None.
Proof.
  revert k; induction s as [|c t IH]; intros k; [now destruct k|].
  cbn [Reference.index_where]. destruct (p c) eqn:E; [discriminate|].
  destruct (Reference.index_where p t) as [i|] eqn:Ei; [discriminate|].
  intros _. destruct k as [|k]; cbn [skipn Reference.index_where].
  - now rewrite E, Ei.
  - now apply IH.
Qed.

(** The first characters of a line are those of the text. *)
Lemma firstn_line_of (s : str) j :
  j <= length (Reference.line_of s) ->
  firstn j (Reference.line_of s) = firstn j s.
Proof.
  intros H. destruct (line_of_prefix s) as [tail E].
  rewrite E at 2. rewrite firstn_app.
  replace (j - length (Reference.line_of s)) with 0 by lia.
  cbn [firstn]. now rewrite app_nil_r.
Qed.

Lemma skipn_line_of (s : str) k :
  k <= length (Reference.line_of s) ->
  skipn k (Reference.line_of s) = Reference.line_of (skipn k s).
Proof.
  revert k; induction s as [|c t IH]; intros k; [now destruct k|].
  destruct k as [|k]; [reflexivity|].
  cbn [Reference.line_of]. destruct (is_line_terminator c) eqn:E.
  - cbn [length]. lia.
  - cbn [length skipn]. intros H. apply IH. lia.
Qed.

(** A lazy run of characters of a line followed by a character of the
    class [q], itself a character of a line: the first such character of
    the line. *)
Lemma star_lazy_dot_until q (g : mstate -> list (nat * str)) :
  (forall c, q c = true -> is_dot c = true) ->
  forall (t : str) pos caps,
    star_lazy is_dot
      (fun s' =>
         rmatch (Chr q) Some (MState (ms_rest s') (ms_pos s') (g s')))
      t pos caps
    = match Reference.index_where q (Reference.line_of t) with
      | Some j =>
          Some (MState (skipn (S j) t) (pos + S j)
                  (g (MState (skipn j t) (pos + j) caps)))
      | None => None
      end.
Proof.
  intros Hq. induction t as [|c t IH]; intros pos caps;
    rewrite star_lazy_step; cbv beta; rewrite rmatch_Chr;
    cbn [ms_rest ms_pos ms_caps]; [reflexivity|].
  destruct (q c) eqn:Ec.
  - rewrite (line_of_dot _ _ (Hq _ Ec)). cbn [Reference.index_where].
    rewrite Ec. cbn [skipn]. rewrite Nat.add_0_r.
    do 2 f_equal. lia.
  - destruct (is_dot c) eqn:Ed.
    + rewrite IH, (line_of_dot _ _ Ed). cbn [Reference.index_where].
      rewrite Ec.
      destruct (Reference.index_where q (Reference.line_of t)) as [j|];
        cbn [option_map skipn]; [|reflexivity].
      replace (S pos + S j) with (pos + S (S j)) by lia.
      replace (S pos + j) with (pos + S j) by lia. reflexivity.
    + now rewrite (line_of_end _ _ Ed).
Qed.

Lemma startsWith_line_of (w s : str) :
  forallb is_dot w = true ->
  startsWith w (Reference.line_of s) = startsWith w s.
Proof.
  revert s; induction w as [|a w IH]; intros s Hw; [reflexivity|].
  cbn [forallb] in Hw. apply andb_prop in Hw. destruct Hw as [Ha Hw].
  destruct s as [|c t]; [reflexivity|].
  cbn [Reference.line_of]. destruct (is_line_terminator c) eqn:E.
  - cbn [startsWith]. destruct (Ascii.eqb_spec a c) as [->|]; [|reflexivity].
    unfold is_dot in Ha. rewrite E in Ha. discriminate.
  - cbn [startsWith]. now rewrite IH.
Qed.

(** The lazy alternative text of an image: it ends at the first [](] of
    the line. *)
Lemma star_lazy_image (K1 : cont) (G : str -> nat -> list (nat * str)) :
  (forall (u : str) p,
     K1 (MState u p [])
     = if startsWith "](" u then
         match
           Reference.index_where (Ascii.eqb ")")
             (Reference.line_of (skipn 2 u))
         with
         | Some j => Some (MState (skipn (j + 3) u) (p + (j + 3)) (G u j))
         | None => None
         end
       else None) ->
  forall (t : str) pos,
    star_lazy is_dot K1 t pos []
    = match Reference.index_of "](" (Reference.line_of t) with
      | Some i =>
          match
            Reference.index_where (Ascii.eqb ")")
              (skipn (i + 2) (Reference.line_of t))
          with
          | Some j =>
              Some (MState (skipn (i + j + 3) t) (pos + (i + j + 3))
                      (G (skipn i t) j))
          | None => None
          end
      | None => None
      end.
Proof.
  intros HK. induction t as [|c t IH]; intros pos;
    rewrite star_lazy_step, HK.
  - reflexivity.
  - assert (Hw : forallb is_dot (list_ascii_of_string "](") = true)
      by reflexivity.
    pose proof (startsWith_line_of "](" (c :: t) Hw) as Hs.
    destruct (startsWith "](" (c :: t)) eqn:E.
    + (* the text begins with the two characters *)
      destruct t as [|c2 t2];
        [cbn [startsWith list_ascii_of_string] in E;
         rewrite andb_false_r in E; discriminate|].
      assert (Hc : c = "]"%char /\ c2 = "("%char).
      { cbn [startsWith list_ascii_of_string] in E.
        destruct (Ascii.eqb_spec "]" c); [|discriminate].
        destruct (Ascii.eqb_spec "(" c2); [|discriminate]. now split. }
      destruct Hc as [-> ->].
      rewrite !line_of_dot in * by reflexivity.
      cbn [Reference.index_of]. rewrite Hs. cbn [Nat.add skipn].
      destruct (Reference.index_where (Ascii.eqb ")") (Reference.line_of t2))
        as [j|] eqn:Ej; [reflexivity|].
      change (is_dot "]") with true. cbv iota. rewrite IH.
      destruct (Reference.index_of "](" ("("%char :: Reference.line_of t2))
        as [i|]; [|reflexivity].
      replace (i + 2) with (S (S i)) by lia.
      change (skipn (S (S i)) ("("%char :: Reference.line_of t2))
        with (skipn (S i) (Reference.line_of t2)).
      now rewrite (index_where_skipn _ _ (S i) Ej).
    + destruct (is_dot c) eqn:Ed.
      * rewrite IH. rewrite line_of_dot in * by exact Ed.
        cbn [Reference.index_of]. rewrite Hs.
        destruct (Reference.index_of "](" (Reference.line_of t)) as [i|];
          cbn [option_map]; [|reflexivity].
        cbn [Nat.add skipn].
        destruct (Reference.index_where _ _) as [j|]; [|reflexivity].
        do 2 f_equal. lia.
      * now rewrite line_of_end by exact Ed.
Qed.

Lemma paren_is_dot c : Ascii.eqb ")" c = true -> is_dot c = true.
Proof. intros H. apply Ascii.eqb_eq in H. now subst c. Qed.

(** The continuation of the image pattern after the alternative text,
    with the URL captured. *)
Lemma image_target_captured (u : str) p :
  rmatch
    (Seqs [ Lit is_char "]("; Group 1 (Star false is_dot); Lit is_char ")" ])
    Some (MState u p [])
  = if startsWith "](" u then
      match
        Reference.index_where (Ascii.eqb ")") (Reference.line_of (skipn 2 u))
      with
      | Some j =>
          Some (MState (skipn (j + 3) u) (p + (j + 3))
                  [(1, firstn j (skipn 2 u))])
      | None => None
      end
    else None.
Proof.
  cbn [Seqs]. rewrite rmatch_Seq, rmatch_Lit, lit_prefix_exact.
  destruct (startsWith "](" u); [|reflexivity].
  change (length (list_ascii_of_string "](")) with 2.
  rewrite rmatch_Seq.
  change (rmatch (Group 1 (Star false is_dot))
            (rmatch (Seq (Lit is_char ")") Eps) Some)
            (MState (skipn 2 u) (p + 2) []))
    with (star_lazy is_dot
            (fun s' =>
               rmatch (Chr (Ascii.eqb ")")) Some
                 (MState (ms_rest s') (ms_pos s')
                    ((fun s' => (1, firstn (ms_pos s' - (p + 2)) (skipn 2 u))
                                :: ms_caps s') s')))
            (skipn 2 u) (p + 2) []).
  rewrite (star_lazy_dot_until _ _ paren_is_dot).
  destruct (Reference.index_where _ _) as [j|]; [|reflexivity].
  cbn [ms_pos ms_caps]. rewrite skipn_skipn.
  replace (p + 2 + j - (p + 2)) with j by lia.
  replace (S j + 2) with (j + 3) by lia.
  do 2 f_equal. lia.
Qed.


(** The URL read on the line is the URL read in the text. *)
Lemma image_url (t : str) i j :
  Reference.index_where (Ascii.eqb ")") (skipn (i + 2) (Reference.line_of t))
  = Some j ->
  firstn j (skipn (i + 2) (Reference.line_of t))
  = firstn j (skipn 2 (skipn i t)).
Proof.
  intros H. apply index_where_lt in H. rewrite length_skipn in H.
  rewrite skipn_line_of by lia.
  rewrite skipn_skipn. replace (2 + i) with (i + 2) by lia.
  apply firstn_line_of.
  rewrite <- skipn_line_of by lia. rewrite length_skipn. lia.
Qed.

Lemma markdownImagePattern_final rest pos :
  rmatch markdownImagePattern Some (MState rest pos [])
  = match Reference.markdown_image rest with
    | Some (n, u) => Some (MState (skipn n rest) (pos + n) [(1, u)])
    | None => None
    end.
Proof.
  unfold markdownImagePattern, Reference.markdown_image.
  change (Seqs [ Lit is_char "!["; Star false is_dot; Lit is_char "](";
                 Group 1 (Star false is_dot); Lit is_char ")" ])
    with (Seq (Lit is_char "![")
            (Seq (Star false is_dot)
               (Seqs [ Lit is_char "]("; Group 1 (Star false is_dot);
                       Lit is_char ")" ]))).
  rewrite rmatch_Seq, rmatch_Lit, lit_prefix_exact.
  destruct (startsWith "![" rest); [|reflexivity].
  change (length (list_ascii_of_string "![")) with 2.
  rewrite rmatch_Seq.
  change (rmatch (Star false is_dot) ?k (MState ?r ?p ?c))
    with (star_lazy is_dot k r p c).
  rewrite (star_lazy_image _ (fun u j => [(1, firstn j (skipn 2 u))]))
    by (intros; apply image_target_captured).
  cbv zeta.
  destruct (Reference.index_of "](" _) as [i|]; [|reflexivity].
  destruct (Reference.index_where _ _) as [j|] eqn:Ej; [|reflexivity].
  rewrite (image_url _ _ _ Ej), skipn_skipn.
  do 2 f_equal; [f_equal|]; lia.
Qed.

Lemma markdownImagePattern_reads :
  reads markdownImagePattern Reference.markdown_image (h_group 1).
Proof.
  apply (reads_final _ _ _ (fun _ u => [(1, u)])).
  - intros rest pos. rewrite markdownImagePattern_final.
    now destruct (Reference.markdown_image rest) as [[n u]|].
  - intros rest n a. unfold Reference.markdown_image.
    destruct (startsWith _ _); [|discriminate]. cbv zeta.
    destruct (Reference.index_of _ _); [|discriminate].
    destruct (Reference.index_where _ _); [|discriminate].
    intros [= <- _]. lia.
  - reflexivity.
Qed.




(** *** Links *)



(** *** HTML images *)

Lemma is_quote_mark_spec c : is_quote c = Reference.is_quote_mark c.
Proof. destruct c as [[] [] [] [] [] [] [] []]; reflexivity. Qed.

Lemma quote_is_dot c : is_quote c = true -> is_dot c = true.
Proof. destruct c as [[] [] [] [] [] [] [] []]; now cbn. Qed.

Lemma closer_ci c : is_char_ci ">" c = Ascii.eqb ">" c.
Proof. destruct c as [[] [] [] [] [] [] [] []]; reflexivity. Qed.

Lemma index_where_ext p q (s : str) :
  (forall c, p c = q c) ->
  Reference.index_where p s = Reference.index_where q s.
Proof.
  intros H. induction s as [|c t IH]; [reflexivity|].
  cbn [Reference.index_where]. now rewrite H, IH.
Qed.

(** What follows the value of the attribute: the rest of the tag, up to
    and including the next [>]. *)
Lemma tag_end (w : str) p caps :
  rmatch (Seqs [ Star true (is_not ">"%char); Lit is_char_ci ">" ]) Some
    (MState w p caps)
  = match Reference.index_where (Ascii.eqb ">") w with
    | Some m => Some (MState (skipn (S m) w) (p + S m) caps)
    | None => None
    end.
Proof.
  change (rmatch (Seqs [ Star true (is_not ">"%char); Lit is_char_ci ">" ])
            Some (MState w p caps))
    with (star_greedy (is_not ">"%char)
            (rmatch (Chr (is_char_ci ">"%char)) Some) w p caps).
  rewrite star_greedy_stop.
  - destruct (index_where_before ">" w) as [-> Hb].
    rewrite <- before_run, rmatch_Chr.
    destruct (skipn (Reference.before ">" w) w) as [|c t] eqn:E;
      [reflexivity|].
    rewrite (Hb _ _ eq_refl), closer_ci, Ascii.eqb_refl.
    replace (skipn (S (Reference.before ">" w)) w) with t.
    + do 2 f_equal. lia.
    + change (S (Reference.before ">" w))
        with (1 + Reference.before ">" w).
      rewrite <- skipn_skipn, E. reflexivity.
  - intros i Hi. destruct (run_len_skipn _ _ _ Hi) as (c & t & -> & Hc).
    rewrite rmatch_Chr, closer_ci. unfold is_not in Hc.
    destruct (Ascii.eqb ">" c); [discriminate|reflexivity].
Qed.

(** The lazy value of the attribute: it ends at the first quote mark of
    the line, which must be followed by the end of a tag. *)
Lemma star_lazy_value (T : cont) (g : mstate -> list (nat * str)) :
  (forall (w : str) p caps,
     T (MState w p caps)
     = match Reference.index_where (Ascii.eqb ">") w with
       | Some m => Some (MState (skipn (S m) w) (p + S m) caps)
       | None => None
       end) ->
  forall (v : str) p caps,
    star_lazy is_dot
      (fun s' =>
         rmatch (Chr is_quote) T (MState (ms_rest s') (ms_pos s') (g s')))
      v p caps
    = match
        Reference.index_where Reference.is_quote_mark (Reference.line_of v)
      with
      | Some j =>
          match Reference.index_where (Ascii.eqb ">") (skipn (j + 1) v) with
          | Some m =>
              Some (MState (skipn (j + m + 2) v) (p + (j + m + 2))
                      (g (MState (skipn j v) (p + j) caps)))
          | None => None
          end
      | None => None
      end.
Proof.
  intros HT. induction v as [|x v IH]; intros p caps;
    rewrite star_lazy_step; cbv beta; rewrite rmatch_Chr;
    cbn [ms_rest ms_pos ms_caps]; [reflexivity|].
  destruct (is_quote x) eqn:Eq.
  - rewrite (line_of_dot _ _ (quote_is_dot _ Eq)).
    cbn [Reference.index_where]. rewrite <- is_quote_mark_spec, Eq.
    cbn [Nat.add skipn]. rewrite HT.
    destruct (Reference.index_where (Ascii.eqb ">") v) as [m|] eqn:Em.
    + rewrite Nat.add_0_r. replace (m + 2) with (S (S m)) by lia.
      cbn [skipn]. do 2 f_equal. lia.
    + rewrite (quote_is_dot _ Eq), IH.
      destruct (Reference.index_where _ (Reference.line_of v)) as [j|];
        [|reflexivity].
      now rewrite (index_where_skipn _ _ (j + 1) Em).
  - destruct (is_dot x) eqn:Ed.
    + rewrite IH, (line_of_dot _ _ Ed). cbn [Reference.index_where].
      rewrite <- is_quote_mark_spec, Eq.
      destruct (Reference.index_where _ (Reference.line_of v)) as [j|];
        cbn [option_map Nat.add skipn]; [|reflexivity].
      destruct (Reference.index_where _ _) as [m|]; [|reflexivity].
      f_equal. f_equal; [lia|]. f_equal. f_equal. lia.
    + now rewrite (line_of_end _ _ Ed).
Qed.

Lemma attributePattern_final (u : str) p caps :
  rmatch attributePattern Some (MState u p caps)
  = match Reference.src_attribute u with
    | Some (len, value) =>
        Some (MState (skipn len u) (p + len) ((1, value) :: caps))
    | None => None
    end.
Proof.
  unfold attributePattern, Reference.src_attribute.
  change (Seqs [ Lit is_char_ci "src="; Chr is_quote;
                 Group 1 (Star false is_dot); Chr is_quote;
                 Star true (is_not ">"%char); Lit is_char_ci ">" ])
    with (Seq (Lit is_char_ci "src=")
            (Seq (Chr is_quote)
               (Seq (Group 1 (Star false is_dot))
                  (Seq (Chr is_quote)
                     (Seqs [ Star true (is_not ">"%char);
                             Lit is_char_ci ">" ]))))).
  rewrite rmatch_Seq, rmatch_Lit, lit_prefix_ci.
  change (map lower_char "src=") with (list_ascii_of_string "src=").
  destruct (startsWith "src=" (map Spec.fold_case u)); [|reflexivity].
  change (length (list_ascii_of_string "src=")) with 4.
  rewrite rmatch_Seq, rmatch_Chr.
  destruct (skipn 4 u) as [|q v] eqn:Ev; [reflexivity|].
  rewrite <- is_quote_mark_spec.
  destruct (is_quote q); [|reflexivity].
  rewrite rmatch_Seq.
  set (T := rmatch (Seqs [ Star true (is_not ">"%char);
                           Lit is_char_ci ">" ]) Some).
  change (rmatch (Group 1 (Star false is_dot)) (rmatch (Seq (Chr is_quote) (Seqs [ Star true (is_not ">"%char); Lit is_char_ci ">" ])) Some)
            (MState v (S (p + 4)) caps))
    with (star_lazy is_dot
            (fun s' =>
               rmatch (Chr is_quote) T
                 (MState (ms_rest s') (ms_pos s')
                    ((fun s' => (1, firstn (ms_pos s' - S (p + 4)) v)
                                :: ms_caps s') s')))
            v (S (p + 4)) caps).
  rewrite (star_lazy_value T _ (fun w p caps => tag_end w p caps)).
  destruct (Reference.index_where _ (Reference.line_of v)) as [j|];
    [|reflexivity].
  destruct (Reference.index_where _ _) as [m|]; [|reflexivity].
  cbn [ms_pos ms_caps].
  replace (S (p + 4) + j - S (p + 4)) with j by lia.
  assert (E : skipn (j + m + 7) u = skipn (j + m + 2) v).
  { change (skipn (j + m + 2) v) with (skipn (S (j + m + 2)) (q :: v)).
    rewrite <- Ev, skipn_skipn. f_equal. lia. }
  rewrite E. do 2 f_equal. lia.
Qed.

(** The greedy run before the attribute gives way until an attribute is
    read: the last one that begins within the run. *)
Lemma star_greedy_last_src p : forall (t : str) pos caps,
  star_greedy p (rmatch attributePattern Some) t pos caps
  = match Reference.last_src t (run_len p t) with
    | Some (len, value) =>
        Some (MState (skipn len t) (pos + len) ((1, value) :: caps))
    | None => None
    end.
Proof.
  induction t as [|c t IH]; intros pos caps; cbn [star_greedy run_len].
  - rewrite attributePattern_final. cbn [Reference.last_src].
    now destruct (Reference.src_attribute []) as [[len value]|].
  - destruct (p c).
    + rewrite IH. cbn [Reference.last_src].
      destruct (Reference.last_src t (run_len p t)) as [[len value]|].
      * cbn [skipn]. do 2 f_equal. lia.
      * rewrite attributePattern_final.
        now destruct (Reference.src_attribute (c :: t)) as [[len value]|].
    + rewrite attributePattern_final. cbn [Reference.last_src].
      now destruct (Reference.src_attribute (c :: t)) as [[len value]|].
Qed.

Lemma htmlImagePattern_final rest pos :
  rmatch htmlImagePattern Some (MState rest pos [])
  = match Reference.html_image rest with
    | Some (n, u) => Some (MState (skipn n rest) (pos + n) [(1, u)])
    | None => None
    end.
Proof.
  unfold htmlImagePattern, Reference.html_image, Plus.
  change (Seqs [ Lit is_char_ci "<img";
                 Seq (Chr (is_not ">"%char)) (Star true (is_not ">"%char));
                 Lit is_char_ci "src="; Chr is_quote;
                 Group 1 (Star false is_dot); Chr is_quote;
                 Star true (is_not ">"%char); Lit is_char_ci ">" ])
    with (Seq (Lit is_char_ci "<img")
            (Seq (Seq (Chr (is_not ">"%char)) (Star true (is_not ">"%char)))
               attributePattern)).
  rewrite rmatch_Seq, rmatch_Lit, lit_prefix_ci.
  change (map lower_char "<img") with (list_ascii_of_string "<img").
  destruct (startsWith "<img" (map Spec.fold_case rest)); [|reflexivity].
  change (length (list_ascii_of_string "<img")) with 4.
  rewrite !rmatch_Seq, rmatch_Chr.
  destruct (skipn 4 rest) as [|c t] eqn:Et; [reflexivity|].
  unfold is_not at 1. rewrite (Ascii.eqb_sym c ">").
  destruct (Ascii.eqb ">" c); cbn [negb]; [reflexivity|].
  change (rmatch (Star true (is_not ">"%char)) (rmatch attributePattern Some)
            (MState t (S (pos + 4)) []))
    with (star_greedy (is_not ">"%char) (rmatch attributePattern Some)
            t (S (pos + 4)) []).
  rewrite star_greedy_last_src, <- before_run.
  destruct (Reference.last_src t (Reference.before ">" t))
    as [[len value]|]; [|reflexivity].
  assert (E : skipn (len + 5) rest = skipn len t).
  { change (skipn len t) with (skipn (S len) (c :: t)).
    rewrite <- Et, skipn_skipn. f_equal. lia. }
  rewrite E. do 2 f_equal. lia.
Qed.

Lemma htmlImagePattern_reads :
  reads htmlImagePattern Reference.html_image (h_group 1).
Proof.
  apply (reads_final _ _ _ (fun _ u => [(1, u)])).
  - intros rest pos. rewrite htmlImagePattern_final.
    now destruct (Reference.html_image rest) as [[n u]|].
  - intros rest n a. unfold Reference.html_image.
    destruct (startsWith _ _); [|discriminate].
    destruct (skipn 4 rest); [discriminate|].
    destruct (Ascii.eqb _ _); [discriminate|].
    destruct (Reference.last_src _ _) as [[len value]|]; [|discriminate].
    intros [= <- _]. lia.
  - reflexivity.
Qed.

(** *** The occurrences the loops find *)

Lemma exec_all_occurrences r (find : Reference.finder str) (s : str) :
  reads r find (h_group 1) ->
  map (h_group 1) (exec_all r s) = Reference.occurrences find s.
Proof.
  intros Hr. unfold Reference.occurrences, Reference.located, exec_all.
  rewrite <- (pieces_occurrences _ _ _ Hr), map_map. reflexivity.
Qed.

Lemma reference_read n (hs : list hit) :
  map (Spec.reference n) hs
  = map (Reference.image_reference n) (map (h_group 1) hs).
Proof.
  rewrite map_map. apply map_ext. intros h.
  unfold Spec.reference, Reference.image_reference.
  now rewrite isAbsoluteUrl_scheme.
Qed.

Lemma references_from_read lines : forall n,
  Spec.references_from n lines = Reference.image_references n lines.
Proof.
  induction lines as [|l lines IH]; intros n; [reflexivity|].
  cbn [Spec.references_from Reference.image_references].
  rewrite !reference_read, IH.
  rewrite (exec_all_occurrences _ _ _ markdownImagePattern_reads).
  rewrite (exec_all_occurrences _ _ _ htmlImagePattern_reads).
  reflexivity.
Qed.

(** C6.  The references of a document are those of its lines in document
    order, each line numbered from 1.  A line contributes its markdown
    images from left to right, and after them its HTML images from left to
    right; the images are read from the text of the line, not by the
    patterns of the code.  The line numbers never decrease along the list
    and lie between 1 and the number of lines, and a reference is absolute
    exactly when its URL begins with [http://] or [https://] in any case of
    the letters. *)
Theorem extractImageUrls_line_by_line (markdown : str) :
  extractImageUrls markdown
  = Reference.image_references 1 (split_char LF markdown)
  /\ StronglySorted (fun a b => lineNumber a <= lineNumber b)
       (extractImageUrls markdown)
  /\ Forall (fun r => 1 <= lineNumber r <= length (split_char LF markdown))
       (extractImageUrls markdown)
  /\ Forall (fun r => isAbsolute r = Spec.has_http_scheme (url r))
       (extractImageUrls markdown).
Proof.
  assert (Hclosed : extractImageUrls markdown
                    = Spec.references_from 1 (split_char LF markdown)).
  { unfold extractImageUrls. destruct markdown as [|c m].
    - vm_compute. reflexivity.
    - rewrite image_line_loop. reflexivity. }
  split; [rewrite Hclosed; apply references_from_read|]. rewrite Hclosed.
  destruct (references_from_lines (split_char LF markdown) 1) as [Hr Hs].
  split; [exact Hs|]. split.
  - eapply Forall_impl; [|exact Hr]. simpl; intros; lia.
  - rewrite references_from_read. clear. generalize 1 at 1.
    induction (split_char LF markdown) as [|l lines IH]; intros n; simpl.
    + constructor.
    + rewrite !Forall_app. repeat split; try apply IH;
        apply Forall_forall; intros r Hin; apply in_map_iff in Hin;
        destruct Hin as (h & <- & _); reflexivity.
Qed.

(** C6, as the claim has it.  On a line that holds an HTML image before a
    markdown image the two are not recorded in the order in which they
    stand: the markdown image comes first. *)
Lemma extractImageUrls_not_as_read :
  let markdown : str := "<img src='h.png'> ![a](m.png)" in
  map url (extractImageUrls markdown) = ["m.png" : str; "h.png" : str]
  /\ map url
       (Reference.image_references_as_read 1 (split_char LF markdown))
     = ["h.png" : str; "m.png" : str]
  /\ extractImageUrls markdown
     <> Reference.image_references_as_read 1 (split_char LF markdown).
Proof.
  cbv zeta. split; [vm_compute; reflexivity|].
  split; [vm_compute; reflexivity|].
  vm_compute. discriminate.
Qed.

(** What is and what is not an HTML image: the value must be quoted and
    follow the equals sign at once, no [>] may stand before the attribute,
    any attribute whose name ends in [src] counts, and of several the last
    one is kept. *)
Example html_image_occurrences :
  Reference.occurrences Reference.html_image "<img src=a.png>" = []
  /\ Reference.occurrences Reference.html_image "<img src = 'a.png'>" = []
  /\ Reference.occurrences Reference.html_image "<img alt='>' src='a.png'>"
     = []
  /\ Reference.occurrences Reference.html_image "<IMG alt='x' SRC='a.png' >"
     = ["a.png" : str]
  /\ Reference.occurrences Reference.html_image "<img data-src='a.png'>"
     = ["a.png" : str]
  /\ Reference.occurrences Reference.html_image
       "<img src='a.png' src='b.png'><img src='c.png'>"
     = ["b.png" : str; "c.png" : str].
Proof. repeat split; vm_compute; reflexivity. Qed.

(** The function on the same lines. *)
Example extractImageUrls_html_lines :
  map url
    (extractImageUrls
       (doc ["<img src=a.png>"; "<img src = 'b.png'>";
             "<img alt='>' src='c.png'>"; "<IMG alt='x' SRC='d.png' >";
             "<img data-src='e.png'>";
             "<img src='f.png' src='g.png'><img src='h.png'>"]))
  = ["d.png" : str; "e.png" : str; "g.png" : str; "h.png" : str].
Proof. vm_compute. reflexivity. Qed.

(** Two kinds on one line: the markdown occurrence comes first. *)
Example extractImageUrls_mixed_line :
  map url (extractImageUrls
             (doc ["<img src='a.png'> ![x](b.png) <IMG SRC='HTTPS://h/c.png'>"]))
  = ["b.png" : str; "a.png" : str; "HTTPS://h/c.png" : str]
  /\ map isAbsolute
       (extractImageUrls
          (doc ["<img src='a.png'> ![x](b.png) <IMG SRC='HTTPS://h/c.png'>"]))
     = [false; false; true].
Proof. split; vm_compute; reflexivity. Qed.

(* ------------------------------------------------------------------ *)
(** ** Substantial content *)

Lemma trimStart_nil (s : str) :
  match trimStart s with [] => true | _ :: _ => false end = forallb is_space s.
Proof.
  induction s as [|c t IH]; simpl; [reflexivity|].
  destruct (is_space c); simpl; auto.
Qed.

Lemma trimStart_snoc (l : str) c :
  trimStart (l ++ [c])
  = match trimStart l with
    | [] => if is_space c then [] else [c]
    | r => r ++ [c]
    end.
Proof.
  induction l as [|x l IH]; simpl.
  - destruct (is_space c); reflexivity.
  - destruct (is_space x); [exact IH|reflexivity].
Qed.

Lemma trimEnd_cons c (t : str) :
  trimEnd (c :: t)
  = match trimEnd t with
    | [] => if is_space c then [] else [c]
    | r => c :: r
    end.
Proof.
  unfold trimEnd. simpl. rewrite trimStart_snoc.
  destruct (trimStart (rev t)) as [|x r]; simpl.
  - destruct (is_space c); reflexivity.
  - rewrite rev_app_distr. simpl.
    destruct (rev r ++ [x]) eqn:E; [|reflexivity].
    destruct (rev r); discriminate.
Qed.

Lemma trimEnd_nil (s : str) :
  match trimEnd s with [] => true | _ :: _ => false end = forallb is_space s.
Proof.
  induction s as [|c t IH]; [reflexivity|].
  rewrite trimEnd_cons. simpl.
  destruct (trimEnd t); simpl in *; rewrite <- IH.
  - destruct (is_space c); reflexivity.
  - now rewrite andb_false_r.
Qed.

Lemma trim_nil (s : str) :
  match trim s with [] => true | _ :: _ => false end = forallb is_space s.
Proof.
  unfold trim. rewrite trimEnd_nil.
  induction s as [|c t IH]; simpl; [reflexivity|].
  destruct (is_space c) eqn:E; simpl; [exact IH|now rewrite E].
Qed.

Lemma is_blank_spaces (s : str) : is_blank s = forallb is_space s.
Proof.
  unfold is_blank. destruct s as [|c t]; [reflexivity|]. apply trim_nil.
Qed.

Lemma count_words_trimStart (s : str) :
  Spec.count_words_from false (trimStart s) = Spec.count_words_from false s.
Proof.
  induction s as [|c t IH]; simpl; [reflexivity|].
  destruct (is_space c) eqn:E; [exact IH|]. simpl. now rewrite E.
Qed.

Lemma count_words_trimEnd (s : str) : forall b,
  Spec.count_words_from b (trimEnd s) = Spec.count_words_from b s.
Proof.
  induction s as [|c t IH]; intros b; [reflexivity|].
  rewrite trimEnd_cons.
  destruct (trimEnd t) as [|x r] eqn:E.
  - simpl. destruct (is_space c) eqn:Ec; simpl.
    + now rewrite <- IH.
    + rewrite Ec, <- IH. reflexivity.
  - change (Spec.count_words_from b (c :: x :: r))
      with (if is_space c then Spec.count_words_from false (x :: r)
            else (if b then 0 else 1) + Spec.count_words_from true (x :: r)).
    now rewrite !IH.
Qed.

Lemma count_words_trim (s : str) :
  Spec.count_words (trim s) = Spec.count_words s.
Proof.
  unfold Spec.count_words, trim.
  now rewrite count_words_trimEnd, count_words_trimStart.
Qed.

Lemma run_len_le p (s : str) : run_len p s <= length s.
Proof.
  induction s as [|c t IH]; simpl; [lia|]. destruct (p c); lia.
Qed.

Lemma star_greedy_run p rest pos caps :
  exists s1,
    star_greedy p Some rest pos caps = Some s1
    /\ ms_pos s1 = pos + run_len p rest.
Proof.
  revert pos; induction rest as [|c t IH]; intros pos; simpl.
  - eexists; split; [reflexivity|simpl; lia].
  - destruct (p c).
    + destruct (IH (S pos)) as (s1 & -> & Hp).
      exists s1; split; [reflexivity|lia].
    + eexists; split; [reflexivity|simpl; lia].
Qed.

(** The separator of the word split, at a given position: the longest run
    of whitespace. *)
Lemma match_at_whitespace (rest : str) q :
  match rest with
  | c :: t =>
      if is_space c
      then exists h, match_at whitespacePattern rest q = Some h
                     /\ length (h_text h) = S (run_len is_space t)
      else match_at whitespacePattern rest q = None
  | [] => match_at whitespacePattern rest q = None
  end.
Proof.
  destruct rest as [|c t]; [reflexivity|].
  unfold match_at, whitespacePattern, Plus. cbn [rmatch ms_rest ms_pos ms_caps].
  destruct (is_space c); [|reflexivity].
  destruct (star_greedy_run is_space t (S q) []) as (s1 & -> & Hp).
  eexists; split; [reflexivity|]. cbn [h_text].
  rewrite Hp. replace (S q + run_len is_space t - q)
    with (S (run_len is_space t)) by lia.
  rewrite length_firstn. simpl.
  pose proof (run_len_le is_space t). lia.
Qed.

Lemma split_scan_words (rest : str) : forall q cur skip,
  skip <= run_len is_space rest ->
  (0 < skip -> cur = []) ->
  length (filter (fun word => 0 <? length word)
            (split_scan whitespacePattern rest q cur skip))
  = (if 0 <? length cur then 1 else 0)
    + Spec.count_words_from (0 <? length cur) rest.
Proof.
  induction rest as [|c t IH]; intros q cur skip Hskip Hcur.
  - simpl. destruct (0 <? length cur); reflexivity.
  - destruct skip as [|k].
    + cbn [split_scan].
      pose proof (match_at_whitespace (c :: t) q) as Hm. cbn in Hm.
      cbn [Spec.count_words_from].
      destruct (is_space c) eqn:Ec.
      * destruct Hm as (h & -> & Hlen). rewrite Hlen.
        cbn [filter].
        assert (Htail :
          length (filter (fun word => 0 <? length word)
                    (split_scan whitespacePattern t (S q) [] (run_len is_space t)))
          = Spec.count_words_from false t).
        { rewrite IH; [reflexivity|lia|reflexivity]. }
        destruct (0 <? length cur); simpl; rewrite Htail; reflexivity.
      * rewrite Hm. rewrite IH; [|simpl; lia|lia].
        rewrite length_app. simpl.
        replace (0 <? length cur + 1) with true
          by (symmetry; apply Nat.ltb_lt; lia).
        destruct (0 <? length cur); reflexivity.
    + cbn [split_scan]. simpl in Hskip.
      destruct (is_space c) eqn:Ec; [|lia].
      rewrite (Hcur ltac:(lia)) in *.
      cbn [Spec.count_words_from]. rewrite Ec.
      rewrite IH; [reflexivity|lia|reflexivity].
Qed.

(** The words the code counts are the maximal runs of characters that are
    not whitespace. *)
Lemma words_of_count (x : str) :
  length (words_of x) = Spec.count_words x.
Proof.
  unfold words_of. rewrite <- count_words_trim.
  generalize (trim x). intros y. unfold split_regex, Spec.count_words.
  destruct y as [|c t]; [reflexivity|].
  rewrite split_scan_words; [reflexivity|lia|reflexivity].
Qed.

Lemma match_at_Chr p (rest : str) pos :
  match_at (Chr p) rest pos
  = match rest with
    | c :: _ => if p c then Some (Hit pos [c] []) else None
    | [] => None
    end.
Proof.
  unfold match_at. destruct rest as [|c t];
    cbn [rmatch ms_rest ms_pos ms_caps]; [reflexivity|].
  destruct (p c); [|reflexivity].
  cbn [ms_rest ms_pos ms_caps].
  replace (S pos - pos) with 1 by lia. reflexivity.
Qed.

(** Replacing every character of a class by nothing filters the class
    out. *)
Lemma replace_class_delete p (s : str) : forall pos,
  subst_pieces delete (pieces (Chr p) s pos 0) = filter (fun c => negb (p c)) s.
Proof.
  induction s as [|c t IH]; intros pos; cbn [pieces]; rewrite match_at_Chr.
  - reflexivity.
  - simpl. destruct (p c); simpl; now rewrite IH.
Qed.

Lemma strip_formatting_filter (s : str) :
  strip_formatting s = Spec.without_punctuation s.
Proof. apply replace_class_delete. Qed.

(** *** The replacements of the estimator *)








(** The prose of a line that holds one construct of each kind. *)
Example prose_of_a_line :
  Reference.prose
    (doc ["# See [the docs](http://x/y) and `code`, ![i](p.png) <b>now</b>";
          "```"; "let x = 1"; "```"; "- done"])
  = doc [" See the docs and ,  now"; ""; " done"].
Proof. vm_compute. reflexivity. Qed.

(* ------------------------------------------------------------------ *)
(** ** The matching loops make progress

    A [while ((m = re.exec(s)) !== null)] loop only ends if no match is
    empty.  The four patterns driven that way take at least two characters
    each, so the scan's rule for empty matches is never used by them. *)

Lemma loop_patterns_progress r (s : str) h :
  In r [blockTagPattern; inlineTagPattern;
        markdownImagePattern; htmlImagePattern] ->
  In h (exec_all r s) ->
  2 <= length (h_text h).
Proof.
  intros Hr Hin.
  destruct (exec_all_located _ _ _ Hin) as (_ & _ & _ & _ & Hm).
  assert (Hmin : 2 <= min_len r).
  { simpl in Hr.
    destruct Hr as [<-|[<-|[<-|[<-|[]]]]]; vm_compute; repeat constructor. }
  lia.
Qed.

(* ------------------------------------------------------------------ *)
(** ** The cases of the repository's test suites *)

Example test_detect_inline :
  map (fun t => (tag t, argument t, LiquidTags.lineNumber t, hasEndTag t))
    (tags (detectLiquidTags
             (doc ["Some text"; "{% youtube dQw4w9WgXcQ %}"; "More text"])))
  = [("youtube" : str, "dQw4w9WgXcQ" : str, 2, false)].
Proof. vm_compute. reflexivity. Qed.

Example test_detect_block :
  map (fun t => (tag t, argument t, LiquidTags.lineNumber t, hasEndTag t))
    (tags (detectLiquidTags
             (doc ["Text"; "{% details Click to expand %}";
                   "Hidden content here"; "{% enddetails %}"; "More text"])))
  = [("details" : str, "Click to expand" : str, 2, true)].
Proof. vm_compute. reflexivity. Qed.

Example test_detect_skips_fences :
  map argument
    (tags (detectLiquidTags
             (doc ["Real tag: {% youtube abc %}"; EmptyString; "```markdown";
                   "This should be ignored: {% youtube xyz %}"; "```"; EmptyString;
                   "Another real tag: {% twitter 123 %}"])))
  = ["abc" : str; "123" : str].
Proof. vm_compute. reflexivity. Qed.

Example test_convert_youtube :
  convertLiquidTag
    (mkTag "youtube" "dQw4w9WgXcQ" "{% youtube dQw4w9WgXcQ %}" 1 false false)
    None
  = Ok (list_ascii_of_string "https://www.youtube.com/watch?v=dQw4w9WgXcQ").
Proof. vm_compute. reflexivity. Qed.

Example test_strip_inline :
  stripLiquidTags "Check this video: {% youtube abc123 %}"
  = Ok (list_ascii_of_string
          "Check this video: https://www.youtube.com/watch?v=abc123").
Proof. vm_compute. reflexivity. Qed.

Example test_strip_block :
  stripLiquidTags
    (doc ["{% details Summary %}"; "Content inside"; "{% enddetails %}"])
  = Ok (doc ["<details>"; "<summary>Summary</summary>"; EmptyString;
             "Content inside"; "</details>"]).
Proof. vm_compute. reflexivity. Qed.

Example test_images_lines :
  map (fun r => (Markdown.lineNumber r, isAbsolute r))
    (extractImageUrls
       (doc ["# Article"; "![First](https://example.com/1.png)"; "Some text";
             "![Second](./local.png)"; "<img src='https://example.com/3.jpg'>"]))
  = [(2, true); (4, false); (5, true)].
Proof. vm_compute. reflexivity. Qed.

Example test_substantial :
  isSubstantialContent "Hello world" = false
  /\ isSubstantialContent
       (doc ["```javascript"; "const a = 1;"; "const b = 2;"; "const c = 3;";
             "const d = 4;"; "const e = 5;"; "```"]) = false
  /\ isSubstantialContent
       (doc ["This is an article about TypeScript development that covers many important topics including type safety and code organization.";
             EmptyString; "```javascript"; "const x = 1;"; "```"]) = true.
Proof. repeat split; vm_compute; reflexivity. Qed.

Example test_validate_nothing matter :
  validateArticle matter (mkParams None None None None None None None)
  = Ok (mkResult false [presence_error]).
Proof. reflexivity. Qed.

Example test_validate_too_many_tags matter :
  exists r,
    validateArticle matter
      (mkParams (Some ("Test" : str)) None
         (Some (TagsString "one, two, three, four, five")) None None None None)
    = Ok r
    /\ valid r = false
    /\ map message (issues r) = ["Too many tags (5). Maximum is 4." : str].
Proof. eexists. split; [reflexivity|]. vm_compute. auto. Qed.

Example test_merge_tag_list :
  exists m,
    mergeAndNormalize GrayMatter.matter
      (Some (doc ["---"; "tags:"; "  - javascript"; "  - typescript"; "---";
                  "Content"])) [] = Ok m
    /\ get (params m) "tags" = JStr "javascript, typescript".
Proof. eexists. split; vm_compute; reflexivity. Qed.

Example test_merge_cover_image :
  exists m,
    mergeAndNormalize GrayMatter.matter
      (Some (doc ["---"; "cover_image: https://example.com/old.jpg"; "---";
                  "Content"]))
      [("main_image" : str, JStr "https://example.com/new.jpg")] = Ok m
    /\ get (params m) "main_image" = JStr "https://example.com/new.jpg"
    /\ map field (conflicts m) = ["main_image" : str].
Proof. eexists. split; [vm_compute; reflexivity|]. vm_compute. auto. Qed.

(* ================================================================== *)
(** * Further properties of the content pipeline *)

(* ------------------------------------------------------------------ *)
(** ** The scanner's report: order and line numbers *)

Lemma insert_by_line_perm t l : Permutation (t :: l) (insert_by_line t l).
Proof.
  induction l as [|x l IH]; simpl; [reflexivity|].
  destruct (LiquidTags.lineNumber t <=? LiquidTags.lineNumber x);
    [reflexivity|].
  rewrite perm_swap. now constructor.
Qed.

Lemma sort_by_line_perm l : Permutation l (sort_by_line l).
Proof.
  induction l as [|x l IH]; simpl; [constructor|].
  rewrite <- insert_by_line_perm. now constructor.
Qed.

Lemma insert_by_line_sorted t l :
  StronglySorted (fun a b => LiquidTags.lineNumber a <= LiquidTags.lineNumber b) l ->
  StronglySorted (fun a b => LiquidTags.lineNumber a <= LiquidTags.lineNumber b)
    (insert_by_line t l).
Proof.
  induction 1 as [|x l Hs IH Hx]; simpl.
  - repeat constructor.
  - destruct (Nat.leb_spec (LiquidTags.lineNumber t) (LiquidTags.lineNumber x)).
    + constructor; [now constructor|].
      constructor; [assumption|].
      eapply Forall_impl; [|exact Hx]. simpl; intros; lia.
    + constructor; [exact IH|].
      eapply Permutation_Forall; [apply insert_by_line_perm|].
      constructor; [lia|exact Hx].
Qed.

Lemma sort_by_line_sorted l :
  StronglySorted (fun a b => LiquidTags.lineNumber a <= LiquidTags.lineNumber b)
    (sort_by_line l).
Proof.
  induction l as [|x l IH]; simpl; [constructor|].
  now apply insert_by_line_sorted.
Qed.

(** The sort keeps the tags of one line in the order they were pushed. *)
Lemma insert_by_line_stable n t l :
  filter (fun x => LiquidTags.lineNumber x =? n) (insert_by_line t l)
  = filter (fun x => LiquidTags.lineNumber x =? n) (t :: l).
Proof.
  induction l as [|x l IH]; [reflexivity|].
  cbn [insert_by_line].
  destruct (Nat.leb_spec (LiquidTags.lineNumber t) (LiquidTags.lineNumber x));
    [reflexivity|].
  cbn [filter] in *. rewrite IH.
  destruct (Nat.eqb_spec (LiquidTags.lineNumber x) n),
           (Nat.eqb_spec (LiquidTags.lineNumber t) n); try reflexivity; lia.
Qed.

Lemma sort_by_line_stable n l :
  filter (fun x => LiquidTags.lineNumber x =? n) (sort_by_line l)
  = filter (fun x => LiquidTags.lineNumber x =? n) l.
Proof.
  induction l as [|x l IH]; [reflexivity|].
  cbn [sort_by_line fold_right]. fold (sort_by_line l).
  rewrite insert_by_line_stable. cbn [filter]. now rewrite IH.
Qed.

Lemma detected_unsorted_empty : detected_unsorted [] = [].
Proof. vm_compute. reflexivity. Qed.

Lemma detectLiquidTags_tags (markdown : str) :
  tags (detectLiquidTags markdown) = sort_by_line (detected_unsorted markdown).
Proof.
  destruct markdown; [now rewrite detected_unsorted_empty|reflexivity].
Qed.

(** X1.  The reported tags are the pushed tags in ascending order of line
    number, and the tags of one line keep the order in which they were
    pushed (its block tags before its inline tags). *)
Theorem detectLiquidTags_sorted_stable (markdown : str) :
  StronglySorted (fun a b => LiquidTags.lineNumber a <= LiquidTags.lineNumber b)
    (tags (detectLiquidTags markdown))
  /\ Permutation (detected_unsorted markdown) (tags (detectLiquidTags markdown))
  /\ forall n,
       filter (fun t => LiquidTags.lineNumber t =? n)
         (tags (detectLiquidTags markdown))
       = filter (fun t => LiquidTags.lineNumber t =? n)
           (detected_unsorted markdown).
Proof.
  rewrite detectLiquidTags_tags.
  split; [apply sort_by_line_sorted|].
  split; [apply sort_by_line_perm|].
  intros n. apply sort_by_line_stable.
Qed.





(* ------------------------------------------------------------------ *)
(** ** Text without markup is left alone *)

Lemma needs_prefix_Lit w r : needs_prefix (Seq (Lit is_char w) r) w.
Proof.
  intros rest pos H. unfold match_at. cbn [rmatch].
  now rewrite rmatch_Lit, lit_prefix_exact, H.
Qed.

Lemma needs_prefix_Chr a r : needs_prefix (Seq (Chr (is_char a)) r) [a].
Proof.
  intros rest pos H. unfold match_at. cbn [rmatch ms_rest].
  destruct rest as [|c t]; [reflexivity|].
  cbn [startsWith] in H. rewrite andb_true_r in H.
  unfold is_char. now rewrite H.
Qed.

Lemma pieces_plain r w (s : str) : forall pos,
  needs_prefix r w -> occurs w s = false -> pieces r s pos 0 = map Plain s.
Proof.
  induction s as [|c t IH]; intros pos Hr Ho; cbn [occurs] in Ho;
    apply orb_false_iff in Ho; destruct Ho as [Hs Ht];
    cbn [pieces]; rewrite (Hr _ pos Hs); [reflexivity|].
  cbn [map]. f_equal. now apply IH.
Qed.

Lemma hits_of_plain (s : str) : hits_of (map Plain s) = [].
Proof. induction s; simpl; auto. Qed.

Lemma replace_pieces_plain f (s : str) : replace_pieces f (map Plain s) = Ok s.
Proof. induction s as [|c t IH]; simpl; [reflexivity|]. now rewrite IH. Qed.

Lemma subst_pieces_plain f (s : str) : subst_pieces f (map Plain s) = s.
Proof. induction s as [|c t IH]; simpl; [reflexivity|]. now rewrite IH. Qed.

Lemma exec_all_absent r w (s : str) :
  needs_prefix r w -> occurs w s = false -> exec_all r s = [].
Proof.
  intros Hr Ho. unfold exec_all. rewrite (pieces_plain r w); auto.
  apply hits_of_plain.
Qed.

Lemma replace_fn_absent r w f (s : str) :
  needs_prefix r w -> occurs w s = false -> replace_fn r f s = Ok s.
Proof.
  intros Hr Ho. unfold replace_fn. rewrite (pieces_plain r w); auto.
  apply replace_pieces_plain.
Qed.

Lemma replace_all_absent r w f (s : str) :
  needs_prefix r w -> occurs w s = false -> replace_all r f s = s.
Proof.
  intros Hr Ho. unfold replace_all. rewrite (pieces_plain r w); auto.
  apply subst_pieces_plain.
Qed.

(** X3.  A document in which the two characters [{%] never occur has no
    liquid tags: the scanner reports nothing and the stripper returns the
    document unchanged, without throwing. *)
Theorem liquid_free_document (markdown : str) :
  occurs "{%" markdown = false ->
  detectLiquidTags markdown = mkReport [] false
  /\ stripLiquidTags markdown = Ok markdown.
Proof.
  intros Ho.
  assert (Hb : needs_prefix blockTagPattern "{%") by apply needs_prefix_Lit.
  assert (Hi : needs_prefix inlineTagPattern "{%") by apply needs_prefix_Lit.
  split.
  - unfold detectLiquidTags, detected_unsorted.
    rewrite (exec_all_absent _ _ _ Hb Ho), (exec_all_absent _ _ _ Hi Ho).
    destruct markdown; reflexivity.
  - unfold stripLiquidTags. destruct markdown as [|c t]; [reflexivity|].
    rewrite (replace_fn_absent _ _ _ _ Hb Ho). cbn [bind].
    apply (replace_fn_absent _ _ _ _ Hi Ho).
Qed.

Lemma liquid_free_document_witness :
  stripLiquidTags "function f() { return 100 % 7; }"
  = Ok (list_ascii_of_string "function f() { return 100 % 7; }").
Proof.
  apply (liquid_free_document "function f() { return 100 % 7; }").
  vm_compute. reflexivity.
Defined.

Lemma char_free_occurs a w (s : str) :
  In a w -> char_free a s = true -> occurs w s = false.
Proof.
  intros Ha. induction s as [|c t IH]; intros Hf; cbn [occurs].
  - destruct w; [contradiction|reflexivity].
  - cbn [char_free forallb] in Hf. apply andb_true_iff in Hf.
    destruct Hf as [Hc Ht]. rewrite (IH Ht), orb_false_r.
    destruct (startsWith w (c :: t)) eqn:E; [|reflexivity].
    apply startsWith_split in E.
    assert (Hall : char_free a (c :: t) = true).
    { cbn [char_free forallb]. now rewrite Hc. }
    rewrite E in Hall. unfold char_free in Hall.
    rewrite forallb_app in Hall. apply andb_true_iff in Hall.
    destruct Hall as [Hw _]. rewrite forallb_forall in Hw.
    specialize (Hw a Ha). now rewrite Ascii.eqb_refl in Hw.
Qed.

(** X4.  For text without a backtick, an opening bracket or an opening
    angle bracket, none of the five pattern replacements changes anything:
    the words counted are those of the text without the six punctuation
    characters. *)
Theorem isSubstantialContent_plain_text (markdown : str) :
  char_free "`" markdown = true ->
  char_free "[" markdown = true ->
  char_free "<" markdown = true ->
  stripped_text markdown = Spec.without_punctuation markdown
  /\ isSubstantialContent markdown
     = if forallb is_space markdown then false
       else 10 <=? Spec.count_words (Spec.without_punctuation markdown).
Proof.
  intros Hq Hb Ha.
  assert (E1 : strip_code_blocks markdown = markdown).
  { apply (replace_all_absent _ "```"); [apply needs_prefix_Lit|].
    apply (char_free_occurs "`"); [simpl; auto|exact Hq]. }
  assert (E2 : strip_inline_code markdown = markdown).
  { apply (replace_all_absent _ ["`"%char]); [apply needs_prefix_Chr|].
    apply (char_free_occurs "`"); [simpl; auto|exact Hq]. }
  assert (E3 : strip_images markdown = markdown).
  { apply (replace_all_absent _ "!["); [apply needs_prefix_Lit|].
    apply (char_free_occurs "["); [simpl; auto|exact Hb]. }
  assert (E4 : links_to_text markdown = markdown).
  { apply (replace_all_absent _ ["["%char]); [apply needs_prefix_Chr|].
    apply (char_free_occurs "["); [simpl; auto|exact Hb]. }
  assert (E5 : strip_html_tags markdown = markdown).
  { apply (replace_all_absent _ ["<"%char]); [apply needs_prefix_Chr|].
    apply (char_free_occurs "<"); [simpl; auto|exact Ha]. }
  assert (Es : stripped_text markdown = Spec.without_punctuation markdown).
  { unfold stripped_text.
    rewrite E1, E2, E3, E4, E5. apply strip_formatting_filter. }
  split; [exact Es|].
  unfold isSubstantialContent. rewrite Es, words_of_count.
  rewrite <- is_blank_spaces. unfold is_blank.
  destruct markdown as [|c t]; [reflexivity|].
  destruct (trim (c :: t)); reflexivity.
Qed.

Lemma isSubstantialContent_plain_text_witness :
  isSubstantialContent
    "one two three - four five six * seven eight nine ten" = true.
Proof.
  rewrite (proj2 (isSubstantialContent_plain_text
    "one two three - four five six * seven eight nine ten"
    eq_refl eq_refl eq_refl)).
  vm_compute. reflexivity.
Defined.

(* ------------------------------------------------------------------ *)
(** ** The recorded fenced regions *)

Lemma StronglySorted_snoc {A} (R : A -> A -> Prop) l x :
  StronglySorted R l -> Forall (fun a => R a x) l ->
  StronglySorted R (l ++ [x]).
Proof.
  induction 1 as [|a l Hs IH Ha]; intros Hx; simpl.
  - repeat constructor.
  - inversion Hx; subst. constructor; [auto|].
    apply Forall_app; split; [exact Ha|]. repeat constructor; auto.
Qed.

Lemma fence_line_nonempty (l : str) : is_fence_line l = true -> 1 <= length l.
Proof.
  rewrite is_fence_line_spec. unfold Spec.toggles_fence.
  destruct l; [discriminate|simpl; lia].
Qed.

Lemma fence_step_inv st (l : str) : fence_inv st -> fence_inv (fence_step st l).
Proof.
  destruct st as [ins fs c rs]. unfold fence_inv, fence_step. simpl.
  intros (Hs & Hne & Hend & Hin).
  destruct (is_fence_line l) eqn:El.
  - apply fence_line_nonempty in El.
    destruct ins; simpl.
    + destruct (Hin eq_refl) as [Hfs Hbefore].
      repeat split; try discriminate.
      * apply StronglySorted_snoc; [exact Hs|].
        eapply Forall_impl; [|exact Hbefore]. simpl; intros; lia.
      * apply Forall_app; split; [exact Hne|].
        repeat constructor. simpl. lia.
      * apply Forall_app; split.
        -- eapply Forall_impl; [|exact Hend]. simpl; intros; lia.
        -- repeat constructor. simpl. lia.
    + repeat split; auto; try lia.
      eapply Forall_impl; [|exact Hend]. simpl; intros; lia.
  - simpl. split; [exact Hs|]. split; [exact Hne|]. split.
    + eapply Forall_impl; [|exact Hend]. simpl; intros; lia.
    + intros H. destruct (Hin H) as [H1 H2]. split; [lia|exact H2].
Qed.

Lemma fence_loop_inv lines st :
  fence_inv st -> fence_inv (fold_left fence_step lines st).
Proof.
  revert st; induction lines as [|l lines IH]; intros st H; simpl; auto.
  apply IH. now apply fence_step_inv.
Qed.

Lemma fence_loop_offset lines st :
  charOffset (fold_left fence_step lines st) = charOffset st + Spec.span lines.
Proof.
  revert st; induction lines as [|l lines IH]; intros st; simpl; [lia|].
  rewrite IH. destruct st as [ins fs c rs]. unfold fence_step. simpl.
  destruct (is_fence_line l), ins; simpl; lia.
Qed.

(** X5.  The fenced regions recorded for a text are not empty, lie inside
    the text, follow one another in order and never touch or overlap. *)
Theorem getCodeFenceRanges_ordered (text : str) :
  Forall (fun r => r_start r < r_end r <= length text)
    (getCodeFenceRanges text)
  /\ StronglySorted (fun a b => r_end a < r_start b)
       (getCodeFenceRanges text).
Proof.
  unfold getCodeFenceRanges.
  pose proof (fence_loop_inv (split_char LF text) (mkFence false 0 0 [])) as Hinv.
  pose proof (fence_loop_offset (split_char LF text) (mkFence false 0 0 [])) as Hoff.
  rewrite split_char_span in Hoff. simpl in Hoff.
  destruct (fold_left fence_step (split_char LF text) (mkFence false 0 0 []))
    as [ins fs c rs].
  destruct Hinv as (Hs & Hne & Hend & Hin).
  { repeat split; simpl; try constructor. discriminate. }
  simpl in *. subst c. unfold close_fence. simpl.
  assert (Hboth : Forall (fun r => r_start r < r_end r <= length text) rs).
  { apply Forall_forall. intros r Hr.
    rewrite Forall_forall in Hne, Hend.
    specialize (Hne r Hr). specialize (Hend r Hr). simpl in *. lia. }
  destruct ins; [|split; assumption].
  destruct (Hin eq_refl) as [Hfs Hbefore]. split.
  - apply Forall_app; split; [exact Hboth|].
    repeat constructor; simpl; lia.
  - apply StronglySorted_snoc; [exact Hs|exact Hbefore].
Qed.

(* ------------------------------------------------------------------ *)
(** ** When the tag conversion throws *)

Lemma inherited_iff (name : str) :
  tag_def name = Inherited
  <-> In name (map list_ascii_of_string object_prototype_keys).
Proof.
  unfold tag_def.
  destruct (own_def name TAG_DEFS) as [d|] eqn:E.
  - split; [discriminate|]. intros Hin. exfalso.
    simpl in Hin.
    repeat (destruct Hin as [<-|Hin]; [vm_compute in E; discriminate|]).
    exact Hin.
  - destruct (existsb (fun k : string => str_eqb name k) object_prototype_keys)
      eqn:Ex.
    + split; [intros _|reflexivity].
      apply existsb_exists in Ex. destruct Ex as (k & Hk & Hname).
      apply str_eqb_eq in Hname. subst name. now apply in_map.
    + split; [discriminate|]. intros Hin. exfalso.
      apply in_map_iff in Hin. destruct Hin as (k & <- & Hk).
      assert (Ht : existsb (fun k0 : string => str_eqb k k0)
                     object_prototype_keys = true).
      { apply existsb_exists. exists k. split; [exact Hk|apply str_eqb_refl]. }
      congruence.
Qed.

(** X6.  Converting a match throws exactly when its tag name is a property
    that the tag table inherits from [Object.prototype]; a name that the
    table neither has nor inherits converts to the bare argument. *)
Theorem convertLiquidTag_throws_iff (m : LiquidTagMatch) (c : option str) :
  (convertLiquidTag m c = Throw
   <-> In (tag m) (map list_ascii_of_string object_prototype_keys))
  /\ (tag_def (tag m) = Absent -> convertLiquidTag m c = Ok (argument m)).
Proof.
  split.
  - rewrite <- inherited_iff. unfold convertLiquidTag.
    destruct (tag_def (tag m)); split; congruence.
  - unfold convertLiquidTag. now intros ->.
Qed.

Lemma convertLiquidTag_throws_iff_witness :
  convertLiquidTag (mkTag "toString" "x" "{% toString x %}" 1 false false) None
  = Throw
  /\ convertLiquidTag (mkTag "gist" "x" "{% gist x %}" 1 false false) None
     = Ok (list_ascii_of_string "x").
Proof.
  split.
  - apply (proj1 (convertLiquidTag_throws_iff _ None)). simpl. tauto.
  - apply (proj2 (convertLiquidTag_throws_iff
                    (mkTag "gist" "x" "{% gist x %}" 1 false false) None)).
    reflexivity.
Defined.

(* ------------------------------------------------------------------ *)
(** ** What a capture group holds *)

Lemma class_stay (p : ascii -> bool) (k : cont) rest pos caps res :
  k (MState rest pos caps) = Some res ->
  exists s1 w,
    k s1 = Some res /\ reached rest pos s1 w
    /\ ms_caps s1 = caps /\ forallb p w = true.
Proof.
  intros H. exists (MState rest pos caps), [].
  split; [exact H|]. split; [apply reached_here|]. split; reflexivity.
Qed.

Lemma class_step (p : ascii -> bool) (k : cont) c t pos caps res :
  p c = true ->
  (exists s1 w,
     k s1 = Some res /\ reached t (S pos) s1 w
     /\ ms_caps s1 = caps /\ forallb p w = true) ->
  exists s1 w,
    k s1 = Some res /\ reached (c :: t) pos s1 w
    /\ ms_caps s1 = caps /\ forallb p w = true.
Proof.
  intros Ec (s1 & w & Hk & Hr & Hc & Hp).
  exists s1, (c :: w). split; [exact Hk|].
  split; [now apply reached_step|]. split; [exact Hc|].
  simpl. now rewrite Ec.
Qed.

Lemma star_greedy_class p k rest pos caps res :
  star_greedy p k rest pos caps = Some res ->
  exists s1 w,
    k s1 = Some res /\ reached rest pos s1 w
    /\ ms_caps s1 = caps /\ forallb p w = true.
Proof.
  revert pos; induction rest as [|c t IH]; intros pos; simpl.
  - apply class_stay.
  - destruct (p c) eqn:Ec; [|apply class_stay].
    destruct (star_greedy p k t (S pos) caps) as [r|] eqn:E;
      [|apply class_stay].
    intros [= ->]. apply class_step; auto.
Qed.

Lemma star_lazy_class p k rest pos caps res :
  star_lazy p k rest pos caps = Some res ->
  exists s1 w,
    k s1 = Some res /\ reached rest pos s1 w
    /\ ms_caps s1 = caps /\ forallb p w = true.
Proof.
  revert pos; induction rest as [|c t IH]; intros pos; simpl.
  - destruct (k (MState [] pos caps)) as [r|] eqn:E; [|discriminate].
    intros [= ->]. now apply class_stay.
  - destruct (k (MState (c :: t) pos caps)) as [r|] eqn:E.
    + intros [= ->]. now apply class_stay.
    + destruct (p c) eqn:Ec; [|discriminate].
      intros H. apply class_step; auto.
Qed.

(** A pattern made of classes within [p] takes a text of [p] characters and
    leaves the captures alone. *)
Lemma rmatch_class p r : forall k s res,
  class_only p r ->
  rmatch r k s = Some res ->
  exists s1 w,
    k s1 = Some res /\ reached (ms_rest s) (ms_pos s) s1 w
    /\ ms_caps s1 = ms_caps s /\ forallb p w = true
    /\ min_len r <= length w.
Proof.
  assert (Hstay : forall (k : cont) rest pos caps res,
    k (MState rest pos caps) = Some res ->
    exists s1 w,
      k s1 = Some res /\ reached rest pos s1 w
      /\ ms_caps s1 = caps /\ forallb p w = true /\ 0 <= length w).
  { intros k rest pos caps res H. exists (MState rest pos caps), [].
    split; [exact H|]. split; [apply reached_here|].
    split; [reflexivity|]. split; [reflexivity|simpl; lia]. }
  assert (Hone : forall (k : cont) c t pos caps res,
    p c = true ->
    k (MState t (S pos) caps) = Some res ->
    exists s1 w,
      k s1 = Some res /\ reached (c :: t) pos s1 w
      /\ ms_caps s1 = caps /\ forallb p w = true /\ 1 <= length w).
  { intros k c t pos caps res Ec H. exists (MState t (S pos) caps), [c].
    split; [exact H|]. split; [apply reached_step, reached_here|].
    split; [reflexivity|]. split; [simpl; now rewrite Ec|simpl; lia]. }
  induction r as [ | q | r1 IH1 r2 IH2 | g q | q | n r1 IH1 | n | | ];
    intros k [rest pos caps] res Hc; simpl in Hc |- *; try contradiction.
  - apply Hstay.
  - destruct rest as [|c t]; [discriminate|].
    destruct (q c) eqn:Eq; [|discriminate].
    apply Hone. now apply Hc.
  - destruct Hc as [Hc1 Hc2]. intros H.
    destruct (IH1 _ _ _ Hc1 H) as (s1 & w1 & H1 & Hr1 & Hcap1 & Hp1 & Hm1).
    destruct (IH2 _ _ _ Hc2 H1) as (s2 & w2 & H2 & Hr2 & Hcap2 & Hp2 & Hm2).
    exists s2, (w1 ++ w2). split; [exact H2|].
    split; [eapply reached_trans; eauto|].
    split; [simpl in *; congruence|].
    split; [rewrite forallb_app; now rewrite Hp1, Hp2|].
    rewrite length_app. lia.
  - intros H.
    assert (Hq : exists s1 w,
      k s1 = Some res /\ reached rest pos s1 w
      /\ ms_caps s1 = caps /\ forallb q w = true).
    { destruct g; [now apply star_greedy_class|now apply star_lazy_class]. }
    destruct Hq as (s1 & w & Hk & Hr & Hcap & Hp).
    exists s1, w. split; [exact Hk|]. split; [exact Hr|].
    split; [exact Hcap|]. split; [|lia].
    apply forallb_forall. intros c Hin. apply Hc.
    rewrite forallb_forall in Hp. auto.
  - destruct rest as [|c t]; [apply Hstay|].
    destruct (q c) eqn:Eq; [|apply Hstay].
    destruct (k (MState t (S pos) caps)) as [r0|] eqn:E; [|apply Hstay].
    intros [= ->].
    destruct (Hone k c t pos caps _ (Hc c Eq) E)
      as (s1 & w & ? & ? & ? & ? & ?).
    exists s1, w. repeat (split; [assumption|]). lia.
  - destruct (Nat.eqb pos 0); [|discriminate]. apply Hstay.
  - destruct rest; [|discriminate]. apply Hstay.
Qed.

(** A match only adds captures, and only for the groups of the pattern. *)
Lemma rmatch_caps r : forall k s res,
  rmatch r k s = Some res ->
  exists s1 new,
    k s1 = Some res
    /\ ms_caps s1 = new ++ ms_caps s
    /\ Forall (fun e => In (fst e) (group_ids r)) new.
Proof.
  assert (Hsame : forall (k : cont) s1 res (Q : nat * str -> Prop) caps,
     k s1 = Some res -> ms_caps s1 = caps ->
     exists s2 new, k s2 = Some res /\ ms_caps s2 = new ++ caps
       /\ Forall Q new).
  { intros k s1 res Q caps H E. exists s1, []. repeat split; auto. }
  induction r as [ | q | r1 IH1 r2 IH2 | g q | q | n r1 IH1 | n | | ];
    intros k [rest pos caps] res; simpl.
  - intros H. eapply Hsame; eauto.
  - destruct rest as [|c t]; [discriminate|].
    destruct (q c); [|discriminate]. intros H. eapply Hsame; eauto.
  - intros H.
    destruct (IH1 _ _ _ H) as (s1 & n1 & H1 & Hc1 & Hf1).
    destruct (IH2 _ _ _ H1) as (s2 & n2 & H2 & Hc2 & Hf2).
    exists s2, (n2 ++ n1). split; [exact H2|]. split.
    + rewrite Hc2, Hc1. simpl. now rewrite app_assoc.
    + apply Forall_app; split;
        (eapply Forall_impl; [|eassumption]); simpl; intros e He;
        apply in_or_app; auto.
  - destruct g; intros H;
      [apply star_greedy_class in H | apply star_lazy_class in H];
      destruct H as (s1 & w & Hk & _ & Hcap & _); eapply Hsame; eauto.
  - destruct rest as [|c t]; [intros H; eapply Hsame; eauto|].
    destruct (q c); [|intros H; eapply Hsame; eauto].
    destruct (k (MState t (S pos) caps)) as [r0|] eqn:E.
    + intros [= ->]. eapply Hsame; eauto.
    + intros H; eapply Hsame; eauto.
  - intros H. destruct (IH1 _ _ _ H) as (s1 & n1 & H1 & Hc1 & Hf1).
    simpl in *. eexists _, (_ :: n1). split; [exact H1|]. split.
    + simpl. now rewrite Hc1.
    + constructor; [simpl; auto|].
      eapply Forall_impl; [|exact Hf1]. simpl; auto.
  - destruct (cap_lookup n caps) as [w|].
    + destruct (startsWith w rest); [|discriminate].
      intros H. eapply Hsame; eauto.
    + intros H. eapply Hsame; eauto.
  - destruct (Nat.eqb pos 0); [|discriminate]. intros H. eapply Hsame; eauto.
  - destruct rest; [|discriminate]. intros H. eapply Hsame; eauto.
Qed.

Lemma cap_lookup_skip n (new older : list (nat * str)) :
  Forall (fun e => fst e <> n) new ->
  cap_lookup n (new ++ older) = cap_lookup n older.
Proof.
  induction 1 as [|[m w] new Hm _ IH]; simpl; [reflexivity|].
  simpl in Hm. destruct (Nat.eqb_spec n m); [congruence|exact IH].
Qed.

(** The capture of a group whose body is made of classes within [p] is a
    text of [p] characters, whatever stands before the group and whatever
    groups with other indices follow it. *)
Lemma group_capture p n pre body post : forall k s res,
  rmatch (Seq pre (Seq (Group n body) post)) k s = Some res ->
  class_only p body ->
  ~ In n (group_ids post) ->
  exists s1 w,
    k s1 = Some res
    /\ cap_lookup n (ms_caps s1) = Some w
    /\ forallb p w = true /\ min_len body <= length w.
Proof.
  intros k s res H Hbody Hpost. cbn [rmatch] in H.
  destruct (rmatch_caps _ _ _ _ H) as (s1 & n1 & H1 & _ & _).
  destruct (rmatch_class p _ _ _ _ Hbody H1) as (s2 & w & H2 & Hr & Hc & Hp & Hm).
  destruct (rmatch_caps _ _ _ _ H2) as (s3 & n3 & H3 & Hc3 & Hf3).
  exists s3, w. split; [exact H3|].
  split; [|auto]. rewrite Hc3. cbn [ms_caps].
  rewrite cap_lookup_skip.
  - cbn [cap_lookup]. rewrite Nat.eqb_refl. f_equal.
    destruct Hr as [Hr1 Hr2]. rewrite Hr2, Hr1.
    replace (ms_pos s1 + length w - ms_pos s1) with (length w + 0) by lia.
    rewrite firstn_app_2. simpl. apply app_nil_r.
  - eapply Forall_impl; [|exact Hf3]. simpl. intros e He E.
    rewrite E in He. auto.
Qed.

(* ------------------------------------------------------------------ *)
(** ** Trimming *)

Lemma trimStart_idem (s : str) : trimStart (trimStart s) = trimStart s.
Proof.
  induction s as [|c t IH]; simpl; [reflexivity|].
  destruct (is_space c) eqn:E; [exact IH|]. simpl. now rewrite E.
Qed.

Lemma trimEnd_idem (s : str) : trimEnd (trimEnd s) = trimEnd s.
Proof.
  unfold trimEnd. now rewrite rev_involutive, trimStart_idem.
Qed.

Lemma trimStart_trimEnd (x : str) :
  trimStart x = x -> trimStart (trimEnd x) = trimEnd x.
Proof.
  destruct x as [|c t]; [reflexivity|]. intros Hx.
  assert (Hc : is_space c = false).
  { simpl in Hx. destruct (is_space c) eqn:E; [|reflexivity].
    exfalso.
    assert (Hlen : length (trimStart t) <= length t).
    { clear. induction t as [|a t IH]; simpl; [lia|].
      destruct (is_space a); simpl; lia. }
    rewrite Hx in Hlen. simpl in Hlen. lia. }
  rewrite trimEnd_cons, Hc. destruct (trimEnd t); simpl; now rewrite Hc.
Qed.

Lemma trim_idem (s : str) : trim (trim s) = trim s.
Proof.
  unfold trim.
  rewrite (trimStart_trimEnd (trimStart s)) by apply trimStart_idem.
  apply trimEnd_idem.
Qed.

Lemma forallb_rev {A} (p : A -> bool) l : forallb p (rev l) = forallb p l.
Proof.
  induction l as [|a l IH]; simpl; [reflexivity|].
  rewrite forallb_app, IH. simpl. rewrite andb_true_r. apply andb_comm.
Qed.

Lemma forallb_trimStart (p : ascii -> bool) (s : str) :
  forallb p s = true -> forallb p (trimStart s) = true.
Proof.
  induction s as [|c t IH]; simpl; [auto|].
  intros H. apply andb_true_iff in H. destruct H as [Hc Ht].
  destruct (is_space c); [auto|]. simpl. now rewrite Hc, Ht.
Qed.

Lemma forallb_trim (p : ascii -> bool) (s : str) :
  forallb p s = true -> forallb p (trim s) = true.
Proof.
  intros H. unfold trim, trimEnd. rewrite forallb_rev.
  apply forallb_trimStart. rewrite forallb_rev.
  now apply forallb_trimStart.
Qed.

(* ------------------------------------------------------------------ *)
(** ** The fields of a reported tag *)

Lemma pieces_hits_match r rest : forall pos skip h,
  In h (hits_of (pieces r rest pos skip)) ->
  exists rest' pos', match_at r rest' pos' = Some h.
Proof.
  induction rest as [|c t IH]; intros pos skip h.
  - destruct skip; simpl; [|contradiction].
    destruct (match_at r [] pos) as [h0|] eqn:E; simpl; [|contradiction].
    intros [<-|[]]. eauto.
  - destruct skip as [|k]; simpl; [|apply IH].
    destruct (match_at r (c :: t) pos) as [h0|] eqn:E; simpl; [|apply IH].
    intros [<-|H]; [eauto|].
    destruct (length (h_text h0)); simpl in H; eapply IH; eauto.
Qed.

Lemma hit_group_class p n pre body post r (s : str) h :
  (forall k st, rmatch r k st
                = rmatch (Seq pre (Seq (Group n body) post)) k st) ->
  class_only p body ->
  ~ In n (group_ids post) ->
  In h (exec_all r s) ->
  forallb p (h_group n h) = true /\ min_len body <= length (h_group n h).
Proof.
  intros Hr Hbody Hpost Hin.
  destruct (pieces_hits_match _ _ _ _ _ Hin) as (rest & pos & Hm).
  unfold match_at in Hm. rewrite Hr in Hm.
  destruct (rmatch _ Some (MState rest pos [])) as [sF|] eqn:E; [|discriminate].
  injection Hm as <-.
  destruct (group_capture p n pre body post _ _ _ E Hbody Hpost)
    as (s1 & w & [= ->] & Hl & Hp & Hmin).
  unfold h_group. cbn [h_caps]. rewrite Hl. auto.
Qed.

Lemma lower_word_char c : is_word c = true -> is_lower_word (lower_char c) = true.
Proof.
  destruct c as [[] [] [] [] [] [] [] []]; vm_compute; congruence.
Qed.

Lemma tag_name_shape r pre post (s : str) h :
  (forall k st, rmatch r k st
     = rmatch (Seq pre (Seq (Group 1 (Plus true is_word)) post)) k st) ->
  ~ In 1 (group_ids post) ->
  In h (exec_all r s) ->
  toLowerCase (h_group 1 h) <> []
  /\ forallb is_lower_word (toLowerCase (h_group 1 h)) = true.
Proof.
  intros Hr Hpost Hin.
  destruct (hit_group_class is_word 1 pre (Plus true is_word) post r s h Hr)
    as [Hp Hm]; auto.
  { simpl. auto. }
  split.
  - destruct (h_group 1 h); [simpl in Hm; lia|discriminate].
  - unfold toLowerCase. rewrite forallb_forall in *.
    intros c Hc. apply in_map_iff in Hc. destruct Hc as (c0 & <- & Hc0).
    apply lower_word_char. auto.
Qed.

Lemma tag_argument_shape r pre post (s : str) h :
  (forall k st, rmatch r k st
     = rmatch (Seq pre (Seq (Group 2 (Star false is_dot)) post)) k st) ->
  ~ In 2 (group_ids post) ->
  In h (exec_all r s) ->
  forallb is_dot (trim (h_group 2 h)) = true.
Proof.
  intros Hr Hpost Hin. apply forallb_trim.
  destruct (hit_group_class is_dot 2 pre (Star false is_dot) post r s h Hr)
    as [Hp _]; auto.
  simpl. auto.
Qed.

Lemma inline_loop_guarded (P : LiquidTagMatch -> Prop) markdown ranges
    positions hs acc :
  (forall h, In h hs ->
     startsWith "end" (toLowerCase (h_group 1 h)) = false ->
     P (inline_tag markdown h)) ->
  Forall P acc ->
  Forall P (fold_left (inline_step markdown ranges positions) hs acc).
Proof.
  revert acc; induction hs as [|h hs IH]; intros acc Hh Hacc; simpl; [exact Hacc|].
  apply IH; [intros; apply Hh; simpl; auto|].
  unfold inline_step.
  destruct (isInsideCodeFence ranges (h_index h)); [exact Hacc|].
  destruct (startsWith _ _) eqn:E; [exact Hacc|].
  destruct (existsb _ positions); [exact Hacc|].
  apply Forall_app; split; [exact Hacc|].
  constructor; [apply Hh; simpl; auto | constructor].
Qed.

(** X7.  In every reported tag the name is a non-empty word of small
    letters, digits and underscores, the argument is a single line without
    leading or trailing whitespace, and a tag reported without an end tag
    is never named [end...]. *)
Theorem detectLiquidTags_fields (markdown : str) (t : LiquidTagMatch) :
  In t (tags (detectLiquidTags markdown)) ->
  tag t <> []
  /\ forallb is_lower_word (tag t) = true
  /\ forallb is_dot (argument t) = true
  /\ trim (argument t) = argument t
  /\ (hasEndTag t = false -> startsWith "end" (tag t) = false).
Proof.
  revert t. apply Forall_forall.
  rewrite detectLiquidTags_tags. apply sort_by_line_Forall.
  unfold detected_unsorted.
  apply inline_loop_guarded.
  - intros h Hin Hend. cbn [inline_tag tag argument hasEndTag].
    destruct (tag_name_shape inlineTagPattern
                (Seq (Lit is_char "{%") (Star true is_space))
                (Seqs [Star true is_space; Group 2 (Star false is_dot);
                       Star true is_space; Lit is_char "%}"])
                markdown h (fun _ _ => eq_refl)) as [Hne Hw]; auto.
    { simpl. intuition discriminate. }
    split; [exact Hne|]. split; [exact Hw|].
    split; [|split; [apply trim_idem|auto]].
    apply (tag_argument_shape inlineTagPattern
             (Seqs [Lit is_char "{%"; Star true is_space;
                    Group 1 (Plus true is_word); Star true is_space])
             (Seqs [Star true is_space; Lit is_char "%}"])
             markdown h (fun _ _ => eq_refl)); auto.
  - apply block_loop_Forall; [|constructor].
    intros h Hin _. cbn [block_tag tag argument hasEndTag].
    destruct (tag_name_shape blockTagPattern
                (Seq (Lit is_char "{%") (Star true is_space))
                (Seqs [Star true is_space; Group 2 (Star false is_dot);
                       Star true is_space; Lit is_char "%}";
                       Group 3 (Star false is_any); Lit is_char "{%";
                       Star true is_space; Lit is_char "end"; Backref 1;
                       Star true is_space; Lit is_char "%}"])
                markdown h (fun _ _ => eq_refl)) as [Hne Hw]; auto.
    { simpl. intuition discriminate. }
    split; [exact Hne|]. split; [exact Hw|].
    split; [|split; [apply trim_idem|discriminate]].
    apply (tag_argument_shape blockTagPattern
             (Seqs [Lit is_char "{%"; Star true is_space;
                    Group 1 (Plus true is_word); Star true is_space])
             (Seqs [Star true is_space; Lit is_char "%}";
                    Group 3 (Star false is_any); Lit is_char "{%";
                    Star true is_space; Lit is_char "end"; Backref 1;
                    Star true is_space; Lit is_char "%}"])
             markdown h (fun _ _ => eq_refl)); auto.
    simpl. intuition discriminate.
Qed.

Lemma detectLiquidTags_fields_witness :
  let t := mkTag "youtube" "abc" "{%YouTube   abc  %}" 1 false false in
  tag t <> []
  /\ forallb is_lower_word (tag t) = true
  /\ forallb is_dot (argument t) = true
  /\ trim (argument t) = argument t
  /\ (hasEndTag t = false -> startsWith "end" (tag t) = false).
Proof.
  intros t. apply (detectLiquidTags_fields "{%YouTube   abc  %}" t).
  vm_compute. left. reflexivity.
Defined.

(* ------------------------------------------------------------------ *)
(** ** The recorded image URLs *)

Lemma references_Forall (P : ImageUrlInfo -> Prop) lines : forall n,
  (forall l h k,
     In l lines ->
     In h (exec_all markdownImagePattern l)
     \/ In h (exec_all htmlImagePattern l) ->
     P (Spec.reference k h)) ->
  Forall P (Spec.references_from n lines).
Proof.
  induction lines as [|l lines IH]; intros n H; simpl; [constructor|].
  rewrite !Forall_app. repeat split.
  - apply Forall_forall. intros r Hr. apply in_map_iff in Hr.
    destruct Hr as (h & <- & Hh). apply (H l); simpl; auto.
  - apply Forall_forall. intros r Hr. apply in_map_iff in Hr.
    destruct Hr as (h & <- & Hh). apply (H l); simpl; auto.
  - apply IH. intros l0 h k Hl. apply H. simpl; auto.
Qed.

Lemma extractImageUrls_closed (markdown : str) :
  extractImageUrls markdown
  = Spec.references_from 1 (split_char LF markdown).
Proof.
  unfold extractImageUrls. destruct markdown as [|c m].
  - vm_compute. reflexivity.
  - rewrite image_line_loop. reflexivity.
Qed.

(** X8.  Every recorded image URL is free of line terminators and has no
    leading or trailing whitespace. *)
Theorem extractImageUrls_urls (markdown : str) :
  Forall (fun r => forallb is_dot (url r) = true /\ trim (url r) = url r)
    (extractImageUrls markdown).
Proof.
  rewrite extractImageUrls_closed. apply references_Forall.
  intros l h k _ Hh. cbn [Spec.reference url].
  split; [|apply trim_idem]. apply forallb_trim.
  destruct Hh as [Hh|Hh].
  - apply (hit_group_class is_dot 1
             (Seqs [Lit is_char "!["; Star false is_dot; Lit is_char "]("])
             (Star false is_dot) (Seqs [Lit is_char ")"])
             markdownImagePattern l h (fun _ _ => eq_refl)); simpl; auto.
  - apply (hit_group_class is_dot 1
             (Seqs [Lit is_char_ci "<img"; Plus true (is_not ">"%char);
                    Lit is_char_ci "src="; Chr is_quote])
             (Star false is_dot)
             (Seqs [Chr is_quote; Star true (is_not ">"%char);
                    Lit is_char_ci ">"])
             htmlImagePattern l h (fun _ _ => eq_refl)); simpl; auto.
Qed.

(* ------------------------------------------------------------------ *)
(** ** When the stripper throws *)

Lemma replace_pieces_throws f ps :
  replace_pieces f ps = Throw
  <-> exists h, In h (hits_of ps) /\ f h = Throw.
Proof.
  induction ps as [|[c|h] ps IH]; simpl.
  - split; [discriminate|intros (h & [] & _)].
  - destruct (replace_pieces f ps) as [r|]; simpl.
    + split; [discriminate|]. intros Hex. apply IH in Hex. discriminate.
    + split; [intros _; now apply IH|reflexivity].
  - destruct (f h) as [out|] eqn:Ef; simpl.
    + destruct (replace_pieces f ps) as [r|]; simpl.
      * split; [discriminate|].
        intros (h' & [<-|Hin] & Hf); [congruence|].
        assert (Hex : exists h0, In h0 (hits_of ps) /\ f h0 = Throw) by eauto.
        apply IH in Hex. discriminate.
      * split; [intros _|reflexivity].
        destruct (proj1 IH eq_refl) as (h' & Hin & Hf). eauto.
    + split; [intros _; eauto|reflexivity].
Qed.

Lemma lower_char_not_upper c : is_upper (lower_char c) = false.
Proof. destruct c as [[] [] [] [] [] [] [] []]; vm_compute; reflexivity. Qed.

Lemma inherited_lower (x : str) :
  tag_def (toLowerCase x) = Inherited
  <-> In (toLowerCase x) inherited_lower_names.
Proof.
  rewrite inherited_iff.
  assert (Hlow : forallb (fun c => negb (is_upper c)) (toLowerCase x) = true).
  { unfold toLowerCase. apply forallb_forall. intros c Hc.
    apply in_map_iff in Hc. destruct Hc as (c0 & <- & _).
    now rewrite lower_char_not_upper. }
  unfold inherited_lower_names. simpl. split.
  - intros [H|[H|H]]; [auto|auto|]. exfalso.
    repeat (destruct H as [H|H];
            [rewrite <- H in Hlow; vm_compute in Hlow; discriminate|]).
    exact H.
  - intros [H|[H|[]]]; auto.
Qed.

Lemma block_replacer_throws (result : str) h :
  block_replacer result h = Throw
  <-> Spec.in_fenced_region result (h_index h) = false
      /\ In (toLowerCase (h_group 1 h)) inherited_lower_names.
Proof.
  rewrite <- inherited_lower. unfold block_replacer.
  rewrite fence_ranges_spec.
  destruct (Spec.in_fenced_region result (h_index h)).
  - split; [discriminate|intros [? _]; discriminate].
  - destruct (tag_def (toLowerCase (h_group 1 h)));
      split; try discriminate; auto; intros [_ ?]; discriminate.
Qed.

Lemma inline_replacer_throws (result : str) h :
  inline_replacer result h = Throw
  <-> Spec.in_fenced_region result (h_index h) = false
      /\ In (toLowerCase (h_group 1 h)) inherited_lower_names.
Proof.
  unfold inline_replacer. rewrite fence_ranges_spec.
  destruct (startsWith "end" (toLowerCase (h_group 1 h))) eqn:Ee.
  - split; [discriminate|]. intros [_ Hin]. exfalso.
    unfold inherited_lower_names in Hin. simpl in Hin.
    destruct Hin as [H|[H|[]]]; rewrite <- H in Ee; vm_compute in Ee;
      discriminate.
  - rewrite <- inherited_lower.
    destruct (Spec.in_fenced_region result (h_index h)).
    + split; [discriminate|intros [? _]; discriminate].
    + destruct (tag_def (toLowerCase (h_group 1 h)));
        split; try discriminate; auto; intros [_ ?]; discriminate.
Qed.

(** X9.  Stripping throws exactly when a tag named [constructor] or
    [__proto__], in any case of the letters, is matched outside every
    fenced region: as a block match of the document, or as an inline match
    of the text that the block pass leaves. *)
Theorem stripLiquidTags_throws_iff (markdown : str) :
  stripLiquidTags markdown = Throw
  <-> (exists h,
         In h (exec_all blockTagPattern markdown)
         /\ Spec.in_fenced_region markdown (h_index h) = false
         /\ In (toLowerCase (h_group 1 h)) inherited_lower_names)
      \/ (exists mid h,
            replace_fn blockTagPattern (block_replacer markdown) markdown
            = Ok mid
            /\ In h (exec_all inlineTagPattern mid)
            /\ Spec.in_fenced_region mid (h_index h) = false
            /\ In (toLowerCase (h_group 1 h)) inherited_lower_names).
Proof.
  assert (Hblock :
    replace_fn blockTagPattern (block_replacer markdown) markdown = Throw
    <-> exists h,
          In h (exec_all blockTagPattern markdown)
          /\ Spec.in_fenced_region markdown (h_index h) = false
          /\ In (toLowerCase (h_group 1 h)) inherited_lower_names).
  { unfold replace_fn. rewrite replace_pieces_throws. unfold exec_all.
    split; intros (h & Hin & Hf); exists h; (split; [exact Hin|]);
      now apply block_replacer_throws. }
  assert (Hinline : forall mid,
    replace_fn inlineTagPattern (inline_replacer mid) mid = Throw
    <-> exists h,
          In h (exec_all inlineTagPattern mid)
          /\ Spec.in_fenced_region mid (h_index h) = false
          /\ In (toLowerCase (h_group 1 h)) inherited_lower_names).
  { intros mid. unfold replace_fn. rewrite replace_pieces_throws.
    unfold exec_all.
    split; intros (h & Hin & Hf); exists h; (split; [exact Hin|]);
      now apply inline_replacer_throws. }
  unfold stripLiquidTags. destruct markdown as [|c t].
  - split; [discriminate|].
    intros [(h & Hin & _)|(mid & h & Hmid & Hin & _)].
    + vm_compute in Hin. contradiction.
    + vm_compute in Hmid. injection Hmid as <-.
      vm_compute in Hin. contradiction.
  - destruct (replace_fn blockTagPattern (block_replacer (c :: t)) (c :: t))
      as [mid|] eqn:E; cbn [bind].
    + rewrite Hinline. split.
      * intros (h & H). right. exists mid, h. auto.
      * intros [Hex|(mid' & h & [= <-] & H)]; [|eauto].
        apply Hblock in Hex. discriminate.
    + split; [intros _; left; now apply Hblock|reflexivity].
Qed.

Lemma stripLiquidTags_throws_iff_witness :
  stripLiquidTags "See {% Constructor x %}" = Throw.
Proof.
  apply (proj2 (stripLiquidTags_throws_iff "See {% Constructor x %}")).
  right. eexists _, _. split; [vm_compute; reflexivity|].
  split; [vm_compute; left; reflexivity|].
  split; vm_compute; auto.
Defined.

(* ------------------------------------------------------------------ *)
(** ** The validation report, part by part *)

Import Validator Report.

















(* ------------------------------------------------------------------ *)
(** ** When a report is valid, and what its issues look like *)













Lemma Forall_map_all {A B} (f : A -> B) (P : B -> Prop) l :
  (forall a, P (f a)) -> Forall P (map f l).
Proof. intros H. induction l; constructor; auto. Qed.










Lemma StronglySorted_map {A B} (f : A -> B) (R : B -> B -> Prop) l :
  StronglySorted (fun a b => R (f a) (f b)) l -> StronglySorted R (map f l).
Proof.
  induction 1 as [|a l' _ IH Ha]; [constructor|].
  cbn [map]. constructor; [exact IH|].
  apply Forall_map. exact Ha.
Qed.



(* ------------------------------------------------------------------ *)
(** ** The normalised tag list *)

Lemma lower_char_space c : is_space (lower_char c) = is_space c.
Proof. destruct c as [[] [] [] [] [] [] [] []]; reflexivity. Qed.

Lemma lower_char_idem c : lower_char (lower_char c) = lower_char c.
Proof. destruct c as [[] [] [] [] [] [] [] []]; reflexivity. Qed.

Lemma toLowerCase_idem (s : str) : toLowerCase (toLowerCase s) = toLowerCase s.
Proof.
  unfold toLowerCase. rewrite map_map. apply map_ext, lower_char_idem.
Qed.

Lemma trimStart_toLowerCase (s : str) :
  trimStart (toLowerCase s) = toLowerCase (trimStart s).
Proof.
  induction s as [|c s IH]; [reflexivity|].
  cbn [toLowerCase map trimStart]. rewrite lower_char_space.
  destruct (is_space c); [exact IH|reflexivity].
Qed.

Lemma trim_toLowerCase (s : str) :
  trim (toLowerCase s) = toLowerCase (trim s).
Proof.
  unfold trim, trimEnd. rewrite trimStart_toLowerCase.
  unfold toLowerCase at 1. rewrite <- map_rev.
  fold (toLowerCase (rev (trimStart s))).
  rewrite trimStart_toLowerCase. unfold toLowerCase. now rewrite map_rev.
Qed.

Lemma split_char_length sep (s : str) :
  length (split_char sep s) = 1 + length (filter (Ascii.eqb sep) s).
Proof.
  induction s as [|c t IH]; [reflexivity|].
  cbn [split_char filter].
  rewrite (Ascii.eqb_sym sep c).
  destruct (Ascii.eqb c sep); cbn [length]; [now rewrite IH|].
  destruct (split_char sep t); cbn [length] in *; lia.
Qed.

(** X13.  Every normalised tag is trimmed and in lower case, so that
    normalising it again changes nothing.  A tag string yields no empty
    tag and at most one tag more than it has commas; a tag array yields one
    tag per entry, empty ones included. *)
Theorem normalizeTagList_normal (t : TagsParam) :
  Forall (fun x => trim x = x /\ toLowerCase x = x) (normalizeTagList t)
  /\ match t with
     | TagsString s =>
         Forall (fun x => x <> []) (normalizeTagList t)
         /\ length (normalizeTagList t)
            <= 1 + length (filter (Ascii.eqb ",") s)
     | TagsArray l => length (normalizeTagList t) = length l
     end.
Proof.
  assert (Hn : forall l : list str,
    Forall (fun x => trim x = x /\ toLowerCase x = x)
      (map (fun x => toLowerCase (trim x)) l)).
  { intros l. apply Forall_map_all. intros x. split.
    - now rewrite trim_toLowerCase, trim_idem.
    - apply toLowerCase_idem. }
  destruct t as [s|l]; cbn [normalizeTagList].
  - split; [|split].
    + apply Forall_forall. intros x Hx. apply filter_In in Hx.
      exact (proj1 (Forall_forall _ _) (Hn _) x (proj1 Hx)).
    + apply Forall_forall. intros x Hx. apply filter_In in Hx.
      destruct Hx as [_ Hx]. now destruct x.
    + etransitivity; [apply filter_length_le|].
      now rewrite length_map, split_char_length.
  - split; [apply Hn|apply length_map].
Qed.

(* ------------------------------------------------------------------ *)
(** ** What a merge holds *)

Import Merge.












Example test_merge_lookup :
  let b : str :=
    doc ["---"; "title: FM Title"; "cover_image: https://x.io/c.png";
         "tags:"; "  - a"; "  - b"; "layout: post"; "---"; "# Content"] in
  match mergeAndNormalize GrayMatter.matter (Some b)
          [("title" : str, JStr "JSON Title"); ("series" : str, JUndefined)]
  with
  | Ok r =>
      get (params r) "title" = JStr "JSON Title"
      /\ get (params r) "main_image" = JStr "https://x.io/c.png"
      /\ get (params r) "tags" = JStr "a, b"
      /\ get (params r) "cover_image" = JUndefined
      /\ get (params r) "layout" = JUndefined
      /\ get (params r) "series" = JUndefined
  | Throw => False
  end.
Proof. vm_compute. repeat split. Qed.




(* ------------------------------------------------------------------ *)
(** ** The rate limiter: backoff *)

Lemma hits_backoff n (l : RateLimiter.RateLimiter) :
  (0 <= RateLimiter.backoffMs l)%Z ->
  RateLimiter.backoffMs (snd (RateLimiter.hits n l))
  = (if n =? 0 then RateLimiter.backoffMs l
     else Z.min (RateLimiter.backoffMs l * 2 ^ Z.of_nat n) 30000)
  /\ RateLimiter.create (snd (RateLimiter.hits n l)) = RateLimiter.create l
  /\ RateLimiter.update (snd (RateLimiter.hits n l)) = RateLimiter.update l.
Proof.
  revert l; induction n as [|n IH]; intros l Hl; [now cbn|].
  cbn [RateLimiter.hits RateLimiter.recordRateLimitHit].
  set (l1 := RateLimiter.mkLimiter _ _ _).
  destruct (RateLimiter.hits n l1) as [delays l2] eqn:E.
  assert (E2 : l2 = snd (RateLimiter.hits n l1)) by now rewrite E.
  cbn [snd]. subst l2.
  destruct (IH l1) as (Hb & Hc & Hu).
  { unfold l1, RateLimiter.maxBackoffMs. cbn. lia. }
  rewrite Hb, Hc, Hu. split; [|now split].
  unfold l1, RateLimiter.maxBackoffMs. cbn [RateLimiter.backoffMs].
  change (S n =? 0) with false. cbv iota.
  destruct n as [|n]; [cbn [Nat.eqb]; cbv iota; f_equal; lia|].
  change (S n =? 0) with false. cbv iota.
  rewrite (Nat2Z.inj_succ (S n)), Z.pow_succ_r by lia.
  assert (0 < 2 ^ Z.of_nat (S n))%Z by (apply Z.pow_pos_nonneg; lia).
  destruct (Z.min_spec (RateLimiter.backoffMs l * 2) 30000) as [[? ->]|[? ->]].
  - f_equal. lia.
  - rewrite !Z.min_r; nia.
Qed.

(** X16.  After a reset, and on a new limiter, the delay that the
    (n+1)-th 429 in a row returns is 3000 doubled n times, capped at
    30000 milliseconds; the buckets are not touched. *)
Theorem recordRateLimitHit_backoff (l : RateLimiter.RateLimiter) (n : nat) :
  let before := snd (RateLimiter.hits n (RateLimiter.resetBackoff l)) in
  fst (RateLimiter.recordRateLimitHit before)
  = Z.min (3000 * 2 ^ Z.of_nat n) 30000
  /\ (3000 <= fst (RateLimiter.recordRateLimitHit before) <= 30000)%Z
  /\ RateLimiter.create (snd (RateLimiter.recordRateLimitHit before))
     = RateLimiter.create l
  /\ RateLimiter.update (snd (RateLimiter.recordRateLimitHit before))
     = RateLimiter.update l
  /\ RateLimiter.backoffMs RateLimiter.new = 3000%Z.
Proof.
  intros before.
  destruct (hits_backoff n (RateLimiter.resetBackoff l)) as (Hb & Hc & Hu);
    [cbn; lia|].
  fold before in Hb, Hc, Hu.
  cbn [RateLimiter.recordRateLimitHit fst snd RateLimiter.create
       RateLimiter.update].
  cbn [RateLimiter.resetBackoff RateLimiter.backoffMs RateLimiter.create
       RateLimiter.update] in Hb, Hc, Hu.
  assert (Hd : RateLimiter.backoffMs before
               = Z.min (3000 * 2 ^ Z.of_nat n) 30000).
  { rewrite Hb. destruct n; [reflexivity|]. reflexivity. }
  assert (1 <= 2 ^ Z.of_nat n)%Z.
  { assert (0 < 2 ^ Z.of_nat n)%Z by (apply Z.pow_pos_nonneg; lia). lia. }
  rewrite Hd. repeat split; try assumption; try lia.
Qed.


(* ------------------------------------------------------------------ *)
(** ** The rate limiter: the sliding window *)

Lemma prune_prune W t1 t2 (l : list Z) :
  (t1 <= t2)%Z ->
  RateLimiter.prune W t2 (RateLimiter.prune W t1 l) = RateLimiter.prune W t2 l.
Proof.
  intros Ht. unfold RateLimiter.prune.
  induction l as [|g l IH]; [reflexivity|]. cbn [filter].
  destruct (Z.ltb_spec (t1 - g) W) as [H1|H1]; cbn [filter].
  - now rewrite IH.
  - rewrite IH. destruct (Z.ltb_spec (t2 - g) W); [lia|reflexivity].
Qed.

Lemma prune_snoc W t (l : list Z) p :
  (0 < W)%Z -> (t <= p)%Z ->
  RateLimiter.prune W t (l ++ [p]) = RateLimiter.prune W t l ++ [p].
Proof.
  intros HW Hp. unfold RateLimiter.prune. rewrite filter_app. cbn [filter].
  destruct (Z.ltb_spec (t - p) W); [reflexivity|lia].
Qed.

Lemma prune_length W t (l : list Z) :
  length (RateLimiter.prune W t l) <= length l.
Proof. apply filter_length_le. Qed.

Lemma prune_head W t1 t2 g (l rest : list Z) :
  RateLimiter.prune W t1 l = g :: rest ->
  (W <= t2 - g)%Z ->
  length (RateLimiter.prune W t2 (g :: rest)) <= length rest.
Proof.
  intros _ Hg. unfold RateLimiter.prune. cbn [filter].
  destruct (Z.ltb_spec (t2 - g) W); [lia|]. apply filter_length_le.
Qed.

Lemma prune_In W t (l : list Z) g :
  In g (RateLimiter.prune W t l) -> (t - g < W)%Z.
Proof.
  unfold RateLimiter.prune. intros H. apply filter_In in H.
  destruct H as [_ H]. now apply Z.ltb_lt.
Qed.

(** A call that nothing overlaps, in one piece. *)
Lemma acquire_alone (bucket : RateLimiter.Bucket) clock :
  RateLimiter.acquire bucket clock
  = let pruned :=
      RateLimiter.prune (RateLimiter.windowMs bucket) (RateLimiter.now clock)
        (RateLimiter.timestamps bucket) in
    if RateLimiter.maxTokens bucket <=? length pruned then
      match pruned with
      | oldestTimestamp :: _ =>
          let waitTime :=
            (oldestTimestamp + RateLimiter.windowMs bucket
             - RateLimiter.now clock + 1)%Z in
          (if (0 <? waitTime)%Z then Some waitTime else None,
           RateLimiter.mkBucket (RateLimiter.maxTokens bucket)
             (RateLimiter.windowMs bucket)
             (RateLimiter.prune (RateLimiter.windowMs bucket)
                (RateLimiter.afterWait clock) pruned
              ++ [RateLimiter.pushedAt clock]))
      | [] =>
          (None,
           RateLimiter.mkBucket (RateLimiter.maxTokens bucket)
             (RateLimiter.windowMs bucket) [RateLimiter.pushedAt clock])
      end
    else
      (None,
       RateLimiter.mkBucket (RateLimiter.maxTokens bucket)
         (RateLimiter.windowMs bucket)
         (pruned ++ [RateLimiter.pushedAt clock])).
Proof.
  unfold RateLimiter.acquire, RateLimiter.acquire_begin,
    RateLimiter.acquire_resume. cbv zeta.
  destruct (_ <=? _); [|reflexivity].
  destruct (RateLimiter.prune _ _ _) as [|oldest rest]; [reflexivity|].
  destruct (0 <? _)%Z; reflexivity.
Qed.

(** One call of [acquire] on a bucket that holds the grants of the window:
    it holds them again afterwards, the new one included. *)
Lemma acquire_pruned max W (H : list Z) tau last (clock : RateLimiter.Clock) :
  1 <= max -> (0 < W)%Z -> (tau <= last)%Z ->
  length (RateLimiter.prune W tau H) <= max ->
  RateLimiter.timely last
    (RateLimiter.mkBucket max W (RateLimiter.prune W tau H)) [clock] ->
  exists tau',
    (tau' <= RateLimiter.pushedAt clock)%Z
    /\ snd (RateLimiter.acquire
              (RateLimiter.mkBucket max W (RateLimiter.prune W tau H)) clock)
       = RateLimiter.mkBucket max W
           (RateLimiter.prune W tau' (H ++ [RateLimiter.pushedAt clock]))
    /\ length (RateLimiter.prune W tau'
                 (H ++ [RateLimiter.pushedAt clock])) <= max.
Proof.
  intros Hmax HW Htau Hlen (Hnow & Hwait & Hpush & Htimer & _).
  rewrite acquire_alone in *. cbv zeta in *.
  cbn [RateLimiter.maxTokens RateLimiter.windowMs RateLimiter.timestamps]
    in *.
  rewrite prune_prune in * by lia.
  assert (Hlen1 : length (RateLimiter.prune W (RateLimiter.now clock) H)
                  <= max).
  { rewrite <- (prune_prune W tau) by lia.
    etransitivity; [apply prune_length|exact Hlen]. }
  destruct (Nat.leb_spec max
              (length (RateLimiter.prune W (RateLimiter.now clock) H)))
    as [Hfull|Hroom].
  - destruct (RateLimiter.prune W (RateLimiter.now clock) H)
      as [|oldest rest] eqn:Ep; [cbn [length] in Hfull; lia|].
    assert (Hold : (RateLimiter.now clock - oldest < W)%Z).
    { apply (prune_In W _ H). rewrite Ep. now left. }
    cbn [fst snd] in *.
    destruct (Z.ltb_spec 0 (oldest + W - RateLimiter.now clock + 1))
      as [Hpos|Hneg]; [|lia].
    specialize (Htimer _ eq_refl).
    exists (RateLimiter.afterWait clock).
    split; [exact Hpush|].
    rewrite prune_snoc by lia.
    rewrite <- (prune_prune W (RateLimiter.now clock)
                  (RateLimiter.afterWait clock) H) by lia.
    rewrite Ep. split; [reflexivity|].
    rewrite length_app. cbn [length].
    assert (length (RateLimiter.prune W (RateLimiter.afterWait clock)
                      (oldest :: rest)) <= length rest).
    { apply (prune_head W (RateLimiter.now clock) _ _ H); [exact Ep|lia]. }
    cbn [length] in Hlen1. lia.
  - cbn [snd]. exists (RateLimiter.now clock).
    split; [lia|]. rewrite prune_snoc by lia.
    split; [reflexivity|]. rewrite length_app. cbn [length]. lia.
Qed.

Lemma timely_head last bucket clock rest :
  RateLimiter.timely last bucket (clock :: rest) ->
  RateLimiter.timely last bucket [clock]
  /\ RateLimiter.timely (RateLimiter.pushedAt clock)
       (snd (RateLimiter.acquire bucket clock)) rest.
Proof.
  cbn [RateLimiter.timely]. intros (H1 & H2 & H3 & H4 & H5).
  repeat split; assumption.
Qed.

Lemma acquire_all_pruned max W (clocks : list RateLimiter.Clock) :
  forall (H : list Z) tau last t,
  1 <= max -> (0 < W)%Z -> (tau <= last)%Z -> (last <= t)%Z ->
  length (RateLimiter.prune W tau H) <= max ->
  RateLimiter.timely last
    (RateLimiter.mkBucket max W (RateLimiter.prune W tau H)) clocks ->
  Forall (fun c => (RateLimiter.pushedAt c <= t)%Z) clocks ->
  exists tau',
    (tau' <= t)%Z
    /\ RateLimiter.acquire_all
         (RateLimiter.mkBucket max W (RateLimiter.prune W tau H)) clocks
       = RateLimiter.mkBucket max W
           (RateLimiter.prune W tau'
              (H ++ map RateLimiter.pushedAt clocks))
    /\ length (RateLimiter.prune W tau'
                 (H ++ map RateLimiter.pushedAt clocks)) <= max.
Proof.
  induction clocks as [|clock rest IH];
    intros H tau last t Hmax HW Htau Hlast Hlen Htimely Hall.
  - exists tau. cbn [map RateLimiter.acquire_all fold_left].
    rewrite app_nil_r. split; [lia|]. split; [reflexivity|exact Hlen].
  - apply timely_head in Htimely. destruct Htimely as [Hone Hrest].
    inversion Hall as [|? ? Hp Hall']; subst.
    destruct (acquire_pruned max W H tau last clock Hmax HW Htau Hlen Hone)
      as (tau1 & Htau1 & Hacq & Hlen1).
    unfold RateLimiter.acquire_all in *. cbn [fold_left map].
    rewrite Hacq in *.
    destruct (IH (H ++ [RateLimiter.pushedAt clock]) tau1
                (RateLimiter.pushedAt clock) t Hmax HW Htau1 Hp Hlen1
                Hrest Hall')
      as (tau' & Ht' & Hrun & Hlen').
    exists tau'. rewrite <- app_assoc in Hrun, Hlen'. cbn [app] in *.
    split; [exact Ht'|]. split; [exact Hrun|exact Hlen'].
Qed.

(** X17.  The sliding window holds for calls of [acquire] that do not
    overlap, and only for those.  When each call on a bucket begins after
    the one before it has pushed its timestamp, the clock never runs
    backwards and the timer fires no more than a millisecond early, then of
    all the acquisitions granted, starting from an empty bucket, fewer than
    [maxTokens + 1] lie within a window that ends at or after the last
    grant, and the bucket never keeps more than [maxTokens] timestamps.
    Calls that overlap are not bounded so: on a bucket of two tokens in ten
    milliseconds, filled by grants at 0 and 5, a call at 6 and a call at 7
    are both suspended, for 5 and 4 milliseconds, and when both resume at
    11, neither testing the length again, the bucket holds the three
    timestamps 5, 11 and 11. *)
Theorem acquire_window_bound (max : nat) (W start t : Z)
    (clocks : list RateLimiter.Clock) :
  (1 <= max -> (0 < W)%Z ->
   RateLimiter.timely start (RateLimiter.mkBucket max W []) clocks ->
   Forall (fun c => (RateLimiter.pushedAt c <= t)%Z) clocks ->
   length (filter (fun g => (t - g <? W)%Z)
             (map RateLimiter.pushedAt clocks)) <= max
   /\ length (RateLimiter.timestamps
                (RateLimiter.acquire_all (RateLimiter.mkBucket max W [])
                   clocks)) <= max)
  /\ (let full :=
        RateLimiter.acquire_all (RateLimiter.mkBucket 2 10 [])
          [RateLimiter.mkClock 0 0 0; RateLimiter.mkClock 5 5 5] in
      let first := RateLimiter.mkClock 6 11 11 in
      let second := RateLimiter.mkClock 7 11 11 in
      full = RateLimiter.mkBucket 2 10 [0; 5]%Z
      /\ RateLimiter.acquire_begin full first = RateLimiter.Waiting 5 full
      /\ RateLimiter.acquire_begin full second = RateLimiter.Waiting 4 full
      /\ RateLimiter.acquire_resume
           (RateLimiter.acquire_resume full 11 11) 11 11
         = RateLimiter.mkBucket 2 10 [5; 11; 11]%Z).
Proof.
  split; [|cbv zeta; repeat split; reflexivity].
  intros Hmax HW Htimely Hall.
  destruct clocks as [|clock rest]; [cbn; lia|].
  assert (Hstart : (start <= t)%Z).
  { inversion Hall; subst. cbn [RateLimiter.timely] in Htimely. lia. }
  destruct (acquire_all_pruned max W (clock :: rest) [] start start t
              Hmax HW (Z.le_refl _) Hstart) as (tau' & Ht' & Hrun & Hlen');
    try assumption; [cbn; lia|].
  change (RateLimiter.prune W start []) with (@nil Z) in Hrun.
  rewrite Hrun. cbn [RateLimiter.timestamps app] in *.
  split; [|exact Hlen'].
  change (filter (fun g => (t - g <? W)%Z)
            (map RateLimiter.pushedAt (clock :: rest)))
    with (RateLimiter.prune W t (map RateLimiter.pushedAt (clock :: rest))).
  rewrite <- (prune_prune W tau' t) by lia.
  etransitivity; [apply prune_length|exact Hlen'].
Qed.

Lemma acquire_window_bound_witness :
  let clocks :=
    [ RateLimiter.mkClock 0 0 0; RateLimiter.mkClock 1 1 1;
      RateLimiter.mkClock 2 11 11 ] in
  length (filter (fun g => (11 - g <? 10)%Z)
            (map RateLimiter.pushedAt clocks)) <= 2
  /\ length (RateLimiter.timestamps
               (RateLimiter.acquire_all (RateLimiter.mkBucket 2 10 [])
                  clocks)) <= 2.
Proof.
  intros clocks.
  apply (proj1 (acquire_window_bound 2 10 0 11 clocks)).
  - lia.
  - lia.
  - simpl. repeat split; try lia; intros w [= <-]; lia.
  - repeat constructor; simpl; lia.
Defined.

Example test_acquire_waits :
  RateLimiter.acquire (RateLimiter.mkBucket 2 10 [0; 1]%Z)
    (RateLimiter.mkClock 2 11 11)
  = (Some 9%Z, RateLimiter.mkBucket 2 10 [11%Z]).
Proof. reflexivity. Qed.


(* ------------------------------------------------------------------ *)
(** ** The error of a response status *)

Ltac status_cases status :=
  unfold Errors.mapHttpStatusToError;
  destruct (Z.eqb_spec status 401);
  [|destruct (Z.eqb_spec status 403);
    [|destruct (Z.eqb_spec status 404);
      [|destruct (Z.eqb_spec status 422);
        [|destruct (Z.eqb_spec status 429);
          [|destruct (Z.leb_spec 400 status);
            destruct (Z.ltb_spec status 500)]]]]];
  cbn [andb Errors.code Errors.message Errors.details].

Lemma mapHttpStatusToError_rate_limited status body :
  Errors.code (Errors.mapHttpStatusToError status body)
  = Validator.rate_limited <-> status = 429%Z.
Proof. status_cases status; split; (discriminate || lia || reflexivity). Qed.



Example test_mapHttpStatusToError :
  Errors.code (Errors.mapHttpStatusToError 418
                 (JObj [("error" : str, JStr "I'm a teapot")]))
  = Validator.invalid_request
  /\ Errors.message (Errors.mapHttpStatusToError 500
                       (JObj [("message" : str, JStr "broken")]))
     = list_ascii_of_string "Forem API error (500): Unknown error".
Proof. split; reflexivity. Qed.

(* ------------------------------------------------------------------ *)
(** ** Pagination *)

Section Paginate.

Context {T : Type}.
Variable fetchPage : nat -> Z -> Exc (list T).

Lemma paginate_collects perPage (pages : list (list T)) (final : list T) :
  forall fuel page results,
  (forall i batch, nth_error pages i = Some batch ->
     fetchPage (page + i) perPage = Ok batch
     /\ (perPage <= Z.of_nat (length batch))%Z) ->
  fetchPage (page + length pages) perPage = Ok final ->
  (Z.of_nat (length final) < perPage)%Z ->
  length pages < fuel ->
  Pagination.paginate fetchPage fuel perPage page results
  = Some (Ok (results ++ concat pages ++ final)).
Proof.
  induction pages as [|batch pages IH];
    intros fuel page results Hfull Hlast Hshort Hfuel.
  - destruct fuel as [|fuel]; [cbn in Hfuel; lia|].
    cbn [Pagination.paginate length concat app] in *.
    rewrite Nat.add_0_r in Hlast. rewrite Hlast.
    destruct (Z.ltb_spec (Z.of_nat (length final)) perPage); [reflexivity|lia].
  - destruct fuel as [|fuel]; [cbn in Hfuel; lia|].
    cbn [Pagination.paginate concat].
    destruct (Hfull 0 batch eq_refl) as [Hb Hlen].
    rewrite Nat.add_0_r in Hb. rewrite Hb.
    destruct (Z.ltb_spec (Z.of_nat (length batch)) perPage); [lia|].
    rewrite (IH fuel (S page) (results ++ batch)).
    + now rewrite <- !app_assoc.
    + intros i b Hi. replace (S page + i) with (page + S i) by lia.
      now apply Hfull.
    + cbn [length] in Hlast.
      now replace (S page + length pages) with (page + S (length pages))
        by lia.
    + exact Hshort.
    + cbn [length] in Hfuel. lia.
Qed.

Lemma paginate_endless perPage :
  (forall page, exists batch,
     fetchPage page perPage = Ok batch
     /\ (perPage <= Z.of_nat (length batch))%Z) ->
  forall fuel page results,
    Pagination.paginate fetchPage fuel perPage page results = None.
Proof.
  intros Hfull. induction fuel as [|fuel IH]; intros page results;
    [reflexivity|].
  cbn [Pagination.paginate].
  destruct (Hfull page) as (batch & -> & Hlen).
  destruct (Z.ltb_spec (Z.of_nat (length batch)) perPage); [lia|].
  apply IH.
Qed.

End Paginate.

(** X20.  When the pages 1 to k are full (at least [perPage] items each)
    and page k+1 is short, the result is the items of the pages 1 to k+1
    in order, with any bound above k on the number of pages asked for. *)
Theorem paginateAll_collects {T : Type} (fetchPage : nat -> Z -> Exc (list T))
    (perPage : Z) (pages : list (list T)) (final : list T) (fuel : nat) :
  (forall i batch, nth_error pages i = Some batch ->
     fetchPage (1 + i) perPage = Ok batch
     /\ (perPage <= Z.of_nat (length batch))%Z) ->
  fetchPage (1 + length pages) perPage = Ok final ->
  (Z.of_nat (length final) < perPage)%Z ->
  length pages < fuel ->
  Pagination.paginateAll fetchPage fuel (Some perPage)
  = Some (Ok (concat pages ++ final)).
Proof.
  intros Hfull Hlast Hshort Hfuel. unfold Pagination.paginateAll.
  now rewrite (paginate_collects fetchPage perPage pages final fuel 1 []).
Qed.

Lemma paginateAll_collects_witness :
  let fetchPage := fun (page : nat) (_ : Z) =>
    Ok (nth (page - 1) [[1; 2; 3]; [4; 5; 6]; [7; 8]] []) in
  Pagination.paginateAll fetchPage 5 (Some 3%Z)
  = Some (Ok (concat [[1; 2; 3]; [4; 5; 6]] ++ [7; 8])).
Proof.
  intros fetchPage.
  apply (paginateAll_collects fetchPage 3 [[1; 2; 3]; [4; 5; 6]] [7; 8] 5).
  - intros [|[|[|i]]] batch; simpl; intros [= <-]; split;
      (reflexivity || (simpl; lia)).
  - reflexivity.
  - simpl. lia.
  - simpl. lia.
Defined.

(** X21.  When every page is full the loop never ends, whatever the number
    of pages it is allowed: so it is for a page size of zero or less, which
    no batch is shorter than. *)
Theorem paginateAll_endless {T : Type} (fetchPage : nat -> Z -> Exc (list T))
    (perPage : Z) :
  ((forall page, exists batch,
      fetchPage page perPage = Ok batch
      /\ (perPage <= Z.of_nat (length batch))%Z) ->
   forall fuel, Pagination.paginateAll fetchPage fuel (Some perPage) = None)
  /\ ((perPage <= 0)%Z ->
      (forall page, exists batch, fetchPage page perPage = Ok batch) ->
      forall fuel,
        Pagination.paginateAll fetchPage fuel (Some perPage) = None).
Proof.
  split.
  - intros Hfull fuel. now apply paginate_endless.
  - intros Hp Hok fuel. apply paginate_endless.
    intros page. destruct (Hok page) as [batch Hb].
    exists batch. split; [exact Hb|lia].
Qed.

Lemma paginateAll_endless_witness :
  Pagination.paginateAll (fun (_ : nat) (_ : Z) => Ok (@nil nat)) 1000
    (Some 0%Z) = None.
Proof.
  apply (proj2 (paginateAll_endless (fun (_ : nat) (_ : Z) => Ok (@nil nat))
                  0)).
  - lia.
  - intros page. exists []. reflexivity.
Defined.


(* ------------------------------------------------------------------ *)
(** ** The retries of a request *)

Ltac fetch_case fetch i :=
  let F := fresh "F" in
  let e := fresh "e" in
  let s := fresh "s" in
  let j := fresh "j" in
  let Hs := fresh "Hs" in
  let Hok := fresh "Hok" in
  destruct (fetch i) as [e|s j] eqn:F;
  [|destruct (Z.eqb_spec s 429) as [Hs|Hs];
    [subst s
    |destruct (Z.eqb_spec s 204);
     [|destruct (negb (Client.ok s)) eqn:Hok]]];
  cbn [Client.fetches Client.waits Client.outcome Client.limiter
       Nat.sub Nat.ltb Nat.leb RateLimiter.hits fst snd
       RateLimiter.recordRateLimitHit RateLimiter.resetBackoff
       RateLimiter.backoffMs RateLimiter.create RateLimiter.update].

(** A call that did not come back with 429 ends the request. *)
Ltac last_fetch :=
  split; [lia|];
  split; [try rewrite app_nil_r; try rewrite <- !app_assoc; reflexivity|];
  split;
  [ let i := fresh "i" in
    let Hi := fresh "Hi" in
    intros i Hi;
    repeat (destruct i as [|i]; [solve [eauto]|]); lia|];
  split;
  [ split;
    [ let e := fresh "e" in
      let He := fresh "He" in
      let Hc := fresh "Hc" in
      intros (e & He & Hc);
      first [ discriminate He
            | injection He as <-;
              first [ discriminate Hc
                    | apply mapHttpStatusToError_rate_limited in Hc;
                      contradiction ] ]
    | let H := fresh "H" in
      let json := fresh "json" in
      let Hj := fresh "Hj" in
      intros H;
      match goal with
      | F : ?fetch ?k = Client.NetworkFailure _ |- _ =>
          destruct (H k ltac:(lia)) as [json Hj]; congruence
      | F : ?fetch ?k = Client.Response ?s _, Hs : ?s <> 429%Z |- _ =>
          destruct (H k ltac:(lia)) as [json Hj]; congruence
      end ]
  | match goal with
    | F : ?fetch ?k = _ |- context [?fetch ?k] => rewrite F
    end;
    try reflexivity; intros _; reflexivity ].

(** X19.  The loop of a request calls [fetch] one to three times, and
    sleeps once before each call but the first.  Every call before the
    last one came back with status 429, and the delays slept are those of
    as many 429s in a row.  The request throws a [rate_limited] error
    exactly when three calls in a row come back with 429.  When the last
    call comes back with another status the backoff is reset to 3000
    milliseconds, and when it fails to connect the backoff stays as the
    429s before it left it. *)
Theorem request_attempts (fetch : nat -> Client.FetchResult)
    (method path : str) (l : RateLimiter.RateLimiter) (slept : list Z) :
  let r :=
    Client.attempts fetch method path Client.MAX_RETRIES 0 l None slept in
  let retries := Client.fetches r - 1 in
  1 <= Client.fetches r <= 3
  /\ Client.waits r = slept ++ fst (RateLimiter.hits retries l)
  /\ (forall i, i < retries -> exists json, fetch i = Client.Response 429 json)
  /\ ((exists e, Client.outcome r = Client.Thrown e
                 /\ Errors.code e = Validator.rate_limited)
      <-> forall i, i < 3 -> exists json, fetch i = Client.Response 429 json)
  /\ match fetch retries with
     | Client.Response status _ =>
         status <> 429%Z -> RateLimiter.backoffMs (Client.limiter r) = 3000%Z
     | Client.NetworkFailure _ =>
         Client.limiter r = snd (RateLimiter.hits retries l)
     end.
Proof.
  cbv zeta. unfold Client.MAX_RETRIES.
  cbn [Client.attempts]. unfold Client.MAX_RETRIES.
  cbn [Nat.sub Nat.ltb Nat.leb].
  fetch_case fetch 0; try last_fetch.
  fetch_case fetch 1; try last_fetch.
  fetch_case fetch 2; try last_fetch.
  split; [lia|]. split; [now rewrite <- app_assoc|].
  split; [intros i Hi; destruct i as [|[|i]]; eauto; lia|].
  split.
  - split.
    + intros _ i Hi. destruct i as [|[|[|i]]]; eauto; lia.
    + intros _. eexists. split; reflexivity.
  - match goal with F : fetch 2 = _ |- _ => rewrite F end.
    intros H. now elim H.
Qed.

Lemma request_attempts_witness :
  let fetch := fun _ : nat => Client.Response 429 None in
  exists e,
    Client.outcome
      (Client.attempts fetch "GET" "/articles/me" Client.MAX_RETRIES 0
         RateLimiter.new None [])
    = Client.Thrown e
    /\ Errors.code e = Validator.rate_limited.
Proof.
  intros fetch.
  pose proof (request_attempts fetch "GET" "/articles/me" RateLimiter.new [])
    as H.
  cbv zeta in H. destruct H as (_ & _ & _ & H & _).
  apply (proj2 H). intros i _. now exists None.
Defined.

Example test_request_backoff :
  let r := Client.attempts (fun _ : nat => Client.Response 429 None)
             "GET" "/articles/me" Client.MAX_RETRIES 0 RateLimiter.new None
             [] in
  Client.waits r = [3000; 6000]%Z
  /\ Client.fetches r = 3
  /\ RateLimiter.backoffMs (Client.limiter r) = 24000%Z.
Proof. repeat split. Qed.


Lemma backoff_whole_seconds (l : RateLimiter.RateLimiter) :
  (RateLimiter.backoffMs RateLimiter.new mod 1000 = 0)%Z
  /\ (RateLimiter.backoffMs (RateLimiter.resetBackoff l) mod 1000 = 0)%Z
  /\ ((RateLimiter.backoffMs l mod 1000 = 0)%Z ->
      (RateLimiter.backoffMs (snd (RateLimiter.recordRateLimitHit l))
         mod 1000 = 0)%Z).
Proof.
  split; [reflexivity|]. split; [reflexivity|]. intros H.
  cbn [RateLimiter.recordRateLimitHit snd RateLimiter.backoffMs].
  unfold RateLimiter.maxBackoffMs.
  destruct (Z.min_spec (RateLimiter.backoffMs l * 2) 30000)
    as [[_ ->]|[_ ->]]; [|reflexivity].
  rewrite Z.mul_mod, H by lia. reflexivity.
Qed.

(* ------------------------------------------------------------------ *)
(** ** Preparing a cross-post *)

Lemma detected_all_unsafe (markdown : str) :
  Forall (fun t => crossPostSafe t = false)
    (LiquidTags.tags (detectLiquidTags markdown)).
Proof. apply detected_Forall; intros h _ _; simpl; apply safety_of_false. Qed.

Lemma detected_unsafe_flag (markdown : str) :
  hasCrossPostUnsafe (detectLiquidTags markdown)
  = negb (length (LiquidTags.tags (detectLiquidTags markdown)) =? 0).
Proof.
  pose proof (detected_all_unsafe markdown) as HF. revert HF.
  unfold detectLiquidTags.
  destruct markdown as [|c m];
    cbn [LiquidTags.tags hasCrossPostUnsafe]; [reflexivity|].
  intros HF. rewrite (all_unsafe_flag _ HF).
  now destruct (sort_by_line _).
Qed.

(** X22.  Preparing a cross-post with [strip_liquid_tags] set to false
    always answers with the body as given.  Otherwise the answer is an
    error exactly when the stripper throws, and the report of the scanner
    is lost with it.  In an answer with data, the number of tags found is
    the number of details, the details come in ascending order of line,
    none is marked safe, the unsafe flag says whether a tag was found, and
    the canonical URL is the one given. *)
Theorem handlePrepareCrosspost_response (a : Tools.Utilities.args) :
  (Tools.Utilities.strip_liquid_tags a = Some false ->
   exists d,
     Tools.Utilities.handlePrepareCrosspost a = Tools.JsonResponse d
     /\ Tools.Utilities.body d = Tools.Utilities.body_markdown a)
  /\ ((exists c,
         Tools.Utilities.handlePrepareCrosspost a = Tools.ErrorResponse c)
      <-> Tools.Utilities.strip_liquid_tags a <> Some false
          /\ stripLiquidTags (Tools.Utilities.body_markdown a) = Throw)
  /\ (forall d,
        Tools.Utilities.handlePrepareCrosspost a = Tools.JsonResponse d ->
        let report := Tools.Utilities.r_liquid_tag_report d in
        Tools.Utilities.tags_found report
        = length (Tools.Utilities.details report)
        /\ Tools.Utilities.has_cross_post_unsafe report
           = negb (Tools.Utilities.tags_found report =? 0)
        /\ Forall (fun x => Tools.Utilities.d_cross_post_safe x = false)
             (Tools.Utilities.details report)
        /\ StronglySorted
             (fun x y => Tools.Utilities.d_line x <= Tools.Utilities.d_line y)
             (Tools.Utilities.details report)
        /\ Tools.Utilities.r_canonical_url d
           = Tools.Utilities.canonical_url a).
Proof.
  unfold Tools.Utilities.handlePrepareCrosspost.
  split; [|split].
  - intros ->. eexists. split; reflexivity.
  - split.
    + intros [c Hc].
      destruct (Tools.Utilities.strip_liquid_tags a) as [[|]|];
        destruct (stripLiquidTags (Tools.Utilities.body_markdown a));
        try discriminate; split; congruence.
    + intros [Hs Ht]. rewrite Ht.
      destruct (Tools.Utilities.strip_liquid_tags a) as [[|]|];
        first [now elim Hs | now exists Validator.api_error].
  - intros d Hd.
    set (processed := match Tools.Utilities.strip_liquid_tags a with
                      | Some false => _ | _ => _ end) in Hd.
    destruct processed as [processedBody|]; [|discriminate].
    injection Hd as <-. cbv zeta.
    cbn [Tools.Utilities.r_liquid_tag_report Tools.Utilities.tags_found
         Tools.Utilities.details Tools.Utilities.has_cross_post_unsafe
         Tools.Utilities.r_canonical_url].
    split; [now rewrite length_map|].
    split; [apply detected_unsafe_flag|].
    split.
    + apply Forall_map.
      cbn [Tools.Utilities.d_cross_post_safe]. apply detected_all_unsafe.
    + split; [|reflexivity]. apply StronglySorted_map.
      cbn [Tools.Utilities.d_line].
      rewrite detectLiquidTags_tags. apply sort_by_line_sorted.
Qed.

Lemma handlePrepareCrosspost_response_witness :
  let a := Tools.Utilities.mkArgs "{% constructor %}" "https://x.io/a"
             (Some false) in
  exists d,
    Tools.Utilities.handlePrepareCrosspost a = Tools.JsonResponse d
    /\ Tools.Utilities.body d = Tools.Utilities.body_markdown a.
Proof.
  intros a.
  apply (proj1 (handlePrepareCrosspost_response a)). reflexivity.
Defined.

Example test_handlePrepareCrosspost :
  Tools.Utilities.handlePrepareCrosspost
    (Tools.Utilities.mkArgs
       (doc ["Check this: {% youtube abc123 %}"; EmptyString; "More content here."])
       "https://myblog.com/original" None)
  = Tools.JsonResponse
      (Tools.Utilities.mkData
         (doc ["Check this: https://www.youtube.com/watch?v=abc123"; EmptyString;
               "More content here."])
         "https://myblog.com/original"
         (Tools.Utilities.mkTagReport 1 true
            [Tools.Utilities.mkDetail "youtube" "abc123" 1 false]))
  /\ Tools.Utilities.handlePrepareCrosspost
       (Tools.Utilities.mkArgs "{% constructor %}" "https://x.io/a" None)
     = Tools.ErrorResponse Validator.api_error.
Proof. split; vm_compute; reflexivity. Qed.


(* ------------------------------------------------------------------ *)
(** ** The parameters the article handlers send *)











(* ------------------------------------------------------------------ *)
(** ** The authentication state *)

Lemma validateApiKey_throws getMe now cached e :
  fst (Auth.validateApiKey getMe now cached) = Auth.Thrown e ->
  Errors.code e = Validator.auth_failed.
Proof.
  destruct getMe as [u|e0|text]; cbn [Auth.validateApiKey fst];
    intros [= <-]; try reflexivity.
  destruct (Errors.code e0) eqn:E; try reflexivity. exact E.
Qed.

(** X25.  The answer of [handleAuthStatus] depends on the last call that
    changed the state only: it is the user, with the time of validation,
    exactly when that call was a validation to which the API answered
    with a truthy value, at a time that is a date.  Every error it
    answers with, and every error a validation throws, has the code
    [auth_failed]; and it throws itself only for a time that is not a
    date. *)
Theorem handleAuthStatus_last_call (calls : list Auth.call) :
  let cached := fold_left Auth.step calls None in
  (forall u t,
     Auth.handleAuthStatus cached = Some (Tools.JsonResponse (u, t))
     <-> exists before,
           calls = before ++ [Auth.Validate (Auth.MeUser u) t]
           /\ Auth.ToBoolean u = true /\ Auth.is_date t = true)
  /\ (forall c,
        Auth.handleAuthStatus cached = Some (Tools.ErrorResponse c) ->
        c = Validator.auth_failed)
  /\ (Auth.handleAuthStatus cached = None ->
      exists before u t,
        calls = before ++ [Auth.Validate (Auth.MeUser u) t]
        /\ Auth.is_date t = false)
  /\ (forall getMe now e,
        fst (Auth.validateApiKey getMe now cached) = Auth.Thrown e ->
        Errors.code e = Validator.auth_failed).
Proof.
  cbv zeta.
  split; [|split; [|split; [|intros; eapply validateApiKey_throws; eauto]]].
  - intros u t.
    destruct calls as [|c0 calls0] using rev_ind.
    + cbn. split; [discriminate|].
      intros (before & H & _). now destruct before.
    + clear IHcalls0. rewrite fold_left_app. cbn [fold_left].
      destruct c0 as [[u0|e0|text] now|]; cbn.
      * split.
        -- destruct (Auth.ToBoolean u0) eqn:Eu; cbn; [|discriminate].
           destruct (Auth.is_date now) eqn:Ed; [|discriminate].
           intros [= <- <-]. now exists calls0.
        -- intros (before & H & Hu & Hd).
           apply app_inj_tail in H. destruct H as [_ [= <- <-]].
           now rewrite Hu, Hd.
      * split; [discriminate|].
        intros (before & H & _). apply app_inj_tail in H.
        destruct H as [_ H]. discriminate.
      * split; [discriminate|].
        intros (before & H & _). apply app_inj_tail in H.
        destruct H as [_ H]. discriminate.
      * split; [discriminate|].
        intros (before & H & _). apply app_inj_tail in H.
        destruct H as [_ H]. discriminate.
  - intros c.
    destruct calls as [|c0 calls0] using rev_ind.
    + cbn. now intros [= <-].
    + clear IHcalls0. rewrite fold_left_app. cbn [fold_left].
      destruct c0 as [[u0|e0|text] now|]; cbn; try (now intros [= <-]).
      destruct (Auth.ToBoolean u0); cbn; [|now intros [= <-]].
      destruct (Auth.is_date now); discriminate.
  - destruct calls as [|c0 calls0] using rev_ind.
    + cbn. discriminate.
    + clear IHcalls0. rewrite fold_left_app. cbn [fold_left].
      destruct c0 as [[u0|e0|text] now|]; cbn; try discriminate.
      destruct (Auth.ToBoolean u0); cbn; [|discriminate].
      destruct (Auth.is_date now) eqn:Ed; [discriminate|].
      intros _. now exists calls0, u0, now.
Qed.

Lemma handleAuthStatus_last_call_witness :
  let u := JObj [("username" : str, JStr "ada")] in
  Auth.handleAuthStatus
    (fold_left Auth.step
       [Auth.Reset; Auth.Validate (Auth.MeUser u) 1700000000000] None)
  = Some (Tools.JsonResponse (u, 1700000000000%Z)).
Proof.
  intros u.
  pose proof (handleAuthStatus_last_call
                [Auth.Reset; Auth.Validate (Auth.MeUser u) 1700000000000])
    as H.
  cbv zeta in H. destruct H as (H & _).
  apply (proj2 (H u 1700000000000%Z)).
  exists [Auth.Reset]. repeat split.
Defined.

Example test_auth_null_user :
  Auth.handleAuthStatus
    (fold_left Auth.step [Auth.Validate (Auth.MeUser JNull) 1700000000000]
       None)
  = Some (Tools.ErrorResponse Validator.auth_failed)
  /\ fst (Auth.validateApiKey (Auth.MeUser JNull) 1700000000000 None)
     = Auth.Returned (Auth.mkAuthState true (Some JNull) 1700000000000).
Proof. split; reflexivity. Qed.

(* ------------------------------------------------------------------ *)
(** ** The base URL *)

Lemma match_at_trailingSlash_more c d (rest : str) pos :
  match_at BaseUrl.trailingSlash (c :: d :: rest) pos = None.
Proof.
  unfold BaseUrl.trailingSlash. cbn [Seqs Lit list_ascii_of_string].
  unfold match_at. cbn [rmatch ms_rest ms_pos ms_caps].
  now destruct (is_char "/" c).
Qed.

Lemma search_trailingSlash (u : str) c pos :
  search BaseUrl.trailingSlash (u ++ [c]) pos
  = if Ascii.eqb c "/"
    then Some (Hit (pos + length u) [c] [])
    else None.
Proof.
  revert pos; induction u as [|x u IH]; intros pos.
  - cbn [app length]. rewrite Nat.add_0_r.
    unfold BaseUrl.trailingSlash. cbn [Seqs Lit list_ascii_of_string search].
    unfold match_at. cbn [rmatch ms_rest ms_pos ms_caps].
    unfold is_char. rewrite (Ascii.eqb_sym "/" c).
    destruct (Ascii.eqb c "/"); [|reflexivity].
    cbn [ms_pos ms_caps]. now replace (S pos - pos) with 1 by lia.
  - cbn [app search length].
    destruct (u ++ [c]) as [|d rest] eqn:E; [now destruct u|].
    rewrite match_at_trailingSlash_more, IH.
    now replace (S pos + length u) with (pos + S (length u)) by lia.
Qed.

(** X26.  The base URL is the configured one without its last character
    when that is a slash, and unchanged otherwise: only one slash is
    taken off.  Without a configured URL it is [https://dev.to/api]. *)
Theorem baseUrl_trailing_slash :
  (forall u : str, BaseUrl.baseUrl (Some (u ++ "/")) = u)
  /\ (forall (u : str) c,
        c <> "/"%char -> BaseUrl.baseUrl (Some (u ++ [c])) = u ++ [c])
  /\ BaseUrl.baseUrl (Some []) = []
  /\ BaseUrl.baseUrl None = list_ascii_of_string "https://dev.to/api".
Proof.
  split; [|split; [|split; reflexivity]].
  - intros u. unfold BaseUrl.baseUrl, BaseUrl.replace_first.
    change (list_ascii_of_string "/") with ["/"%char].
    rewrite search_trailingSlash. cbn [Ascii.eqb Bool.eqb h_index h_text].
    cbn [length Nat.add app].
    rewrite firstn_app, Nat.sub_diag, firstn_all. cbn [firstn].
    rewrite app_nil_r.
    rewrite skipn_all2 by (rewrite length_app; cbn [length]; lia).
    apply app_nil_r.
  - intros u c Hc. unfold BaseUrl.baseUrl, BaseUrl.replace_first.
    rewrite search_trailingSlash.
    destruct (Ascii.eqb_spec c "/"); [contradiction|reflexivity].
Qed.

Lemma baseUrl_trailing_slash_witness :
  BaseUrl.baseUrl (Some ("https://dev.to/api" ++ "/"))
  = list_ascii_of_string "https://dev.to/api"
  /\ BaseUrl.baseUrl (Some ("https://dev.to/ap" ++ ["i"%char]))
     = "https://dev.to/ap" ++ ["i"%char].
Proof.
  split.
  - apply (proj1 baseUrl_trailing_slash "https://dev.to/api").
  - apply (proj1 (proj2 baseUrl_trailing_slash) "https://dev.to/ap" "i"%char).
    discriminate.
Defined.
